(** * PluginAutomation: README generator and npm download statistics

    A shallow embedding of [src/generateReadmes.ts] and
    [src/npmDownloadStats.ts], and the properties of them that the
    specification states.

    Conventions of the embedding:
    - a JavaScript string is the sequence of its UTF-16 code units
      ([list N]); [length] is JavaScript's [.length];
    - regular expressions are kept as syntax trees and run by a
      backtracking matcher that follows the ECMAScript matching order
      (leftmost start, greedy and lazy quantifiers, alternatives in order);
    - what the environment answers (file system, hosted model, registry)
      is supplied by a [World] or an oracle argument; what the code does
      to the environment is recorded as a trace of events. *)

From Stdlib Require Import Strings.String Strings.Ascii DecimalString.
From Stdlib Require Import NArith ZArith QArith Qround Lia.
From stdpp Require Import base option list gmap sorting.

Local Open Scope N_scope.
Local Open Scope nat_scope.

(** ** Strings *)

Abbreviation jsstring := (list N).

Definition ch (a : ascii) : N := N_of_ascii a.
Arguments ch a%_char : simpl never.

Definition str (s : string) : jsstring :=
  map N_of_ascii (list_ascii_of_string s).
Arguments str s%_string : simpl never.

Definition dquote : N := 34%N.
Definition squote : N := 39%N.
Definition newline : N := 10%N.

Module JS.

(** [s.startsWith(p)] *)
Fixpoint startsWith (p s : jsstring) : bool :=
  match p, s with
  | [], _ => true
  | a :: p', b :: s' => if N.eqb a b then startsWith p' s' else false
  | _ :: _, [] => false
  end.

(** [s.endsWith(p)] *)
Definition endsWith (p s : jsstring) : bool :=
  startsWith (rev p) (rev s).

(** [s.includes(p)] *)
Fixpoint includes (p s : jsstring) : bool :=
  startsWith p s ||
  match s with
  | [] => false
  | _ :: s' => includes p s'
  end.

(** WhiteSpace and LineTerminator code units: what [trim] strips and
    what [\s] matches. *)
Definition isSpace (c : N) : bool :=
  ((9 <=? c) && (c <=? 13))%N
  || N.eqb c 32 || N.eqb c 160 || N.eqb c 5760
  || ((8192 <=? c) && (c <=? 8202))%N
  || N.eqb c 8232 || N.eqb c 8233 || N.eqb c 8239
  || N.eqb c 8287 || N.eqb c 12288 || N.eqb c 65279.

Fixpoint trimStart (s : jsstring) : jsstring :=
  match s with
  | c :: s' => if isSpace c then trimStart s' else s
  | [] => []
  end.

Definition trimEnd (s : jsstring) : jsstring :=
  rev (trimStart (rev s)).

(** [s.trim()] *)
Definition trim (s : jsstring) : jsstring := trimEnd (trimStart s).

(** [parts.join(sep)] *)
Fixpoint join (sep : jsstring) (parts : list jsstring) : jsstring :=
  match parts with
  | [] => []
  | [p] => p
  | p :: rest => p ++ sep ++ join sep rest
  end.

(** [s.split(sep)] for a non-empty separator.  [skip] counts the code
    units of a separator still to be passed over, [cur] holds the piece
    being read, reversed. *)
Fixpoint splitFrom (sep : jsstring) (skip : nat) (cur : jsstring)
    (s : jsstring) : list jsstring :=
  match s with
  | [] => [rev cur]
  | c :: s' =>
      match skip with
      | S k => splitFrom sep k cur s'
      | O =>
          if startsWith sep s
          then rev cur :: splitFrom sep (length sep - 1) [] s'
          else splitFrom sep 0 (c :: cur) s'
      end
  end.

Definition split (sep s : jsstring) : list jsstring :=
  splitFrom sep 0 [] s.

(** The truthiness of a string: [''] is falsy. *)
Definition truthy (s : jsstring) : bool :=
  match s with [] => false | _ => true end.

(** [a || b] on strings. *)
Definition or_else (a b : jsstring) : jsstring :=
  if truthy a then a else b.

(** [GetSubstitution]: the expansion of the dollar patterns of a
    replacement string, for a match [matched] of [before ++ matched ++
    after] with captures [caps] ([ncaps] groups in the pattern).
    [$$] gives a dollar, [$&] the match, [$`] what precedes it, [$']
    what follows it, [$n] and [$nn] a capture when the pattern has that
    group; anything else is copied. *)
Definition digitVal (c : N) : option nat :=
  if ((48 <=? c) && (c <=? 57))%N then Some (N.to_nat (c - 48)) else None.

Definition capture (caps : gmap nat jsstring) (i : nat) : jsstring :=
  default [] (caps !! i).

Fixpoint expandFrom (skip : nat) (before matched after : jsstring)
    (ncaps : nat) (caps : gmap nat jsstring) (r : jsstring) : jsstring :=
  match r with
  | [] => []
  | c :: r' =>
      match skip with
      | S k => expandFrom k before matched after ncaps caps r'
      | O =>
          if N.eqb c 36 then
            match r' with
            | d :: r'' =>
                if N.eqb d 36 then
                  36%N :: expandFrom 1 before matched after ncaps caps r'
                else if N.eqb d 38 then
                  matched ++ expandFrom 1 before matched after ncaps caps r'
                else if N.eqb d 96 then
                  before ++ expandFrom 1 before matched after ncaps caps r'
                else if N.eqb d 39 then
                  after ++ expandFrom 1 before matched after ncaps caps r'
                else
                  match digitVal d with
                  | Some n1 =>
                      let two :=
                        match r'' with
                        | e :: _ =>
                            match digitVal e with
                            | Some n2 =>
                                let n := 10 * n1 + n2 in
                                if (1 <=? n) && (n <=? ncaps)
                                then Some n else None
                            | None => None
                            end
                        | [] => None
                        end in
                      match two with
                      | Some n =>
                          capture caps n ++
                          expandFrom 2 before matched after ncaps caps r'
                      | None =>
                          if (1 <=? n1) && (n1 <=? ncaps)
                          then capture caps n1 ++
                               expandFrom 1 before matched after ncaps caps r'
                          else c :: expandFrom 0 before matched after
                                      ncaps caps r'
                      end
                  | None =>
                      c :: expandFrom 0 before matched after ncaps caps r'
                  end
            | [] => [c]
            end
          else c :: expandFrom 0 before matched after ncaps caps r'
      end
  end.

Definition getSubstitution (before matched after : jsstring)
    (ncaps : nat) (caps : gmap nat jsstring) (r : jsstring) : jsstring :=
  expandFrom 0 before matched after ncaps caps r.

(** [s.replace(pat, repl)] with a string pattern: the first occurrence
    only; the replacement's dollar patterns are expanded. *)
Fixpoint replaceStrFrom (pat repl : jsstring) (before : jsstring)
    (s : jsstring) : jsstring :=
  if startsWith pat s then
    rev before
    ++ getSubstitution (rev before) pat (drop (length pat) s) 0 ∅ repl
    ++ drop (length pat) s
  else
    match s with
    | [] => rev before
    | c :: s' => replaceStrFrom pat repl (c :: before) s'
    end.

Definition replaceStr (pat repl s : jsstring) : jsstring :=
  replaceStrFrom pat repl [] s.

(** Lexicographic comparison by code units: the order of the default
    [Array.prototype.sort] and of [<] on strings. *)
Fixpoint ltb (a b : jsstring) : bool :=
  match a, b with
  | [], [] => false
  | [], _ :: _ => true
  | _ :: _, [] => false
  | x :: a', y :: b' =>
      if (x <? y)%N then true
      else if (y <? x)%N then false
      else ltb a' b'
  end.

Definition leb (a b : jsstring) : bool := negb (ltb b a).


(** A count inside a template literal: its decimal digits. *)
Definition ofNat (n : nat) : jsstring :=
  str (NilZero.string_of_uint (Nat.to_uint n)).
End JS.

(** ** Regular expressions

    The syntax of the patterns that the scripts use, and a backtracking
    matcher in continuation-passing style.  A continuation receives the
    state after a sub-pattern and answers with the final state of the
    whole match, or [None] to make the matcher try its next choice. *)

Inductive regex : Type :=
| Eps                                  (* the empty pattern *)
| Chr (c : N)                          (* one given code unit *)
| Cls (f : N → bool)                   (* a class, an escape or the dot *)
| Seq (r1 r2 : regex)
| Alt (r1 r2 : regex)                  (* r1|r2 *)
| Star (greedy : bool) (r : regex)     (* r* and r*? *)
| Grp (i : nat) (r : regex)            (* the i-th capturing group *)
| WordB                                (* \b *)
| Bol (multiline : bool)               (* ^ *)
| Eol (multiline : bool).              (* $ *)

Module Re.

Definition isWord (c : N) : bool :=
  ((48 <=? c) && (c <=? 57))%N || ((65 <=? c) && (c <=? 90))%N
  || N.eqb c 95 || ((97 <=? c) && (c <=? 122))%N.

Definition isLineTerminator (c : N) : bool :=
  N.eqb c 10 || N.eqb c 13 || N.eqb c 8232 || N.eqb c 8233.

(** The dot without the [s] flag, and with it. *)
Definition dot (c : N) : bool := negb (isLineTerminator c).
Definition any (_ : N) : bool := true.

(** [[^...]] over a list of excluded code units, [[...]] over a list of
    admitted ones. *)
Definition noneOf (l : jsstring) (c : N) : bool :=
  negb (existsb (N.eqb c) l).
Definition oneOf (l : jsstring) (c : N) : bool :=
  existsb (N.eqb c) l.

(** A literal run of code units. *)
Fixpoint lit (s : jsstring) : regex :=
  match s with
  | [] => Eps
  | c :: s' => Seq (Chr c) (lit s')
  end.

Definition plus (greedy : bool) (r : regex) : regex :=
  Seq r (Star greedy r).
Definition opt (r : regex) : regex := Alt r Eps.

Fixpoint seqs (rs : list regex) : regex :=
  match rs with
  | [] => Eps
  | [r] => r
  | r :: rs' => Seq r (seqs rs')
  end.

Fixpoint alts (r : regex) (rs : list regex) : regex :=
  match rs with
  | [] => r
  | r' :: rs' => Alt r (alts r' rs')
  end.

(** The least number of code units that a match of [r] takes. *)
Fixpoint minLength (r : regex) : nat :=
  match r with
  | Chr _ | Cls _ => 1
  | Seq r1 r2 => minLength r1 + minLength r2
  | Alt r1 r2 => min (minLength r1) (minLength r2)
  | Grp _ r1 => minLength r1
  | Eps | Star _ _ | WordB | Bol _ | Eol _ => 0
  end.

(** The state of a match: the code unit before the current position (if
    any), the input from the current position on, and the captures. *)
Record mstate : Type := MState {
  ms_prev : option N;
  ms_rest : jsstring;
  ms_caps : gmap nat jsstring
}.

Definition cont : Type := mstate → option mstate.

Definition step (c : N) (rest : jsstring) (st : mstate) : mstate :=
  MState (Some c) rest (ms_caps st).

Definition isWordOpt (o : option N) : bool :=
  match o with Some c => isWord c | None => false end.

Definition orElse (a : option mstate) (b : option mstate) : option mstate :=
  match a with Some x => Some x | None => b end.

Fixpoint run (r : regex) (k : cont) (st : mstate) {struct r}
    : option mstate :=
  match r with
  | Eps => k st
  | Chr c =>
      match ms_rest st with
      | x :: rest => if N.eqb x c then k (step x rest st) else None
      | [] => None
      end
  | Cls f =>
      match ms_rest st with
      | x :: rest => if f x then k (step x rest st) else None
      | [] => None
      end
  | Seq r1 r2 => run r1 (run r2 k) st
  | Alt r1 r2 => orElse (run r1 k st) (run r2 k st)
  | Star greedy r1 =>
      (fix star (n : nat) (k : cont) (st : mstate) {struct n}
         : option mstate :=
         match n with
         | O => k st
         | S n' =>
             let again :=
               run r1
                 (fun st' =>
                    if length (ms_rest st') <? length (ms_rest st)
                    then star n' k st' else None) st in
             if greedy then orElse again (k st) else orElse (k st) again
         end) (length (ms_rest st)) k st
  | Grp i r1 =>
      run r1
        (fun st' =>
           k (MState (ms_prev st') (ms_rest st')
                (<[i := take (length (ms_rest st) - length (ms_rest st'))
                          (ms_rest st)]> (ms_caps st')))) st
  | WordB =>
      if xorb (isWordOpt (ms_prev st)) (isWordOpt (head (ms_rest st)))
      then k st else None
  | Bol multiline =>
      match ms_prev st with
      | None => k st
      | Some c => if multiline && isLineTerminator c then k st else None
      end
  | Eol multiline =>
      match ms_rest st with
      | [] => k st
      | c :: _ => if multiline && isLineTerminator c then k st else None
      end
  end.

(** One match: where it starts, the matched text and the captures
    ([m_groups !! i] is [match[i]]; a group that took no part is
    absent, which is JavaScript's [undefined]). *)
Record jsmatch : Type := JsMatch {
  m_index : nat;
  m_text : jsstring;
  m_groups : gmap nat jsstring
}.

(** The match of [r] that starts at the current position. *)
Definition matchHere (r : regex) (prev : option N) (idx : nat)
    (s : jsstring) : option jsmatch :=
  match run r Some (MState prev s ∅) with
  | Some st' =>
      Some (JsMatch idx (take (length s - length (ms_rest st')) s)
              (ms_caps st'))
  | None => None
  end.

(** The leftmost match at or after the current position:
    [RegExp.prototype.exec] and [String.prototype.match] without the
    [g] flag. *)
Fixpoint searchFrom (r : regex) (prev : option N) (idx : nat)
    (s : jsstring) : option jsmatch :=
  match matchHere r prev idx s with
  | Some m => Some m
  | None =>
      match s with
      | [] => None
      | c :: s' => searchFrom r (Some c) (S idx) s'
      end
  end.

Definition search (r : regex) (s : jsstring) : option jsmatch :=
  searchFrom r None 0 s.

(** All matches from left to right, each search resumed where the
    previous match ended (one code unit further after an empty match):
    [matchAll], [match] with the [g] flag, and a
    [while ((m = re.exec(s)) !== null)] loop over a pattern that cannot
    match the empty string.  [skip] counts the code units of the last
    match still to be passed over. *)
Fixpoint matchesFrom (r : regex) (skip : nat) (prev : option N)
    (idx : nat) (s : jsstring) : list jsmatch :=
  match skip with
  | S k =>
      match s with
      | [] => []
      | c :: s' => matchesFrom r k (Some c) (S idx) s'
      end
  | O =>
      match matchHere r prev idx s with
      | Some m =>
          m :: match s with
               | [] => []
               | c :: s' =>
                   matchesFrom r (length (m_text m) - 1) (Some c) (S idx) s'
               end
      | None =>
          match s with
          | [] => []
          | c :: s' => matchesFrom r 0 (Some c) (S idx) s'
          end
      end
  end.

Definition matchAll (r : regex) (s : jsstring) : list jsmatch :=
  matchesFrom r 0 None 0 s.

(** [s.replace(/r/g, repl)]: every match replaced by the expansion of
    [repl]; [before] is the input already passed, reversed. *)
Fixpoint replaceFrom (r : regex) (ncaps : nat) (repl : jsstring)
    (skip : nat) (before : jsstring) (s : jsstring) : jsstring :=
  match skip with
  | S k =>
      match s with
      | [] => []
      | c :: s' => replaceFrom r ncaps repl k (c :: before) s'
      end
  | O =>
      match matchHere r (head before) 0 s with
      | Some m =>
          JS.getSubstitution (rev before) (m_text m)
            (drop (length (m_text m)) s) ncaps (m_groups m) repl
          ++ match s with
             | [] => []
             | c :: s' =>
                 match length (m_text m) with
                 | O => c :: replaceFrom r ncaps repl 0 (c :: before) s'
                 | S k => replaceFrom r ncaps repl k (c :: before) s'
                 end
             end
      | None =>
          match s with
          | [] => []
          | c :: s' => c :: replaceFrom r ncaps repl 0 (c :: before) s'
          end
      end
  end.

Definition replaceAll (r : regex) (ncaps : nat) (repl s : jsstring)
    : jsstring :=
  replaceFrom r ncaps repl 0 [] s.

(** [s.replace(/r/, repl)] without the [g] flag: the leftmost match. *)
Definition replaceFirst (r : regex) (ncaps : nat) (repl s : jsstring)
    : jsstring :=
  match search r s with
  | Some m =>
      let before := take (m_index m) s in
      let after := drop (m_index m + length (m_text m)) s in
      before
      ++ JS.getSubstitution before (m_text m) after ncaps (m_groups m) repl
      ++ after
  | None => s
  end.

End Re.

(** ** npmDownloadStats.ts: the per-version estimate *)

Module Npm.

(** [PackageInfo]: the fields that [fetchVersionDownloads] reads. *)
Record PackageInfo : Type := {
  name : jsstring;
  versions : list jsstring
}.

Record VersionDownloads : Type := {
  packageName : jsstring;
  version : jsstring;
  downloads : Z;
  downloadsPeriod : jsstring
}.

(** What the registry answers to a download-count request: a body whose
    [downloads] field may be missing, a 404, or another failure. *)
Inductive response : Type :=
| Body (downloads : option Z)
| NotFound
| Failure.

(** The registry, asked for a period and a package name. *)
Definition registry : Type := jsstring → jsstring → response.

(** [getDownloadStats]: [None] is a thrown error. *)
Definition getDownloadStats (api : registry) (packageName period : jsstring)
    : option Z :=
  match api period packageName with
  | Body d => Some (default 0%Z d)
  | NotFound => Some 0%Z
  | Failure => None
  end.

(** [Math.round]: the nearest integer, a tie going up.  Counts are
    integers far below 2^53, so their quotient by at most ten is held
    as the exact rational. *)
Definition Math_round (q : Q) : Z := Qfloor (q + (1 # 2)).

(** [a.slice(-n)] *)
Definition sliceLast {A} (n : nat) (l : list A) : list A :=
  drop (length l - n) l.

(** One turn of the loop of [fetchVersionDownloads]: the records pushed
    for [pkg]; none when the request throws. *)
Definition versionRecords (api : registry) (pkg : PackageInfo)
    : list VersionDownloads :=
  match getDownloadStats api (name pkg) (str "last-month") with
  | Some total =>
      let versions := sliceLast 10 (versions pkg) in
      map (fun version =>
             {| packageName := name pkg;
                version := version;
                downloads :=
                  Math_round (inject_Z total
                              / inject_Z (Z.of_nat (length versions)));
                downloadsPeriod := str "last-month" |})
          versions
  | None => []
  end.

Definition fetchVersionDownloads (api : registry)
    (packages : list PackageInfo) : list VersionDownloads :=
  flat_map (versionRecords api) packages.

End Npm.

(** ** generateReadmes.ts: package name normalisation *)

(** [(packageJson.name || '').replace('@elizaos-plugins/', '@elizaos/')];
    [None] is a manifest without a name. *)
Definition normalizedPackageName (name : option jsstring) : jsstring :=
  JS.replaceStr (str "@elizaos-plugins/") (str "@elizaos/") (default [] name).

(** The shape of a scoped npm package name, [@scope/name]: one leading
    at-sign, one slash, and neither part empty. *)
Definition isScopedName (s : jsstring) : bool :=
  match s with
  | c :: rest =>
      N.eqb c (ch "@")
      && forallb (fun x => negb (N.eqb x (ch "@"))) rest
      && match JS.split (str "/") rest with
         | [scope; name] => JS.truthy scope && JS.truthy name
         | _ => false
         end
  | [] => false
  end.

(** ** Paths and the file system *)

Module Path.

Definition sep : jsstring := str "/".

(** Node's [normalizeString]: the segments of a path with the empty
    ones and the dots dropped and each [..] cancelling the segment
    before it; above the start it is kept for a relative path only. *)
Definition pushSegment (allowAboveRoot : bool) (res : list jsstring)
    (seg : jsstring) : list jsstring :=
  if bool_decide (seg = []) || bool_decide (seg = str ".") then res
  else if bool_decide (seg = str "..") then
    match reverse res with
    | last :: before =>
        if bool_decide (last = str "..") then res ++ [seg]
        else reverse before
    | [] => if allowAboveRoot then res ++ [seg] else res
    end
  else res ++ [seg].

Definition normalizeSegments (allowAboveRoot : bool) (p : jsstring)
    : list jsstring :=
  foldl (pushSegment allowAboveRoot) [] (JS.split sep p).

(** [path.normalize] (POSIX) *)
Definition normalize (p : jsstring) : jsstring :=
  match p with
  | [] => str "."
  | _ =>
      let isAbsolute := JS.startsWith sep p in
      let trailingSeparator := JS.endsWith sep p in
      let body := JS.join sep (normalizeSegments (negb isAbsolute) p) in
      match body with
      | [] =>
          if isAbsolute then sep
          else if trailingSeparator then str "./" else str "."
      | _ =>
          let body := if trailingSeparator then body ++ sep else body in
          if isAbsolute then sep ++ body else body
      end
  end.

(** [path.join(...parts)] (POSIX) *)
Definition join (parts : list jsstring) : jsstring :=
  match filter (λ x : jsstring, x ≠ []) parts with
  | [] => str "."
  | nonEmpty => normalize (JS.join sep nonEmpty)
  end.

(** The segments that lead from the root to an absolute path. *)
Definition segments (p : jsstring) : list jsstring :=
  normalizeSegments false p.

End Path.

(** A disk is a tree of named files and directories. *)
#[warnings="-register-all"]
Inductive node : Type :=
| File (name : jsstring) (content : jsstring)
| Dir (name : jsstring) (entries : list node).

Module Fs.

Definition nodeName (n : node) : jsstring :=
  match n with File name _ => name | Dir name _ => name end.

Definition findEntry (name : jsstring) (entries : list node) : option node :=
  find (λ n, bool_decide (nodeName n = name)) entries.

(** The node that a list of segments leads to, from a directory's
    entries. *)
Fixpoint walk (segs : list jsstring) (here : node) : option node :=
  match segs with
  | [] => Some here
  | seg :: segs' =>
      match here with
      | Dir _ entries =>
          match findEntry seg entries with
          | Some n => walk segs' n
          | None => None
          end
      | File _ _ => None
      end
  end.

(** The disk: the root directory. *)
Definition disk : Type := list node.

Definition lookup (d : disk) (p : jsstring) : option node :=
  walk (Path.segments p) (Dir [] d).

(** [fs.pathExists] *)
Definition pathExists (d : disk) (p : jsstring) : bool :=
  bool_decide (is_Some (lookup d p)).

(** [fs.readFile(p, 'utf-8')]: [None] is a thrown error (no such file,
    or a directory). *)
Definition readFile (d : disk) (p : jsstring) : option jsstring :=
  match lookup d p with
  | Some (File _ content) => Some content
  | _ => None
  end.

(** [fs.readdir]: the names of a directory's entries. *)
Definition readdir (d : disk) (p : jsstring) : option (list node) :=
  match lookup d p with
  | Some (Dir _ entries) => Some entries
  | _ => None
  end.

(** Writing a file into a directory's entries: an entry of that name is
    replaced, else the file is added. *)
Fixpoint putEntry (n : node) (entries : list node) : list node :=
  match entries with
  | [] => [n]
  | e :: rest =>
      if bool_decide (nodeName e = nodeName n) then n :: rest
      else e :: putEntry n rest
  end.

Definition dropEntry (name : jsstring) (entries : list node) : list node :=
  filter (λ e, nodeName e ≠ name) entries.

(** The entries of a directory after [change] has been applied to the
    entries of the directory that [segs] leads to; [None] when the way
    there does not exist. *)
Fixpoint update (change : list node → option (list node))
    (segs : list jsstring) (entries : list node)
    : option (list node) :=
  match segs with
  | [] => change entries
  | seg :: segs' =>
      match findEntry seg entries with
      | Some (Dir name sub) =>
          match update change segs' sub with
          | Some sub' => Some (putEntry (Dir name sub') entries)
          | None => None
          end
      | _ => None
      end
  end.

Definition parentSegments (p : jsstring) : list jsstring :=
  reverse (tail (reverse (Path.segments p))).
Definition baseName (p : jsstring) : jsstring :=
  default [] (head (reverse (Path.segments p))).

(** [fs.writeFile(p, content)]: the parent directory has to exist and
    [p] must not be a directory. *)
Definition writeFile (d : disk) (p content : jsstring) : option disk :=
  update (λ entries,
            match findEntry (baseName p) entries with
            | Some (Dir _ _) => None
            | _ => Some (putEntry (File (baseName p) content) entries)
            end)
         (parentSegments p) d.

(** [fs.remove(p)]: the file or the whole directory goes; nothing
    happens when it is not there. *)
Definition remove (d : disk) (p : jsstring) : disk :=
  default d (update (λ entries, Some (dropEntry (baseName p) entries))
                    (parentSegments p) d).

(** A fresh directory [p] holding [entries], its parents made as
    needed: what a successful [git clone] into [p] leaves. *)
Fixpoint graft (segs : list jsstring) (content : list node)
    (entries : list node) : list node :=
  match segs with
  | [] => content
  | seg :: segs' =>
      let sub :=
        match findEntry seg entries with
        | Some (Dir _ sub) => sub
        | _ => []
        end in
      putEntry (Dir seg (graft segs' content sub)) entries
  end.

(** [mkdir -p]: the directories on the way that are missing are made
    and those that are there are kept.  A regular file on the way is an
    error, [EEXIST] when it stands at the end of the way and [ENOTDIR]
    when it stands before. *)
Fixpoint mkdirp (segs : list jsstring) (entries : list node)
    : jsstring + list node :=
  match segs with
  | [] => inr entries
  | seg :: segs' =>
      match findEntry seg entries with
      | Some (File _ _) =>
          inl (match segs' with [] => str "EEXIST" | _ => str "ENOTDIR" end)
      | Some (Dir name sub) =>
          match mkdirp segs' sub with
          | inr sub' => inr (putEntry (Dir name sub') entries)
          | inl code => inl code
          end
      | None =>
          match mkdirp segs' [] with
          | inr sub' => inr (putEntry (Dir seg sub') entries)
          | inl code => inl code
          end
      end
  end.

End Fs.

(** ** generateReadmes.ts: the data model *)

Inductive ComponentType : Type := actions | services | providers.

Definition typeName (type : ComponentType) : jsstring :=
  match type with
  | actions => str "actions"
  | services => str "services"
  | providers => str "providers"
  end.

Record ParamInfo : Type := {
  param_name : jsstring;
  param_type : jsstring;
  param_required : bool;
  param_description : jsstring
}.

Record MethodInfo : Type := {
  method_name : jsstring;
  method_parameters : jsstring;
  method_description : jsstring
}.

(** [ComponentInfo]; an optional field that is [None] is absent. *)
Module ComponentInfo.
Record t : Type := {
  name : jsstring;
  sourceCode : option jsstring;
  filePath : option jsstring;
  description : option jsstring;
  parameters : option (list ParamInfo);
  returnType : option jsstring;
  methods : option (list MethodInfo);
  aliases : option (list jsstring);
  usageExample : option jsstring;
  configuration : option jsstring
}.

(** [{ name: n }] *)
Definition named (n : jsstring) : t :=
  {| name := n; sourceCode := None; filePath := None; description := None;
     parameters := None; returnType := None; methods := None;
     aliases := None; usageExample := None; configuration := None |}.
End ComponentInfo.

(** [Partial<ComponentInfo>] as [extractDetailedComponentInfo] fills it. *)
Module Details.
Record t : Type := {
  description : option jsstring;
  parameters : option (list ParamInfo);
  aliases : option (list jsstring);
  methods : option (list MethodInfo)
}.
End Details.

Module PluginInfo.
Record t : Type := {
  name : jsstring;
  description : jsstring;
  packageName : jsstring;
  actions : list ComponentInfo.t;
  services : list ComponentInfo.t;
  providers : list ComponentInfo.t;
  events : list jsstring;
  evaluators : list jsstring;
  envVars : list jsstring;
  dependencies : list jsstring;
  repository : jsstring;
  hasTests : bool
}.
End PluginInfo.

(** [Object.assign(component, detailedInfo)]: the fields present in
    [info] overwrite those of [c]. *)
Definition assignDetails (c : ComponentInfo.t) (info : Details.t)
    : ComponentInfo.t :=
  {| ComponentInfo.name := ComponentInfo.name c;
     ComponentInfo.sourceCode := ComponentInfo.sourceCode c;
     ComponentInfo.filePath := ComponentInfo.filePath c;
     ComponentInfo.description :=
       from_option Some (ComponentInfo.description c) (Details.description info);
     ComponentInfo.parameters :=
       from_option Some (ComponentInfo.parameters c) (Details.parameters info);
     ComponentInfo.returnType := ComponentInfo.returnType c;
     ComponentInfo.methods :=
       from_option Some (ComponentInfo.methods c) (Details.methods info);
     ComponentInfo.aliases :=
       from_option Some (ComponentInfo.aliases c) (Details.aliases info);
     ComponentInfo.usageExample := ComponentInfo.usageExample c;
     ComponentInfo.configuration := ComponentInfo.configuration c |}.

(** ** The patterns of the extractor *)

Module Pat.
Import Re.

(** Each pattern is given with its source text; there, [\x22] stands
    for the double quote and [\x29] for a closing parenthesis. *)

(** [\s], [\s*], [\s+], [\w+], ['\x22], and the lazy run of anything
    ([.*?] under the [s] flag, [[\s\S]*?]) *)
Definition ws : regex := Cls JS.isSpace.
Definition ws0 : regex := Star true ws.
Definition ws1 : regex := plus true ws.
Definition word1 : regex := plus true (Cls isWord).
Definition quote : regex := Cls (oneOf [squote; dquote]).
Definition lazyAny : regex := Star false (Cls any).

(** /\/\*\*([\s\S]*?)\*\/[\s\n]*(?:export\s+)?(?:const|class|function|interface)\s+(\w+)/g *)
Definition jsdocRegex : regex :=
  seqs [lit (str "/**"); Grp 1 lazyAny; lit (str "*/"); ws0;
        opt (Seq (lit (str "export")) ws1);
        alts (lit (str "const"))
             [lit (str "class"); lit (str "function"); lit (str "interface")];
        ws1; Grp 2 word1].

(** /@description\s+(.+)|^\s*\*\s+([^@].+)/m *)
Definition descRegex : regex :=
  Alt (seqs [lit (str "@description"); ws1; Grp 1 (plus true (Cls dot))])
      (seqs [Bol true; ws0; Chr (ch "*"); ws1;
             Grp 2 (Seq (Cls (noneOf [ch "@"])) (plus true (Cls dot)))]).

(** A name made of word characters: spliced into the source of a
    pattern, it stands for itself. *)
Definition wordName (name : jsstring) : bool := forallb Re.isWord name.

(** new RegExp(`interface\\s+${componentName}(?:Action)?(?:Content|Input|Params)?\\s*{([^}]+)}`, 's');
    the component name is spliced into the pattern source, and the
    pattern here is the one of a [wordName]. *)
Definition interfaceRegex (componentName : jsstring) : regex :=
  seqs [lit (str "interface"); ws1; lit componentName;
        opt (lit (str "Action"));
        opt (alts (lit (str "Content")) [lit (str "Input"); lit (str "Params")]);
        ws0; Chr (ch "{"); Grp 1 (plus true (Cls (noneOf [ch "}"])));
        Chr (ch "}")].

(** /^\s*(\w+)(\?)?:\s*([^;]+);?\s*(?:\/\/\s*(.+))?/gm *)
Definition paramRegex : regex :=
  seqs [Bol true; ws0; Grp 1 word1; opt (Grp 2 (Chr (ch "?")));
        Chr (ch ":"); ws0; Grp 3 (plus true (Cls (noneOf [ch ";"])));
        opt (Chr (ch ";")); ws0;
        opt (seqs [lit (str "//"); ws0; Grp 4 (plus true (Cls dot))])].

(** /aliases\s*:\s*\[([^\]]+)\]/ *)
Definition aliasRegex : regex :=
  seqs [lit (str "aliases"); ws0; Chr (ch ":"); ws0; Chr (ch "[");
        Grp 1 (plus true (Cls (noneOf [ch "]"]))); Chr (ch "]")].

(** /['\x22]/g *)
Definition quoteRegex : regex := quote.

(** new RegExp(`${componentName}(?:Action)?Schema\\s*=\\s*z\\.object\\({([^}]+)}`, 's') *)
Definition schemaRegex (componentName : jsstring) : regex :=
  seqs [lit componentName; opt (lit (str "Action")); lit (str "Schema");
        ws0; Chr (ch "="); ws0; lit (str "z.object({");
        Grp 1 (plus true (Cls (noneOf [ch "}"]))); Chr (ch "}")].

(** /(\w+):\s*z\.(\w+)\((.*?)\)(?:\.(\w+)\((.*?)\))*/g *)
Definition zodParamRegex : regex :=
  seqs [Grp 1 word1; Chr (ch ":"); ws0; lit (str "z."); Grp 2 word1;
        Chr (ch "("); Grp 3 (Star false (Cls dot)); Chr (ch ")");
        Star true (seqs [Chr (ch "."); Grp 4 word1; Chr (ch "(");
                         Grp 5 (Star false (Cls dot)); Chr (ch ")")])].

(** /(?:async\s+)?(\w+)\s*\([^)]*\)\s*(?::\s*[^{]+)?\s*{/g *)
Definition methodRegex : regex :=
  seqs [opt (Seq (lit (str "async")) ws1); Grp 1 word1; ws0;
        Chr (ch "("); Star true (Cls (noneOf [ch ")"])); Chr (ch ")"); ws0;
        opt (seqs [Chr (ch ":"); ws0; plus true (Cls (noneOf [ch "{"]))]);
        ws0; Chr (ch "{")].

(** new RegExp(`(?:async\\s+)?${methodName}\\s*\\(([^)]*\x29\\)\\s*(?::\\s*([^{]+))?`, 's') *)
Definition fullMethodRegex (methodName : jsstring) : regex :=
  seqs [opt (Seq (lit (str "async")) ws1); lit methodName; ws0;
        Chr (ch "("); Grp 1 (Star true (Cls (noneOf [ch ")"]))); Chr (ch ")");
        ws0;
        opt (seqs [Chr (ch ":"); ws0;
                   Grp 2 (plus true (Cls (noneOf [ch "{"])))])].

(** /Action$|Service$|Provider$/ *)
Definition suffixRegex : regex :=
  alts (Seq (lit (str "Action")) (Eol false))
       [Seq (lit (str "Service")) (Eol false);
        Seq (lit (str "Provider")) (Eol false)].

(** /import\s+(?:{([^}]+)}|(\w+))\s+from\s+[\x22']\.\/actions(?:\/([^\x22']+))?[\x22']/g
    and the same over [./providers] *)
Definition importsFrom (dir : jsstring) : regex :=
  seqs [lit (str "import"); ws1;
        Alt (seqs [Chr (ch "{"); Grp 1 (plus true (Cls (noneOf [ch "}"])));
                   Chr (ch "}")])
            (Grp 2 word1);
        ws1; lit (str "from"); ws1; quote; lit (str "./"); lit dir;
        opt (Seq (Chr (ch "/"))
                 (Grp 3 (plus true (Cls (noneOf [dquote; squote])))));
        quote].

(** The array literal sites of a category [what]:
    /what:\s*\[(.*?)\]/s,
    /export\s+const\s+what\s*=\s*\[(.*?)\]/s,
    /\.what\s*=\s*\[(.*?)\]/s and
    /export\s+default\s+{\s*[^}]*what:\s*\[(.*?)\]/s *)
Definition arrayTail : list regex :=
  [Chr (ch "["); Grp 1 lazyAny; Chr (ch "]")].
Definition propertySite (what : jsstring) : regex :=
  seqs ([lit what; Chr (ch ":"); ws0] ++ arrayTail).
Definition exportConstSite (what : jsstring) : regex :=
  seqs ([lit (str "export"); ws1; lit (str "const"); ws1; lit what; ws0;
         Chr (ch "="); ws0] ++ arrayTail).
Definition assignSite (what : jsstring) : regex :=
  seqs ([Chr (ch "."); lit what; ws0; Chr (ch "="); ws0] ++ arrayTail).
Definition exportDefaultSite (what : jsstring) : regex :=
  seqs ([lit (str "export"); ws1; lit (str "default"); ws1; Chr (ch "{");
         ws0; Star true (Cls (noneOf [ch "}"])); lit what; Chr (ch ":");
         ws0] ++ arrayTail).

Definition actionPatterns : list regex :=
  [propertySite (str "actions"); exportConstSite (str "actions");
   assignSite (str "actions"); exportDefaultSite (str "actions")].
Definition servicePatterns : list regex :=
  [propertySite (str "services"); exportConstSite (str "services");
   assignSite (str "services")].
Definition providerPatterns : list regex :=
  [propertySite (str "providers"); exportConstSite (str "providers");
   assignSite (str "providers"); exportDefaultSite (str "providers")].

(** /\/\/.*$/gm and /\/\*[\s\S]*?\*\//g *)
Definition lineComment : regex :=
  seqs [lit (str "//"); Star true (Cls dot); Eol true].
Definition blockComment : regex :=
  seqs [lit (str "/*"); lazyAny; lit (str "*/")].

(** /\b[a-zA-Z_]\w+\b/g *)
Definition isIdentStart (c : N) : bool :=
  ((97 <=? c) && (c <=? 122))%N || ((65 <=? c) && (c <=? 90))%N
  || N.eqb c 95.
Definition refRegex : regex :=
  seqs [WordB; Cls isIdentStart; word1; WordB].

(** /{[^}]*name:\s*[\x22'](\w+)[\x22'][^}]*}/g *)
Definition inlineRegex : regex :=
  seqs [Chr (ch "{"); Star true (Cls (noneOf [ch "}"])); lit (str "name:");
        ws0; quote; Grp 1 word1; quote;
        Star true (Cls (noneOf [ch "}"])); Chr (ch "}")].

(** /\w+Service\b/g *)
Definition serviceNameRegex : regex :=
  seqs [word1; lit (str "Service"); WordB].

(** /\w+/g *)
Definition wordRegex : regex := word1.

(** /export\s+(?:const|class|function)\s+(\w+)(?:Action)?/g, with
    [Service] and [Provider] for the other two directories, and
    /export\s+(?:const|class|function)\s+(\w+)/ *)
Definition exportHead : list regex :=
  [lit (str "export"); ws1;
   alts (lit (str "const")) [lit (str "class"); lit (str "function")];
   ws1; Grp 1 word1].
Definition exportRegex (suffix : jsstring) : regex :=
  seqs (exportHead ++ [opt (lit suffix)]).
Definition exportNameRegex : regex := seqs exportHead.

(** /export\s+default\s+{[^}]*name:\s*[\x22'](\w+)[\x22']/s *)
Definition defaultExportRegex : regex :=
  seqs [lit (str "export"); ws1; lit (str "default"); ws1; Chr (ch "{");
        Star true (Cls (noneOf [ch "}"])); lit (str "name:"); ws0; quote;
        Grp 1 word1; quote].

(** /process\.env\.(\w+)/g, /getSetting\(['\x22](\w+)['\x22]\)/g,
    /getEnv\(['\x22](\w+)['\x22]\)/g and
    /runtime\.getSetting\(['\x22](\w+)['\x22]\)/g *)
Definition getter (call : jsstring) : regex :=
  seqs [lit call; Chr (ch "("); quote; Grp 1 word1; quote; Chr (ch ")")].
Definition envPatterns : list regex :=
  [Seq (lit (str "process.env.")) (Grp 1 word1);
   getter (str "getSetting");
   getter (str "getEnv");
   getter (str "runtime.getSetting")].

(** /{{NAME}}/g: a placeholder of the template. *)
Definition placeholderText (name : jsstring) : jsstring :=
  str "{{" ++ name ++ str "}}".
Definition placeholder (name : jsstring) : regex :=
  lit (placeholderText name).

End Pat.

(** ** extractDetailedComponentInfo *)

Definition cap (m : Re.jsmatch) (i : nat) : jsstring :=
  JS.capture (Re.m_groups m) i.

(** The JSDoc pass: the description of the last documented declaration
    whose identifier is the component's name, bare or with one of the
    three suffixes. *)
Definition jsdocDescription (sourceCode componentName : jsstring)
    : option jsstring :=
  foldl
    (λ (description : option jsstring) (m : Re.jsmatch),
       let jsdocContent := cap m 1 in
       let identifier := cap m 2 in
       if bool_decide (identifier = componentName)
          || bool_decide (identifier = componentName ++ str "Action")
          || bool_decide (identifier = componentName ++ str "Service")
          || bool_decide (identifier = componentName ++ str "Provider")
       then
         if JS.truthy jsdocContent then
           match Re.search Pat.descRegex jsdocContent with
           | Some descMatch =>
               let desc := JS.or_else (cap descMatch 1) (cap descMatch 2) in
               if JS.truthy desc then Some (JS.trim desc) else description
           | None => description
           end
         else description
       else description)
    None (Re.matchAll Pat.jsdocRegex sourceCode).

(** The parameters read from an interface body. *)
Definition interfaceParams (interfaceBody : jsstring) : list ParamInfo :=
  if JS.truthy interfaceBody then
    omap (λ m : Re.jsmatch,
            let paramName := cap m 1 in
            let paramType := cap m 3 in
            if JS.truthy paramName && JS.truthy paramType then
              Some {| param_name := paramName;
                      param_type := JS.trim paramType;
                      param_required := negb (JS.truthy (cap m 2));
                      param_description := cap m 4 |}
            else None)
         (Re.matchAll Pat.paramRegex interfaceBody)
  else [].

(** The parameters read from a zod schema body. *)
Definition zodParams (schemaBody : jsstring) : list ParamInfo :=
  if JS.truthy schemaBody then
    omap (λ m : Re.jsmatch,
            let paramName := cap m 1 in
            let paramType := cap m 2 in
            let paramDesc := cap m 3 in
            if JS.truthy paramName && JS.truthy paramType then
              Some {| param_name := paramName;
                      param_type := paramType;
                      param_required :=
                        negb (bool_decide (Re.m_groups m !! 4
                                           = Some (str "optional")));
                      param_description :=
                        if JS.truthy paramDesc
                        then Re.replaceAll Pat.quoteRegex 0 [] paramDesc
                        else [] |}
            else None)
         (Re.matchAll Pat.zodParamRegex schemaBody)
  else [].

Definition nonEmptyList {A} (l : list A) : option (list A) :=
  match l with [] => None | _ => Some l end.

(** The methods of a service: every match of the method pattern whose
    name is neither [constructor] nor underscore-prefixed, with the
    parameter text of the first place in the source where that name is
    followed by a parameter list. *)
Definition serviceMethods (sourceCode : jsstring) : list MethodInfo :=
  omap (λ methodMatch : Re.jsmatch,
          let methodName := cap methodMatch 1 in
          if JS.truthy methodName
             && negb (bool_decide (methodName = str "constructor"))
             && negb (JS.startsWith (str "_") methodName)
          then
            match Re.search (Pat.fullMethodRegex methodName) sourceCode with
            | Some fullMatch =>
                Some {| method_name := methodName;
                        method_parameters := cap fullMatch 1;
                        method_description := [] |}
            | None => None
            end
          else None)
       (Re.matchAll Pat.methodRegex sourceCode).

Definition extractDetailedComponentInfo (sourceCode componentName : jsstring)
    (type : ComponentType) : Details.t :=
  let description := jsdocDescription sourceCode componentName in
  match type with
  | actions =>
      let fromInterface :=
        match Re.search (Pat.interfaceRegex componentName) sourceCode with
        | Some interfaceMatch =>
            nonEmptyList (interfaceParams (cap interfaceMatch 1))
        | None => None
        end in
      let aliases :=
        match Re.search Pat.aliasRegex sourceCode with
        | Some aliasMatch =>
            if JS.truthy (cap aliasMatch 1) then
              Some (map (λ a, Re.replaceAll Pat.quoteRegex 0 [] (JS.trim a))
                        (JS.split (str ",") (cap aliasMatch 1)))
            else None
        | None => None
        end in
      let parameters :=
        match fromInterface with
        | Some params => Some params
        | None =>
            match Re.search (Pat.schemaRegex componentName) sourceCode with
            | Some schemaMatch => nonEmptyList (zodParams (cap schemaMatch 1))
            | None => None
            end
        end in
      {| Details.description := description;
         Details.parameters := parameters;
         Details.aliases := aliases;
         Details.methods := None |}
  | services =>
      {| Details.description := description;
         Details.parameters := None;
         Details.aliases := None;
         Details.methods := nonEmptyList (serviceMethods sourceCode) |}
  | providers =>
      {| Details.description := description;
         Details.parameters := None;
         Details.aliases := None;
         Details.methods := None |}
  end.

(** ** readComponentSource *)

Definition readComponentSource (d : Fs.disk) (repoPath componentName : jsstring)
    (type : ComponentType) : option jsstring :=
  let under (file : jsstring) :=
    Path.join [repoPath; str "src"; typeName type; file] in
  let candidates (base : jsstring) :=
    [under (base ++ str ".ts"); under (base ++ str ".js");
     under (base ++ str "/index.ts"); under (base ++ str "/index.js")] in
  let baseName := Re.replaceFirst Pat.suffixRegex 0 [] componentName in
  let possiblePaths :=
    candidates componentName
    ++ (if bool_decide (baseName ≠ componentName)
        then candidates baseName else []) in
  (fix first (paths : list jsstring) : option jsstring :=
     match paths with
     | [] => None
     | filePath :: rest =>
         if Fs.pathExists d filePath then
           match Fs.readFile d filePath with
           | Some content => Some content
           | None => first rest
           end
         else first rest
     end) possiblePaths.

(** A component found in the index file: its name, and, when its source
    file is found and not empty, the source and what is read from it. *)
Definition describeComponent (d : Fs.disk) (repoPath componentName : jsstring)
    (type : ComponentType) : ComponentInfo.t :=
  let component := ComponentInfo.named componentName in
  match readComponentSource d repoPath componentName type with
  | Some sourceCode =>
      if JS.truthy sourceCode then
        assignDetails
          {| ComponentInfo.name := componentName;
             ComponentInfo.sourceCode := Some sourceCode;
             ComponentInfo.filePath :=
               Some (str "src/" ++ typeName type ++ str "/" ++ componentName);
             ComponentInfo.description := None;
             ComponentInfo.parameters := None;
             ComponentInfo.returnType := None;
             ComponentInfo.methods := None;
             ComponentInfo.aliases := None;
             ComponentInfo.usageExample := None;
             ComponentInfo.configuration := None |}
          (extractDetailedComponentInfo sourceCode componentName type)
      else component
  | None => component
  end.

(** ** extractPluginComponents *)

Definition keywords : list jsstring :=
  [str "const"; str "let"; str "var"; str "function"; str "class";
   str "import"; str "export"; str "new"; str "return"; str "if";
   str "else"; str "for"; str "while"; str "do"; str "break";
   str "continue"].

(** The alias table of the imports from [./dir]: for a named import
    [original as alias] the entry [alias ↦ original], for a plain or a
    default import the identity entry. *)
Definition addNamedImport (table : gmap jsstring jsstring) (imp : jsstring)
    : gmap jsstring jsstring :=
  let parts := JS.split (str " as ") imp in
  let alias := default [] (last parts) in
  let original := JS.or_else (default [] (head parts)) alias in
  if JS.truthy alias && JS.truthy original
  then <[alias := original]> table else table.

Definition importTable (dir indexContent : jsstring)
    : gmap jsstring jsstring :=
  foldl
    (λ (table : gmap jsstring jsstring) (m : Re.jsmatch),
       if JS.truthy (cap m 1) then
         foldl addNamedImport table
               (map JS.trim (JS.split (str ",") (cap m 1)))
       else if JS.truthy (cap m 2) then <[cap m 2 := cap m 2]> table
       else table)
    ∅ (Re.matchAll (Pat.importsFrom dir) indexContent).

(** The text of an array literal without its comments. *)
Definition cleanContent (content : jsstring) : jsstring :=
  Re.replaceAll Pat.blockComment 0 []
    (Re.replaceAll Pat.lineComment 0 [] content).

(** [cleanContent.match(/\b[a-zA-Z_]\w+\b/g) || []] *)
Definition allRefs (clean : jsstring) : list jsstring :=
  Re.m_text <$> Re.matchAll Pat.refRegex clean.

(** The name under which a reference is recorded: [importName || ref]. *)
Definition resolveName (table : gmap jsstring jsstring) (ref : jsstring)
    : jsstring :=
  match table !! ref with
  | Some importName => JS.or_else importName ref
  | None => ref
  end.

(** The loop over the references: the components so far and the set
    [foundNames]. *)
Definition addReference (d : Fs.disk) (repoPath : jsstring)
    (type : ComponentType) (table : gmap jsstring jsstring)
    (acc : list ComponentInfo.t * gset jsstring) (ref : jsstring)
    : list ComponentInfo.t * gset jsstring :=
  let '(components, foundNames) := acc in
  if JS.truthy ref && negb (bool_decide (ref ∈ keywords))
     && negb (bool_decide (ref ∈ foundNames))
  then
    let componentName := resolveName table ref in
    (components ++ [describeComponent d repoPath componentName type],
     {[componentName]} ∪ foundNames)
  else acc.

(** The loop over the inline objects with a [name] property. *)
Definition addInline (d : Fs.disk) (repoPath : jsstring)
    (acc : list ComponentInfo.t * gset jsstring) (inlineMatch : Re.jsmatch)
    : list ComponentInfo.t * gset jsstring :=
  let '(components, foundNames) := acc in
  let componentName := cap inlineMatch 1 in
  if JS.truthy componentName && negb (bool_decide (componentName ∈ foundNames))
  then
    (components ++ [describeComponent d repoPath componentName actions],
     {[componentName]} ∪ foundNames)
  else acc.

Definition actionsOfArray (d : Fs.disk) (repoPath : jsstring)
    (table : gmap jsstring jsstring) (content : jsstring)
    : list ComponentInfo.t :=
  let clean := cleanContent content in
  let fromRefs :=
    foldl (addReference d repoPath actions table) ([], ∅) (allRefs clean) in
  fst (foldl (addInline d repoPath) fromRefs
             (Re.matchAll Pat.inlineRegex clean)).

Definition providersOfArray (d : Fs.disk) (repoPath : jsstring)
    (table : gmap jsstring jsstring) (content : jsstring)
    : list ComponentInfo.t :=
  fst (foldl (addReference d repoPath providers table) ([], ∅)
             (allRefs (cleanContent content))).

Definition servicesOfArray (d : Fs.disk) (repoPath : jsstring)
    (content : jsstring) : list ComponentInfo.t :=
  map (λ serviceName, describeComponent d repoPath serviceName services)
      (Re.m_text <$> Re.matchAll Pat.serviceNameRegex (cleanContent content)).

(** The loop over the patterns of a category: the components of the
    first pattern that matches with a non-empty capture and yields some. *)
Fixpoint firstSite (read : jsstring → list ComponentInfo.t)
    (patterns : list regex) (indexContent : jsstring)
    : option (list ComponentInfo.t) :=
  match patterns with
  | [] => None
  | pattern :: rest =>
      match Re.search pattern indexContent with
      | Some m =>
          if JS.truthy (cap m 1) then
            match read (cap m 1) with
            | [] => firstSite read rest indexContent
            | components => Some components
            end
          else firstSite read rest indexContent
      | None => firstSite read rest indexContent
      end
  end.

(** [events] and [evaluators]: the words of the array literal. *)
Definition wordsOfSite (what indexContent : jsstring)
    : option (list jsstring) :=
  match Re.search (Pat.propertySite what) indexContent with
  | Some m =>
      if JS.truthy (cap m 1)
      then Some (Re.m_text <$> Re.matchAll Pat.wordRegex (cap m 1))
      else None
  | None => None
  end.

Definition isSourceFile (file : jsstring) : bool :=
  JS.endsWith (str ".ts") file || JS.endsWith (str ".js") file.

(** The components exported by one file of a component directory. *)
Definition exportsOfFile (type : ComponentType) (suffix file content : jsstring)
    : list ComponentInfo.t :=
  let found (n : jsstring) : ComponentInfo.t :=
    {| ComponentInfo.name := n;
       ComponentInfo.sourceCode := Some content;
       ComponentInfo.filePath :=
         Some (str "src/" ++ typeName type ++ str "/" ++ file);
       ComponentInfo.description := None;
       ComponentInfo.parameters := None;
       ComponentInfo.returnType := None;
       ComponentInfo.methods := None;
       ComponentInfo.aliases := None;
       ComponentInfo.usageExample := None;
       ComponentInfo.configuration := None |} in
  omap (λ exportMatch : Re.jsmatch,
          match Re.search Pat.exportNameRegex (Re.m_text exportMatch) with
          | Some nameMatch =>
              if JS.truthy (cap nameMatch 1)
              then Some (found (cap nameMatch 1)) else None
          | None => None
          end)
       (Re.matchAll (Pat.exportRegex suffix) content)
  ++ match type with
     | actions =>
         match Re.search Pat.defaultExportRegex content with
         | Some m =>
             if JS.truthy (cap m 1) then [found (cap m 1)] else []
         | None => []
         end
     | _ => []
     end.

(** The scan of a component directory; [None] when reading fails, which
    the caller ignores. *)
Definition scanDirectory (d : Fs.disk) (dirPath : jsstring)
    (type : ComponentType) (suffix : jsstring)
    : option (list ComponentInfo.t) :=
  files ← Fs.readdir d dirPath;
  foldl
    (λ (acc : option (list ComponentInfo.t)) (entry : node),
       components ← acc;
       let file := Fs.nodeName entry in
       if isSourceFile file then
         content ← Fs.readFile d (Path.join [dirPath; file]);
         Some (components ++ exportsOfFile type suffix file content)
       else Some components)
    (Some []) files.

Definition fromDirectory (d : Fs.disk) (srcPath : jsstring)
    (type : ComponentType) (suffix : jsstring)
    (current : list ComponentInfo.t) : list ComponentInfo.t :=
  let dirPath := Path.join [srcPath; typeName type] in
  if Fs.pathExists d dirPath && bool_decide (length current = 0) then
    match scanDirectory d dirPath type suffix with
    | Some (c :: components) => c :: components
    | _ => current
    end
  else current.

Definition extractPluginComponents (d : Fs.disk)
    (repoPath indexContent : jsstring) (pluginInfo : PluginInfo.t)
    : PluginInfo.t :=
  let fromIndex {A} (found : option A) (current : A) : A :=
    if JS.truthy indexContent then default current found else current in
  let actions1 :=
    fromIndex
      (firstSite (actionsOfArray d repoPath
                    (importTable (str "actions") indexContent))
                 Pat.actionPatterns indexContent)
      (PluginInfo.actions pluginInfo) in
  let services1 :=
    fromIndex
      (firstSite (servicesOfArray d repoPath)
                 Pat.servicePatterns indexContent)
      (PluginInfo.services pluginInfo) in
  let providers1 :=
    fromIndex
      (firstSite (providersOfArray d repoPath
                    (importTable (str "providers") indexContent))
                 Pat.providerPatterns indexContent)
      (PluginInfo.providers pluginInfo) in
  let srcPath := Path.join [repoPath; str "src"] in
  {| PluginInfo.name := PluginInfo.name pluginInfo;
     PluginInfo.description := PluginInfo.description pluginInfo;
     PluginInfo.packageName := PluginInfo.packageName pluginInfo;
     PluginInfo.actions := fromDirectory d srcPath actions (str "Action") actions1;
     PluginInfo.services :=
       fromDirectory d srcPath services (str "Service") services1;
     PluginInfo.providers :=
       fromDirectory d srcPath providers (str "Provider") providers1;
     PluginInfo.events :=
       fromIndex (wordsOfSite (str "events") indexContent)
                 (PluginInfo.events pluginInfo);
     PluginInfo.evaluators :=
       fromIndex (wordsOfSite (str "evaluators") indexContent)
                 (PluginInfo.evaluators pluginInfo);
     PluginInfo.envVars := PluginInfo.envVars pluginInfo;
     PluginInfo.dependencies := PluginInfo.dependencies pluginInfo;
     PluginInfo.repository := PluginInfo.repository pluginInfo;
     PluginInfo.hasTests := PluginInfo.hasTests pluginInfo |}.

(** ** extractPluginInfo *)

(** [envVars.add(x)] on a [Set] kept in insertion order. *)
Definition setAdd (x : jsstring) (s : list jsstring) : list jsstring :=
  if bool_decide (x ∈ s) then s else s ++ [x].

(** The four patterns run over one file, each capture added to the set. *)
Definition scanContent (content : jsstring) (envVars : list jsstring)
    : list jsstring :=
  foldl
    (λ (envVars : list jsstring) (pattern : regex),
       foldl (λ (envVars : list jsstring) (m : Re.jsmatch),
                if JS.truthy (cap m 1) then setAdd (cap m 1) envVars
                else envVars)
             envVars (Re.matchAll pattern content))
    envVars Pat.envPatterns.

Definition isSkippedDirectory (file : jsstring) : bool :=
  JS.includes (str "node_modules") file || JS.includes (str ".git") file.

(** One entry of the loop of [searchForEnvVars]; [None] is a thrown error:
    a directory that is not descended into and is named like a source
    file is handed to [readFile]. *)
Fixpoint searchEntry (entry : node) (envVars : list jsstring)
    : option (list jsstring) :=
  match entry with
  | Dir file entries =>
      if negb (isSkippedDirectory file) then
        (fix searchForEnvVars (files : list node) (envVars : list jsstring)
           : option (list jsstring) :=
           match files with
           | [] => Some envVars
           | f :: rest =>
               match searchEntry f envVars with
               | Some envVars' => searchForEnvVars rest envVars'
               | None => None
               end
           end) entries envVars
      else if isSourceFile file then None
      else Some envVars
  | File file content =>
      if isSourceFile file then Some (scanContent content envVars)
      else Some envVars
  end.

Fixpoint searchForEnvVars (files : list node) (envVars : list jsstring)
    : option (list jsstring) :=
  match files with
  | [] => Some envVars
  | f :: rest =>
      match searchEntry f envVars with
      | Some envVars' => searchForEnvVars rest envVars'
      | None => None
      end
  end.

(** The order of [Array.prototype.sort] without a comparator. *)
Definition lexle (a b : jsstring) : Prop := Is_true (JS.leb a b).
Definition lexlt (a b : jsstring) : Prop := Is_true (JS.ltb a b).

Global Instance lexle_dec : RelDecision lexle.
Proof. intros a b. unfold lexle. apply _. Defined.

(** [Array.from(envVars).sort()] *)
Definition sortedArray (envVars : list jsstring) : list jsstring :=
  merge_sort lexle envVars.

(** What the scan is expected to find: the identifiers captured in one
    file, and in the files of a tree that the scan visits, in the order
    in which it meets them and with their repetitions. *)
Definition capturesIn (content : jsstring) : list jsstring :=
  concat
    (map (λ pattern : regex,
            filter (λ x, JS.truthy x = true)
                   ((λ m, cap m 1) <$> Re.matchAll pattern content))
         Pat.envPatterns).

Fixpoint discoveredEntry (entry : node) : list jsstring :=
  match entry with
  | Dir file entries =>
      if negb (isSkippedDirectory file) then
        (fix discovered (files : list node) : list jsstring :=
           match files with
           | [] => []
           | f :: rest => discoveredEntry f ++ discovered rest
           end) entries
      else []
  | File file content =>
      if isSourceFile file then capturesIn content else []
  end.

Fixpoint discovered (files : list node) : list jsstring :=
  match files with
  | [] => []
  | f :: rest => discoveredEntry f ++ discovered rest
  end.

(** The trees on which the scan does not throw: no directory that is
    passed over is named like a source file. *)
Fixpoint scannableEntry (entry : node) : bool :=
  match entry with
  | Dir file entries =>
      if negb (isSkippedDirectory file) then
        (fix scannable (files : list node) : bool :=
           match files with
           | [] => true
           | f :: rest => scannableEntry f && scannable rest
           end) entries
      else negb (isSourceFile file)
  | File _ _ => true
  end.

Fixpoint scannable (files : list node) : bool :=
  match files with
  | [] => true
  | f :: rest => scannableEntry f && scannable rest
  end.

(** The directory whose entries the scan starts from. *)
Definition scanRoot (d : Fs.disk) (repoPath : jsstring) : jsstring :=
  let srcPath := Path.join [repoPath; str "src"] in
  if Fs.pathExists d srcPath then srcPath else repoPath.

(** The fields of [package.json] that are read. *)
Module Manifest.
Record t : Type := {
  name : option jsstring;
  description : option jsstring;
  dependencies : list jsstring;
  repositoryUrl : option jsstring
}.
End Manifest.

(** [JSON.parse] on the text of a manifest; [None] is a thrown error. *)
Definition parser : Type := jsstring → option Manifest.t.

(** The scan for environment variables from the repository path. *)
Definition scanEnvVars (d : Fs.disk) (repoPath : jsstring)
    : option (list jsstring) :=
  files ← Fs.readdir d (scanRoot d repoPath);
  envVars ← searchForEnvVars files [];
  Some (sortedArray envVars).

Definition readIndex (d : Fs.disk) (repoPath : jsstring) : option jsstring :=
  (fix first (indexPaths : list jsstring) : option jsstring :=
     match indexPaths with
     | [] => Some []
     | indexPath :: rest =>
         if Fs.pathExists d indexPath then Fs.readFile d indexPath
         else first rest
     end)
    [Path.join [repoPath; str "src/index.ts"];
     Path.join [repoPath; str "src/index.js"];
     Path.join [repoPath; str "index.ts"];
     Path.join [repoPath; str "index.js"]].

(** [extractPluginInfo]; [None] is a thrown error. *)
Definition extractPluginInfo (parse : parser) (d : Fs.disk)
    (repoPath : jsstring) : option PluginInfo.t :=
  text ← Fs.readFile d (Path.join [repoPath; str "package.json"]);
  packageJson ← parse text;
  let normalizedPackageName :=
    normalizedPackageName (Manifest.name packageJson) in
  let pluginInfo :=
    {| PluginInfo.name := normalizedPackageName;
       PluginInfo.description := default [] (Manifest.description packageJson);
       PluginInfo.packageName := normalizedPackageName;
       PluginInfo.actions := [];
       PluginInfo.services := [];
       PluginInfo.providers := [];
       PluginInfo.events := [];
       PluginInfo.evaluators := [];
       PluginInfo.envVars := [];
       PluginInfo.dependencies := Manifest.dependencies packageJson;
       PluginInfo.repository := default [] (Manifest.repositoryUrl packageJson);
       PluginInfo.hasTests :=
         Fs.pathExists d (Path.join [repoPath; str "__tests__"])
         || Fs.pathExists d (Path.join [repoPath; str "src/__tests__"]) |} in
  indexContent ← readIndex d repoPath;
  let pluginInfo := extractPluginComponents d repoPath indexContent pluginInfo in
  envVars ← scanEnvVars d repoPath;
  Some {| PluginInfo.name := PluginInfo.name pluginInfo;
          PluginInfo.description := PluginInfo.description pluginInfo;
          PluginInfo.packageName := PluginInfo.packageName pluginInfo;
          PluginInfo.actions := PluginInfo.actions pluginInfo;
          PluginInfo.services := PluginInfo.services pluginInfo;
          PluginInfo.providers := PluginInfo.providers pluginInfo;
          PluginInfo.events := PluginInfo.events pluginInfo;
          PluginInfo.evaluators := PluginInfo.evaluators pluginInfo;
          PluginInfo.envVars := envVars;
          PluginInfo.dependencies := PluginInfo.dependencies pluginInfo;
          PluginInfo.repository := PluginInfo.repository pluginInfo;
          PluginInfo.hasTests := PluginInfo.hasTests pluginInfo |}.

(** ** generateReadmeFromTemplate *)

Definition nl : jsstring := [newline].
Definition fence : jsstring := str "```".
Definition tick : jsstring := str "`".

(** [x || fallback] for an optional string field. *)
Definition orDefault (x : option jsstring) (fallback : jsstring) : jsstring :=
  JS.or_else (default [] x) fallback.

(** [readme.replace(/{{NAME}}/g, value)] *)
Definition fill (name value readme : jsstring) : jsstring :=
  Re.replaceAll (Pat.placeholder name) 0 value readme.

Section Template.

(** [String.prototype.toLowerCase], as the runtime provides it. *)
Variable toLowerCase : jsstring → jsstring.

Definition envVarsSection (pluginInfo : PluginInfo.t) : jsstring :=
  match PluginInfo.envVars pluginInfo with
  | [] => str "# No environment variables required"
  | envVars =>
      JS.join nl
        (map (λ env, env ++ str "=your_" ++ toLowerCase env ++ str "_here")
             envVars)
  end.

Definition componentList (components : list ComponentInfo.t)
    (none : jsstring) : jsstring :=
  match components with
  | [] => none
  | _ =>
      JS.join nl
        (map (λ c, str "- **" ++ ComponentInfo.name c
                   ++ str "**: <!-- TODO: Add description -->")
             components)
  end.

Definition paramRow (param : ParamInfo) : jsstring :=
  str "| " ++ tick ++ param_name param ++ tick ++ str " | " ++ tick
  ++ param_type param ++ tick ++ str " | "
  ++ (if param_required param then str "Yes" else str "No")
  ++ str " | " ++ param_description param ++ str " |" ++ nl.

Definition actionSection (action : ComponentInfo.t) : jsstring :=
  str "#### " ++ ComponentInfo.name action ++ nl ++ nl
  ++ orDefault (ComponentInfo.description action)
       (str "Description of this action") ++ nl ++ nl
  ++ match ComponentInfo.parameters action with
     | Some (p :: ps) =>
         str "**Parameters:**" ++ nl ++ nl
         ++ str "| Parameter | Type | Required | Description |" ++ nl
         ++ str "|-----------|------|----------|-------------|" ++ nl
         ++ concat (map paramRow (p :: ps)) ++ nl
     | _ =>
         str "**Parameters:** This action does not require any parameters."
         ++ nl ++ nl
     end
  ++ str "**Usage:**" ++ nl ++ fence ++ str "typescript" ++ nl
  ++ str "// Example usage of " ++ ComponentInfo.name action ++ nl
  ++ orDefault (ComponentInfo.usageExample action)
       (str "await runtime.useAction('" ++ ComponentInfo.name action
        ++ str "', { /* parameters */ });")
  ++ nl ++ fence ++ nl ++ nl
  ++ (if JS.truthy (default [] (ComponentInfo.returnType action)) then
        str "**Output:**" ++ nl ++ fence ++ str "typescript" ++ nl
        ++ default [] (ComponentInfo.returnType action) ++ nl ++ fence
        ++ nl ++ nl
      else [])
  ++ match ComponentInfo.aliases action with
     | Some (a :: aliases) =>
         str "**Aliases:** " ++ JS.join (str ", ") (a :: aliases) ++ nl ++ nl
     | _ => []
     end.

Definition methodRow (method : MethodInfo) : jsstring :=
  str "- " ++ tick ++ method_name method ++ str "("
  ++ method_parameters method ++ str ")" ++ tick ++ str ": "
  ++ JS.or_else (method_description method) (str "Method description")
  ++ nl.

Definition serviceSection (service : ComponentInfo.t) : jsstring :=
  str "#### " ++ ComponentInfo.name service ++ nl ++ nl
  ++ orDefault (ComponentInfo.description service)
       (str "Description of this service") ++ nl ++ nl
  ++ match ComponentInfo.methods service with
     | Some (m :: ms) =>
         str "**Methods:**" ++ nl ++ nl
         ++ concat (map methodRow (m :: ms)) ++ nl
     | _ => []
     end
  ++ (if JS.truthy (default [] (ComponentInfo.configuration service)) then
        str "**Configuration:**" ++ nl ++ fence ++ str "typescript" ++ nl
        ++ default [] (ComponentInfo.configuration service) ++ nl ++ fence
        ++ nl ++ nl
      else [])
  ++ str "**Usage Example:**" ++ nl ++ fence ++ str "typescript" ++ nl
  ++ orDefault (ComponentInfo.usageExample service)
       (str "const service = runtime.getService('"
        ++ ComponentInfo.name service ++ str "');" ++ nl
        ++ str "// Use service methods here")
  ++ nl ++ fence ++ nl ++ nl.

Definition providerSection (provider : ComponentInfo.t) : jsstring :=
  str "#### " ++ ComponentInfo.name provider ++ nl ++ nl
  ++ orDefault (ComponentInfo.description provider)
       (str "Description of this provider") ++ nl ++ nl
  ++ str "**Provided Context:**" ++ nl ++ fence ++ str "typescript" ++ nl
  ++ orDefault (ComponentInfo.returnType provider)
       (str "// Context structure")
  ++ nl ++ fence ++ nl ++ nl
  ++ str "**Usage:**" ++ nl ++ fence ++ str "typescript" ++ nl
  ++ str "// The " ++ ComponentInfo.name provider
  ++ str " provider supplies the following context" ++ nl
  ++ orDefault (ComponentInfo.usageExample provider)
       (str "// Context is automatically included in agent prompts")
  ++ nl ++ fence ++ nl ++ nl
  ++ str "**When This Provider Runs:**" ++ nl
  ++ orDefault (ComponentInfo.configuration provider)
       (str "This provider runs before each agent action to supply relevant context.")
  ++ nl ++ nl.

Definition detailed (section : ComponentInfo.t → jsstring)
    (components : list ComponentInfo.t) (none : jsstring) : jsstring :=
  match components with
  | [] => none
  | _ => JS.join (nl ++ str "---" ++ nl ++ nl) (map section components)
  end.

(** The placeholders in the order in which they are replaced, each with
    the text put in its place. *)
Definition substitutions (pluginInfo : PluginInfo.t)
    : list (jsstring * jsstring) :=
  [(str "PLUGIN_NAME", PluginInfo.packageName pluginInfo);
   (str "PLUGIN_DESCRIPTION", PluginInfo.description pluginInfo);
   (str "PACKAGE_NAME", PluginInfo.packageName pluginInfo);
   (str "REPOSITORY_URL", PluginInfo.repository pluginInfo);
   (str "ENV_VARS", envVarsSection pluginInfo);
   (str "ACTIONS_LIST",
    componentList (PluginInfo.actions pluginInfo)
      (str "- No actions available"));
   (str "SERVICES_LIST",
    componentList (PluginInfo.services pluginInfo)
      (str "- No services available"));
   (str "PROVIDERS_LIST",
    componentList (PluginInfo.providers pluginInfo)
      (str "- No providers available"));
   (str "ACTIONS_DETAILED",
    detailed actionSection (PluginInfo.actions pluginInfo)
      (str "No actions found in this plugin."));
   (str "SERVICES_DETAILED",
    detailed serviceSection (PluginInfo.services pluginInfo)
      (str "No services found in this plugin."));
   (str "PROVIDERS_DETAILED",
    detailed providerSection (PluginInfo.providers pluginInfo)
      (str "No providers found in this plugin."))].

(** [generateReadmeFromTemplate], from the text of the template. *)
Definition fillTemplate (template : jsstring) (pluginInfo : PluginInfo.t)
    : jsstring :=
  foldl (λ readme '(name, value), fill name value readme)
        template (substitutions pluginInfo).

End Template.

(** ** The environment and the effects *)

(** What the hosted model answers to the prompt: the call fails, or it
    returns a message whose content may be missing. *)
Inductive completion : Type :=
| Rejected (error : jsstring)
| Answer (content : option jsstring).

Record World : Type := {
  (** the command line and the process environment *)
  LOCAL_MODE : bool;
  TEST_MODE : bool;
  TEST_REPO : option jsstring;
  NO_AI : bool;
  GITHUB_TOKEN : option jsstring;
  OPENAI_API_KEY : option jsstring;
  cwd : jsstring;
  (** the runtime *)
  toLowerCase : jsstring → jsstring;
  parse : parser;
  now : jsstring;
  (** the outside: [git], the hosting API and the hosted model.  The
      prompt is built from the plugin information, the template and the
      existing README, so the answer is given as a function of them. *)
  gitClone : jsstring → option (list node);
  execSync : jsstring → jsstring → bool;
  listForOrg : option (list jsstring);
  pullsCreate : jsstring → jsstring → option jsstring;
  chatCompletion : PluginInfo.t → jsstring → jsstring → completion
}.

(** What the script does to the outside, in order.  A line of the
    console is the message of the source without its colours, and the
    lines of the progress spinner are left out; [ConsoleError] has the
    text and the error printed after it, empty when there is none. *)
Inductive event : Type :=
| ConsoleLog (text : jsstring)
| ConsoleWarn (text : jsstring)
| ConsoleError (text : jsstring) (error : jsstring)
| WriteFile (path content : jsstring)
| Remove (path : jsstring)
| Exec (command dir : jsstring)
| PullsCreate (repo head : jsstring).

Inductive outcome (A : Type) : Type :=
| Returned (a : A)
| Thrown (error : jsstring).
Arguments Returned {A} a.
Arguments Thrown {A} error.

Record state : Type := State {
  disk : Fs.disk;
  trace : list event
}.

(** A computation: from the state to its outcome and the state it leaves;
    what was done before a throw stays done. *)
Definition M (A : Type) : Type := state → outcome A * state.

Definition ret {A} (a : A) : M A := λ s, (Returned a, s).
Definition throw {A} (error : jsstring) : M A := λ s, (Thrown error, s).
Definition bind {A B} (m : M A) (k : A → M B) : M B :=
  λ s, match m s with
       | (Returned a, s') => k a s'
       | (Thrown error, s') => (Thrown error, s')
       end.
Definition tryCatch {A} (m : M A) (handler : jsstring → M A) : M A :=
  λ s, match m s with
       | (Returned a, s') => (Returned a, s')
       | (Thrown error, s') => handler error s'
       end.

Global Instance M_bind : MBind M := λ A B k m, bind m k.
Global Instance M_ret : MRet M := λ A a, ret a.

Definition emit (e : event) : M unit :=
  λ s, (Returned (), State (disk s) (trace s ++ [e])).
Definition getDisk : M Fs.disk := λ s, (Returned (disk s), s).
Definition setDisk (d : Fs.disk) : M unit :=
  λ s, (Returned (), State d (trace s)).
Definition when (b : bool) (m : M unit) : M unit := if b then m else ret ().

(** A value that the environment may refuse to give. *)
Definition orThrow {A} (x : option A) (error : jsstring) : M A :=
  match x with Some a => ret a | None => throw error end.

Definition pathExists (p : jsstring) : M bool :=
  d ← getDisk; ret (Fs.pathExists d p).
Definition readFile (p : jsstring) : M jsstring :=
  d ← getDisk; orThrow (Fs.readFile d p) (str "ENOENT: " ++ p).
Definition writeFile (p content : jsstring) : M unit :=
  emit (WriteFile p content);;
  d ← getDisk;
  d' ← orThrow (Fs.writeFile d p content) (str "ENOENT: " ++ p);
  setDisk d'.
Definition remove (p : jsstring) : M unit :=
  emit (Remove p);;
  d ← getDisk; setDisk (Fs.remove d p).
Definition exec (w : World) (command dir : jsstring) : M unit :=
  emit (Exec command dir);;
  if execSync w command dir then ret ()
  else throw (str "Command failed: " ++ command).

(** The symbols that open some messages, by their code units. *)
Definition crossMark : jsstring := [10060%N].
Definition checkMark : jsstring := [9989%N].
Definition warningSign : jsstring := [9888%N; 65039%N].
Definition packageSign : jsstring := [55357%N; 56550%N].
Definition rocketSign : jsstring := [55357%N; 56960%N].
Definition bulbSign : jsstring := [55357%N; 56481%N].
Definition folderSign : jsstring := [55357%N; 56513%N].

(** ** The steps of the generator *)

Definition isUrl (repoNameOrUrl : jsstring) : bool :=
  JS.startsWith (str "http://") repoNameOrUrl
  || JS.startsWith (str "https://") repoNameOrUrl.

(** The repository name of a URL: its last segment without [.git];
    [None] when the last segment is empty. *)
Definition repoNameOfUrl (url : jsstring) : option jsstring :=
  let lastPart := default [] (last (JS.split (str "/") url)) in
  if JS.truthy lastPart
  then Some (JS.replaceStr (str ".git") [] lastPart) else None.

Definition invalidUrl (repoNameOrUrl : jsstring) : jsstring :=
  str "Invalid URL format: " ++ repoNameOrUrl.

Definition GITHUB_ORG : jsstring := str "elizaos-plugins".
Definition MAIN_BRANCH : jsstring := str "main".

Definition README_TEMPLATE_PATH (w : World) : jsstring :=
  Path.join [cwd w; str "assets/readme-template.md"].

Definition cloneRepository (w : World) (repoNameOrUrl : jsstring)
    : M jsstring :=
  '(repoName, cloneUrl) ←
     (if isUrl repoNameOrUrl then
        repoName ← orThrow (repoNameOfUrl repoNameOrUrl)
                      (invalidUrl repoNameOrUrl);
        ret (repoName,
             if JS.endsWith (str ".git") repoNameOrUrl then repoNameOrUrl
             else repoNameOrUrl ++ str ".git")
      else
        ret (repoNameOrUrl,
             str "https://github.com/" ++ GITHUB_ORG ++ str "/"
             ++ repoNameOrUrl ++ str ".git"));
  let tempDir := Path.join [cwd w; str "temp"; repoName] in
  remove tempDir;;
  emit (Exec (str "git clone " ++ cloneUrl ++ str " " ++ tempDir) []);;
  content ← orThrow (gitClone w cloneUrl)
               (str "Command failed: git clone " ++ cloneUrl);
  d ← getDisk;
  setDisk (Fs.graft (Path.segments tempDir) content d);;
  ret tempDir.

Definition getPluginPath (w : World) (repoNameOrUrl : jsstring) : M jsstring :=
  if LOCAL_MODE w then
    repoName ←
      (if isUrl repoNameOrUrl
       then orThrow (repoNameOfUrl repoNameOrUrl) (invalidUrl repoNameOrUrl)
       else ret repoNameOrUrl);
    let localPath := Path.join [cwd w; str ".."; repoName] in
    exists_ ← pathExists localPath;
    if exists_ : bool then ret localPath
    else throw (str "Local plugin " ++ repoName ++ str " not found at "
                ++ localPath)
  else cloneRepository w repoNameOrUrl.

Definition generateReadmeFromTemplate (w : World) (pluginInfo : PluginInfo.t)
    (templatePath : jsstring) : M jsstring :=
  template ← readFile templatePath;
  ret (fillTemplate (toLowerCase w) template pluginInfo).

Definition INSUFFICIENT : jsstring :=
  str "OpenAI returned insufficient content".

Definition importantSections : list jsstring :=
  [str "Future Enhancements"; str "Credits"; str "Security Best Practices";
   str "Development Guide"].

(** The advisory checks of an accepted answer against the existing README:
    warnings only. *)
Definition validateAgainst (existingReadme readme : jsstring) : M unit :=
  when (JS.truthy existingReadme
        && (0 <? length (JS.trim existingReadme)))
    (let existingLength := length (JS.trim existingReadme) in
     let newLength := length (JS.trim readme) in
     when (5 * newLength <? 4 * existingLength)
       (emit (ConsoleWarn
                (nl ++ warningSign ++ str "  Warning: New README ("
                 ++ JS.ofNat newLength
                 ++ str " chars) is significantly shorter than existing ("
                 ++ JS.ofNat existingLength ++ str " chars)"));;
        emit (ConsoleWarn
                (str "This might indicate lost content. Please review carefully."
                 ++ nl)));;
     let missingSections :=
       filter (λ section,
                 JS.includes (str "## " ++ section) existingReadme = true
                 ∧ JS.includes (str "## " ++ section) readme = false)
              importantSections in
     when (0 <? length missingSections)
       (emit (ConsoleWarn
                (nl ++ warningSign
                 ++ str "  CRITICAL: The following sections were removed from the README:"));;
        foldr (λ section rest,
                 emit (ConsoleWarn (str "   - " ++ section));; rest)
              (ret ()) missingSections;;
        emit (ConsoleWarn
                (nl ++ str "This indicates the AI did not follow preservation instructions. Consider regenerating."
                 ++ nl)))).

Definition generateReadmeWithAI (w : World) (pluginInfo : PluginInfo.t)
    (templatePath existingReadme : jsstring) : M jsstring :=
  tryCatch
    (template ← readFile templatePath;
     match chatCompletion w pluginInfo template existingReadme with
     | Rejected error => throw error
     | Answer content =>
         let readme := default [] content in
         if negb (JS.truthy readme) || (length (JS.trim readme) <? 500)
         then throw INSUFFICIENT
         else
           validateAgainst existingReadme readme;;
           emit (ConsoleLog
                   (nl ++ str "=== GENERATED README PREVIEW (first 500 chars) ==="));;
           emit (ConsoleLog (take 500 readme ++ str "..."));;
           emit (ConsoleLog (str "=== END PREVIEW ===" ++ nl));;
           ret (JS.trim readme)
     end)
    (λ error,
       emit (ConsoleError (str "OpenAI error:") error);;
       generateReadmeFromTemplate w pluginInfo templatePath).

Definition generateReadme (w : World) (pluginInfo : PluginInfo.t)
    (templatePath existingReadme : jsstring) : M jsstring :=
  tryCatch
    (fromAI ←
       (if JS.truthy (default [] (OPENAI_API_KEY w)) && negb (NO_AI w) then
          tryCatch
            (readme ← generateReadmeWithAI w pluginInfo templatePath
                         existingReadme;
             ret (Some readme))
            (λ error,
               emit (ConsoleError (str "AI error:") error);; ret None)
        else ret None);
     match fromAI with
     | Some readme => ret readme
     | None => generateReadmeFromTemplate w pluginInfo templatePath
     end)
    (λ error, throw error).

Definition CRITICAL : jsstring :=
  str "CRITICAL: Attempted to overwrite plugins-automation README!".

(** Where the local mode writes the README of [repoName]. *)
Definition localPluginPath (w : World) (repoName : jsstring) : jsstring :=
  let currentDir := cwd w in
  let isInPluginsAutomation :=
    JS.endsWith (str "plugins-automation") currentDir in
  if isInPluginsAutomation
  then Path.join [currentDir; str ".."; repoName]
  else Path.join [currentDir; repoName].

Definition localReadmePath (w : World) (repoName : jsstring) : jsstring :=
  Path.join [localPluginPath w repoName; str "README.md"].

Definition createPullRequest (w : World) (repoName readme : jsstring)
    : M unit :=
  if LOCAL_MODE w then
    let pluginPath := localPluginPath w repoName in
    let readmePath := localReadmePath w repoName in
    exists_ ← pathExists pluginPath;
    if negb exists_ then
      throw (str "Plugin directory not found: " ++ pluginPath)
    else if JS.includes (str "plugins-automation/README.md") readmePath then
      throw CRITICAL
    else
      emit (ConsoleLog (str "Writing README to " ++ readmePath));;
      writeFile readmePath readme;;
      emit (ConsoleLog (checkMark ++ str " README written successfully"))
  else if negb (JS.truthy (default [] (GITHUB_TOKEN w))) then
    throw (str "GitHub token required for creating pull requests")
  else
    tryCatch
      (let branchName := str "update-readme-" ++ now w in
       let repoPath := Path.join [cwd w; str "temp"; repoName] in
       exec w (str "git checkout -b " ++ branchName) repoPath;;
       writeFile (Path.join [repoPath; str "README.md"]) readme;;
       exec w (str "git add README.md") repoPath;;
       exec w (str "git commit -m " ++ [dquote]
               ++ str "docs: update README with comprehensive documentation"
               ++ [dquote]) repoPath;;
       exec w (str "git push origin " ++ branchName) repoPath;;
       emit (PullsCreate repoName branchName);;
       number ← orThrow (pullsCreate w repoName branchName)
                   (str "HttpError");
       ret ())
      (λ error, throw error).

Definition failedToProcess (repoName : jsstring) : jsstring :=
  crossMark ++ str " Failed to process " ++ repoName ++ str ":".

Definition processing (repoNameOrUrl : jsstring) : jsstring :=
  nl ++ packageSign ++ str " Processing " ++ repoNameOrUrl ++ str "...".

(** The [catch] block of [processPlugin]; [repoPath] is the variable of
    that name, [None] while it is still [null]. *)
Definition onFailure (w : World) (repoName : jsstring)
    (repoPath : option jsstring) (error : jsstring) : M unit :=
  emit (ConsoleError (failedToProcess repoName) error);;
  when (negb (LOCAL_MODE w) && JS.truthy (default [] repoPath))
       (remove (default [] repoPath)).

(** [processPlugin], over the step that persists the README. *)
Definition processPluginWith (persist : jsstring → jsstring → M unit)
    (w : World) (repoNameOrUrl : jsstring) : M unit :=
  emit (ConsoleLog (processing repoNameOrUrl));;
  repoName ←
    (if isUrl repoNameOrUrl
     then orThrow (repoNameOfUrl repoNameOrUrl) (invalidUrl repoNameOrUrl)
     else ret repoNameOrUrl);
  (* try: up to the assignment of repoPath *)
  started ←
    tryCatch (repoPath ← getPluginPath w repoNameOrUrl; ret (Some repoPath))
             (λ error, onFailure w repoName None error;; ret None);
  match started with
  | None => ret ()
  | Some repoPath =>
      (* try: the rest of the block *)
      tryCatch
        (d ← getDisk;
         pluginInfo ← orThrow (extractPluginInfo (parse w) d repoPath)
                         (str "Failed to extract plugin information");
         let readmePath := Path.join [repoPath; str "README.md"] in
         exists_ ← pathExists readmePath;
         existingReadme ←
           (if exists_ : bool then readFile readmePath else ret []);
         readme ← generateReadme w pluginInfo (README_TEMPLATE_PATH w)
                     existingReadme;
         if negb (JS.truthy readme) || (length (JS.trim readme) =? 0)
         then throw (str "Generated README is empty")
         else
           persist repoName readme;;
           when (negb (LOCAL_MODE w) && JS.truthy repoPath)
                (remove repoPath);;
           emit (ConsoleLog
                   (checkMark ++ str " Successfully processed " ++ repoName)))
        (onFailure w repoName (Some repoPath))
  end.

Definition processPlugin (w : World) (repoNameOrUrl : jsstring) : M unit :=
  processPluginWith (createPullRequest w) w repoNameOrUrl.

(** ** main *)

Definition getLocalPlugins (w : World) : M (list (jsstring * jsstring)) :=
  let rootDir := Path.join [cwd w; str ".."] in
  d ← getDisk;
  items ← orThrow (Fs.readdir d rootDir) (str "ENOENT: " ++ rootDir);
  ret (omap (λ entry : node,
               match entry with
               | Dir item _ =>
                   if JS.startsWith (str "plugin-") item
                   then Some (item, Path.join [rootDir; item]) else None
               | File _ _ => None
               end) items).

Definition getPluginRepositories (w : World) : M (list jsstring) :=
  if LOCAL_MODE w then
    localPlugins ← getLocalPlugins w;
    emit (ConsoleLog (str "Found " ++ JS.ofNat (length localPlugins)
                      ++ str " local plugins"));;
    ret (fst <$> localPlugins)
  else if TEST_MODE w && JS.truthy (default [] (TEST_REPO w)) then
    ret [default [] (TEST_REPO w)]
  else if negb (JS.truthy (default [] (GITHUB_TOKEN w))) then
    throw (str "GitHub token required for remote repository operations")
  else
    repos ← orThrow (listForOrg w) (str "HttpError");
    ret (filter (λ name, JS.startsWith (str "plugin-") name = true) repos).

Fixpoint forEach {A} (body : A → M unit) (items : list A) : M unit :=
  match items with
  | [] => ret ()
  | item :: rest => body item;; forEach body rest
  end.

(** How the script ends: it runs to its end, or [process.exit(code)]. *)
Inductive ending : Type :=
| Done
| Exit (code : nat).

(** [fs.ensureDir(p)]: it throws when a regular file stands where a
    directory is needed. *)
Definition ensureDir (p : jsstring) : M unit :=
  d ← getDisk;
  match Fs.mkdirp (Path.segments p) d with
  | inr d' => setDisk d'
  | inl code => throw (code ++ str ": " ++ p)
  end.

Definition scriptFailed : jsstring := crossMark ++ str " Script failed:".

Definition main (w : World) : M ending :=
  emit (ConsoleLog (rocketSign ++ str " ElizaOS Plugin README Generator"));;
  emit (ConsoleLog
          (str "This script will generate comprehensive READMEs for all plugins"
           ++ nl));;
  if negb (LOCAL_MODE w) && negb (JS.truthy (default [] (GITHUB_TOKEN w)))
  then
    emit (ConsoleError
            (crossMark
             ++ str " GITHUB_TOKEN environment variable is required for remote operations")
            []);;
    emit (ConsoleLog
            (bulbSign
             ++ str " Tip: Use --local flag to process local plugins without GitHub token"));;
    ret (Exit 1)
  else
    tryCatch
      (ensureDir (Path.join [cwd w; str "temp"]);;
       templateExists ← pathExists (README_TEMPLATE_PATH w);
       if negb templateExists then
         emit (ConsoleError (crossMark ++ str " README template not found at "
                             ++ README_TEMPLATE_PATH w) []);;
         ret (Exit 1)
       else
         repositories ← getPluginRepositories w;
         when (TEST_MODE w)
           (emit (ConsoleLog
                    (nl ++ warningSign
                     ++ str "  Running in TEST MODE - Processing only: "
                     ++ JS.join (str ", ") (take 1 repositories) ++ nl)));;
         when (LOCAL_MODE w)
           (emit (ConsoleLog
                    (nl ++ folderSign
                     ++ str " Running in LOCAL MODE - Processing local plugins"
                     ++ nl)));;
         let pluginsToProcess :=
           if TEST_MODE w then
             if JS.truthy (default [] (TEST_REPO w))
             then filter (λ r, r = default [] (TEST_REPO w)) repositories
             else take 1 repositories
           else repositories in
         if TEST_MODE w && JS.truthy (default [] (TEST_REPO w))
            && bool_decide (pluginsToProcess = [])
         then
           emit (ConsoleError (crossMark ++ str " Repository "
                               ++ default [] (TEST_REPO w)
                               ++ str " not found") []);;
           ret (Exit 1)
         else
           forEach (processPlugin w) pluginsToProcess;;
           remove (Path.join [cwd w; str "temp"]);;
           emit (ConsoleLog
                   (nl ++ checkMark ++ str " All plugins processed successfully!"));;
           ret Done)
      (λ error,
         emit (ConsoleError scriptFailed error);;
         ret (Exit 1)).

(** ** The template

    The text of [assets/readme-template.md], line by line; a code unit
    outside ASCII is given by its number. *)

Definition readmeTemplate : jsstring :=
  JS.join nl
    [
     str "<!-- ";
     str "IMPORTANT: This template shows MINIMUM required sections only!";
     str "You MUST ALSO KEEP these sections if they exist in the current README:";
     str "- Future Enhancements";
     str "- Credits  ";
     str "- Security Best Practices";
     str "- Development Guide";
     str "- Any other custom sections";
     [];
     str "DO NOT DELETE ANY EXISTING SECTIONS!";
     str "-->";
     [];
     str "# {{PLUGIN_NAME}}";
     [];
     str "{{PLUGIN_DESCRIPTION}}";
     [];
     str "## " ++ [55357; 56960]%N ++ str " Quick Start";
     [];
     str "### Installation";
     [];
     str "```bash";
     str "bun add {{PACKAGE_NAME}}";
     str "```";
     [];
     str "### Basic Usage";
     [];
     str "Add the plugin to your character configuration:";
     [];
     str "```typescript";
     str "const character = {";
     str "  // ... other character config";
     str "  plugins: [";
     str "    " ++ [dquote] ++ str "{{PACKAGE_NAME}}" ++ [dquote] ++ str ",";
     str "    // ... other plugins";
     str "  ],";
     str "};";
     str "```";
     [];
     str "## " ++ [55357; 56523]%N ++ str " Prerequisites";
     [];
     str "- [elizaOS](https://github.com/elizaos/eliza) v1.0.0 or higher";
     str "- Node.js 23+ and Bun";
     str "- Required API credentials (see Configuration)";
     [];
     str "## " ++ [55357; 56615]%N ++ str " Configuration";
     [];
     str "### Environment Variables";
     [];
     str "Create a `.env` file in your project root:";
     [];
     str "```bash";
     str "{{ENV_VARS}}";
     str "```";
     [];
     str "### Configuration Options";
     [];
     str "The plugin accepts the following configuration options:";
     [];
     str "```typescript";
     str "// Example configuration";
     str "const config = {";
     str "  // Add specific configuration options here";
     str "};";
     str "```";
     [];
     str "## " ++ [10024]%N ++ str " Features";
     [];
     str "### Core Features";
     [];
     str "- **Feature 1**: Description of the main feature";
     str "- **Feature 2**: Description of another feature";
     str "- **Feature 3**: Description of another feature";
     [];
     str "### Actions";
     [];
     str "{{ACTIONS_DETAILED}}";
     [];
     str "### Services";
     [];
     str "{{SERVICES_DETAILED}}";
     [];
     str "### Providers";
     [];
     str "{{PROVIDERS_DETAILED}}";
     [];
     str "## " ++ [55357; 56534]%N ++ str " Usage Examples";
     [];
     str "### Basic Example";
     [];
     str "```typescript";
     str "// Example of using the plugin";
     str "const runtime = new AgentRuntime({";
     str "  // ... runtime config";
     str "  plugins: [" ++ [dquote] ++ str "{{PACKAGE_NAME}}" ++ [dquote] ++ str "],";
     str "});";
     str "```";
     [];
     str "### Advanced Usage";
     [];
     str "```typescript";
     str "// More complex usage examples";
     str "// Show how to use specific actions or services";
     str "```";
     [];
     str "## " ++ [55357; 57056]%N ++ [65039]%N ++ str " Development";
     [];
     str "### Building";
     [];
     str "```bash";
     str "# Install dependencies";
     str "bun install";
     [];
     str "# Build the plugin";
     str "bun run build";
     [];
     str "# Run tests";
     str "bun test";
     str "```";
     [];
     str "### Testing";
     [];
     str "```bash";
     str "# Run unit tests";
     str "bun test";
     [];
     str "# Run integration tests";
     str "bun test:integration";
     [];
     str "# Run with coverage";
     str "bun test:coverage";
     str "```";
     [];
     str "### Local Development";
     [];
     str "1. Clone the repository:";
     str "```bash";
     str "git clone {{REPOSITORY_URL}}";
     str "cd {{PLUGIN_NAME}}";
     str "```";
     [];
     str "2. Install dependencies:";
     str "```bash";
     str "bun install";
     str "```";
     [];
     str "3. Build the plugin:";
     str "```bash";
     str "bun run build";
     str "```";
     [];
     str "4. Link for local development:";
     str "```bash";
     str "bun link";
     str "```";
     [];
     str "## " ++ [55358; 56605]%N ++ str " Contributing";
     [];
     str "Contributions are welcome! Please see our [Contributing Guidelines](CONTRIBUTING.md) for details.";
     [];
     str "### Development Workflow";
     [];
     str "1. Fork the repository";
     str "2. Create your feature branch (`git checkout -b feature/amazing-feature`)";
     str "3. Commit your changes (`git commit -m 'Add some amazing feature'`)";
     str "4. Push to the branch (`git push origin feature/amazing-feature`)";
     str "5. Open a Pull Request";
     [];
     str "## " ++ [55357; 56347]%N ++ str " Troubleshooting";
     [];
     str "### Common Issues";
     [];
     str "#### Issue: Plugin not loading";
     str "**Solution**: Ensure the plugin is properly added to your character's `plugins` array and all required environment variables are set.";
     [];
     str "#### Issue: API authentication errors";
     str "**Solution**: Verify your API credentials are correct and have the necessary permissions.";
     [];
     str "#### Issue: Rate limiting";
     str "**Solution**: The plugin includes built-in rate limiting. If you're hitting limits, consider adjusting the request frequency in your configuration.";
     [];
     str "## " ++ [55357; 56538]%N ++ str " API Reference";
     [];
     str "### Actions";
     [];
     str "Detailed documentation for each action:";
     [];
     str "#### Action Name";
     str "```typescript";
     str "// Action signature";
     str "interface ActionOptions {";
     str "  // options";
     str "}";
     str "```";
     [];
     str "### Services";
     [];
     str "Detailed documentation for each service:";
     [];
     str "#### Service Name";
     str "```typescript";
     str "// Service interface";
     str "interface ServiceInterface {";
     str "  // methods";
     str "}";
     str "```";
     [];
     str "## " ++ [55357; 56594]%N ++ str " Security";
     [];
     str "- Store all sensitive credentials in environment variables";
     str "- Never commit `.env` files to version control";
     str "- Regularly rotate API keys and tokens";
     str "- Follow the principle of least privilege for API permissions";
     [];
     str "## " ++ [55357; 56516]%N ++ str " License";
     [];
     str "This plugin is part of the elizaOS project. See the [LICENSE](LICENSE) file for details.";
     [];
     str "## " ++ [55356; 56728]%N ++ str " Support";
     [];
     str "- " ++ [55357; 56551]%N ++ str " Email: support@elizaos.ai";
     str "- " ++ [55357; 56492]%N ++ str " Discord: [elizaOS Discord](https://discord.gg/elizaos)";
     str "- " ++ [55357; 56538]%N ++ str " Documentation: [elizaOS Docs](https://eliza.how)";
     str "- " ++ [55357; 56347]%N ++ str " Issues: [GitHub Issues]({{REPOSITORY_URL}}/issues)";
     [];
     str "## " ++ [55357; 56911]%N ++ str " Acknowledgments";
     [];
     str "Special thanks to the elizaOS team and all contributors to this plugin.";
     [];
     str "---";
     [];
     str "Made with " ++ [10084]%N ++ [65039]%N ++ str " by the elizaOS community "].

(** ** npmDownloadStats.ts: the packages, the counts and the report

    The rest of [NpmDownloadStatsGenerator], over the records of [Npm].
    What the functions print on the console and the delays between the
    requests are not part of their results and are left out; a thrown
    error is [None]. *)

Module NpmReport.

(** [PackageInfo] with its optional fields, which only the report
    reads.  A maintainer whose [username] is missing is [None]. *)
Record Package : Type := {
  info : Npm.PackageInfo;
  description : option jsstring;
  repository : option jsstring;
  maintainers : option (list (option jsstring));
  keywords : option (list jsstring);
  license : option jsstring;
  createdDate : option jsstring;
  modifiedDate : option jsstring
}.

Definition name (pkg : Package) : jsstring := Npm.name (info pkg).
Definition versions (pkg : Package) : list jsstring :=
  Npm.versions (info pkg).

Module PackageDownloads.
Record t : Type := {
  packageName : jsstring;
  totalDownloads : Z;
  downloadsPeriod : jsstring;
  weeklyDownloads : Z;
  monthlyDownloads : Z;
  yearlyDownloads : Z
}.
End PackageDownloads.
Import PackageDownloads.

(** [pkg.package] of a hit of the registry search: the fields that are
    read, [repository] being [links?.repository]. *)
Record Hit : Type := {
  hitName : option jsstring;
  hitDescription : option jsstring;
  hitRepository : option jsstring;
  hitMaintainers : option (list (option jsstring));
  hitKeywords : option (list jsstring);
  hitLicense : option jsstring
}.

(** The answer to a search: the request fails, or its body has
    [objects] or not; an object without [package] is [None]. *)
Inductive searchResponse : Type :=
| SearchFailed
| SearchBody (objects : option (list (option Hit))).

(** The answer to the request for the document of a package: the keys
    of [versions], when it has that field, and [time?.created],
    [time?.modified]. *)
Inductive detailResponse : Type :=
| DetailFailed
| DetailBody (versionKeys : option (list jsstring))
             (created modified : option jsstring).

(** A cell of a sheet: a number, a text, or what a division by zero
    leaves. *)
Inductive cell : Type :=
| Num (n : Z)
| Text (s : jsstring)
| NotANumber
| Infinite (negative : bool).

Definition row : Type := list (jsstring * cell).
Definition sheet : Type := list row.
Definition workbook : Type := list (jsstring * sheet).

(** What the generator meets outside: the registry, the collation of
    [localeCompare], the clock, and whether the output directory can be
    made and the workbook written. *)
Record Env : Type := {
  search : jsstring → searchResponse;
  detail : jsstring → detailResponse;
  downloadsApi : Npm.registry;
  localeCompare : jsstring → jsstring → Z;
  nowISO : jsstring;
  ensureDir : jsstring → bool;
  writeFile : jsstring → workbook → bool
}.

Definition OUTPUT_DIR : jsstring := str "./assets".
Definition OUTPUT_FILE : jsstring := str "elizaos-npm-download-stats.xlsx".

(** [a.sort(compare)]: the sort is stable, and for a consistent
    comparison the order of the result is fixed by it; elements are
    inserted from the last to the first, each before the first element
    that it does not follow. *)
Fixpoint insertBy {A} (compare : A → A → Z) (x : A) (l : list A) : list A :=
  match l with
  | [] => [x]
  | y :: rest =>
      if (compare x y <=? 0)%Z then x :: l
      else y :: insertBy compare x rest
  end.

Definition sortBy {A} (compare : A → A → Z) (l : list A) : list A :=
  foldr (insertBy compare) [] l.

(** [a.findIndex(p)], [None] for -1, and [a.find(p)] *)
Definition findIndex {A} (P : A → Prop) `{∀ x, Decision (P x)}
    (l : list A) : option nat :=
  fst <$> list_find P l.

Definition find {A} (P : A → Prop) `{∀ x, Decision (P x)}
    (l : list A) : option A :=
  snd <$> list_find P l.

(** The body of the inner loop of [fetchOrganizationPackages]: what one
    object of a search result adds to [packages]. *)
Definition addHit (env : Env) (searchTerm : jsstring)
    (packages : list Package) (object : option Hit)
    : option (list Package) :=
  packageInfo ← object;
  match hitName packageInfo with
  | Some hname =>
      if JS.truthy hname && JS.startsWith (searchTerm ++ str "/") hname then
        match detail env hname with
        | DetailFailed => None
        | DetailBody versionKeys created modified =>
            Some (packages ++
                  [{| info := {| Npm.name := hname;
                                 Npm.versions := default [] versionKeys |};
                      description := hitDescription packageInfo;
                      repository := hitRepository packageInfo;
                      maintainers := hitMaintainers packageInfo;
                      keywords := hitKeywords packageInfo;
                      license := hitLicense packageInfo;
                      createdDate := created;
                      modifiedDate := modified |}])
        end
      else Some packages
  | None => Some packages
  end.

(** The body of the outer loop: one search and its objects. *)
Definition addSearch (env : Env) (packages : list Package)
    (searchTerm : jsstring) : option (list Package) :=
  match search env searchTerm with
  | SearchFailed => None
  | SearchBody objects =>
      foldl (λ acc object, packages ← acc; addHit env searchTerm packages object)
            (Some packages) (default [] objects)
  end.

Definition searchTerms : list jsstring :=
  [str "@elizaos"; str "@elizaos-plugins"].

(** [packages.filter((pkg, index, self) =>
       index === self.findIndex(p => p.name === pkg.name))] *)
Definition uniquePackages (packages : list Package) : list Package :=
  omap (λ '(index, pkg),
          if bool_decide (findIndex (λ p, name p = name pkg) packages
                          = Some index)
          then Some pkg else None)
       (imap pair packages).

Definition fetchOrganizationPackages (env : Env) : option (list Package) :=
  packages ← foldl (λ acc searchTerm,
                      packages ← acc; addSearch env packages searchTerm)
                   (Some []) searchTerms;
  Some (sortBy (λ a b, localeCompare env (name a) (name b))
               (uniquePackages packages)).

(** One turn of the loop of [fetchPackageDownloads]: the three requests
    are awaited together, and the failure of one of them gives the
    record of zeros. *)
Definition packageRecord (api : Npm.registry) (pkg : Package)
    : PackageDownloads.t :=
  match Npm.getDownloadStats api (name pkg) (str "last-week"),
        Npm.getDownloadStats api (name pkg) (str "last-month"),
        Npm.getDownloadStats api (name pkg) (str "last-year") with
  | Some weeklyData, Some monthlyData, Some yearlyData =>
      {| packageName := name pkg;
         totalDownloads := yearlyData;
         downloadsPeriod := str "last-year";
         weeklyDownloads := weeklyData;
         monthlyDownloads := monthlyData;
         yearlyDownloads := yearlyData |}
  | _, _, _ =>
      {| packageName := name pkg;
         totalDownloads := 0;
         downloadsPeriod := str "last-year";
         weeklyDownloads := 0;
         monthlyDownloads := 0;
         yearlyDownloads := 0 |}
  end.

Definition fetchPackageDownloads (api : Npm.registry)
    (packages : list Package) : list PackageDownloads.t :=
  map (packageRecord api) packages.

(** [reduce((sum, d) => sum + f(d), 0)] *)
Definition sumOf {A} (f : A → Z) (l : list A) : Z :=
  foldl (λ sum d, (sum + f d)%Z) 0%Z l.

(** [packageDownloads.length > 0
       ? packageDownloads.reduce((max, d) =>
           d.yearlyDownloads > max.yearlyDownloads ? d : max)
       : null] *)
Definition topPackage (packageDownloads : list PackageDownloads.t)
    : option PackageDownloads.t :=
  match packageDownloads with
  | [] => None
  | first :: rest =>
      Some (foldl (λ max d,
                     if (yearlyDownloads d >? yearlyDownloads max)%Z
                     then d else max)
                  first rest)
  end.

(** [Math.round(totalDownloads / totalPackages)]: the quotient by zero
    is NaN for a total of zero and an infinity otherwise. *)
Definition averageDownloads (totalDownloads : Z) (totalPackages : nat)
    : cell :=
  match totalPackages with
  | O => if (totalDownloads =? 0)%Z then NotANumber
         else Infinite (totalDownloads <? 0)%Z
  | _ => Num (Npm.Math_round (inject_Z totalDownloads
                              / inject_Z (Z.of_nat totalPackages)))
  end.

(** [s || ''] for an optional string, [n || 0] for an optional
    number. *)
Definition orEmpty (s : option jsstring) : jsstring := default [] s.
Definition orZero (n : option Z) : Z := default 0%Z n.

(** [a.join(', ')]: a missing element is joined as the empty string. *)
Definition joinComma (a : list (option jsstring)) : jsstring :=
  JS.join (str ", ") (orEmpty <$> a).

Definition overviewRow (packageDownloads : list PackageDownloads.t)
    (pkg : Package) : row :=
  let downloads := find (λ d, packageName d = name pkg) packageDownloads in
  [(str "Package Name", Text (name pkg));
   (str "Description", Text (orEmpty (description pkg)));
   (str "Total Versions", Num (Z.of_nat (length (versions pkg))));
   (str "Latest Version", Text (orEmpty (last (versions pkg))));
   (str "Weekly Downloads", Num (orZero (weeklyDownloads <$> downloads)));
   (str "Monthly Downloads", Num (orZero (monthlyDownloads <$> downloads)));
   (str "Yearly Downloads", Num (orZero (yearlyDownloads <$> downloads)));
   (str "Repository", Text (orEmpty (repository pkg)));
   (str "License", Text (orEmpty (license pkg)));
   (str "Created Date", Text (orEmpty (createdDate pkg)));
   (str "Modified Date", Text (orEmpty (modifiedDate pkg)));
   (str "Keywords", Text (joinComma (Some <$> default [] (keywords pkg))));
   (str "Maintainers", Text (joinComma (default [] (maintainers pkg))))].

Definition downloadsRow (d : PackageDownloads.t) : row :=
  [(str "Package Name", Text (packageName d));
   (str "Weekly Downloads", Num (weeklyDownloads d));
   (str "Monthly Downloads", Num (monthlyDownloads d));
   (str "Yearly Downloads", Num (yearlyDownloads d));
   (str "Total Downloads", Num (totalDownloads d))].

Definition versionRow (v : Npm.VersionDownloads) : row :=
  [(str "Package Name", Text (Npm.packageName v));
   (str "Version", Text (Npm.version v));
   (str "Estimated Monthly Downloads", Num (Npm.downloads v));
   (str "Period", Text (Npm.downloadsPeriod v))].

Definition summaryRow (metric : jsstring) (value : cell) : row :=
  [(str "Metric", Text metric); (str "Value", value)].

Definition summaryData (now : jsstring) (packages : list Package)
    (packageDownloads : list PackageDownloads.t) : sheet :=
  let totalPackages := length packages in
  let totalDownloads := sumOf yearlyDownloads packageDownloads in
  let totalWeeklyDownloads := sumOf weeklyDownloads packageDownloads in
  let totalMonthlyDownloads := sumOf monthlyDownloads packageDownloads in
  let topPackage := topPackage packageDownloads in
  [summaryRow (str "Total Packages") (Num (Z.of_nat totalPackages));
   summaryRow (str "Total Yearly Downloads") (Num totalDownloads);
   summaryRow (str "Total Monthly Downloads") (Num totalMonthlyDownloads);
   summaryRow (str "Total Weekly Downloads") (Num totalWeeklyDownloads);
   summaryRow (str "Average Downloads per Package (Yearly)")
              (averageDownloads totalDownloads totalPackages);
   summaryRow (str "Most Downloaded Package")
              (Text (JS.or_else (orEmpty (packageName <$> topPackage))
                                (str "N/A")));
   summaryRow (str "Most Downloaded Package Downloads")
              (Num (orZero (yearlyDownloads <$> topPackage)));
   summaryRow (str "Report Generated") (Text now)].

(** The workbook that [generateExcelReport] builds, sheet by sheet. *)
Definition buildWorkbook (now : jsstring) (packages : list Package)
    (packageDownloads : list PackageDownloads.t)
    (versionDownloads : list Npm.VersionDownloads) : workbook :=
  [(str "Package Overview", overviewRow packageDownloads <$> packages);
   (str "Package Downloads", downloadsRow <$> packageDownloads);
   (str "Version Downloads", versionRow <$> versionDownloads);
   (str "Summary", summaryData now packages packageDownloads)].

(** [generateExcelReport]: the path and the workbook written. *)
Definition generateExcelReport (env : Env) (packages : list Package)
    (packageDownloads : list PackageDownloads.t)
    (versionDownloads : list Npm.VersionDownloads)
    : option (jsstring * workbook) :=
  let workbook :=
    buildWorkbook (nowISO env) packages packageDownloads versionDownloads in
  let outputPath := Path.join [OUTPUT_DIR; OUTPUT_FILE] in
  if writeFile env outputPath workbook then Some (outputPath, workbook)
  else None.

(** The figures that [printSummary] prints. *)
Record Summary : Type := {
  totalPackages : nat;
  totalYearly : Z;
  totalWeekly : Z;
  average : cell;
  topPackages : list PackageDownloads.t
}.

Definition printSummary (packages : list Package)
    (packageDownloads : list PackageDownloads.t) : Summary :=
  let totalDownloads := sumOf yearlyDownloads packageDownloads in
  let totalWeeklyDownloads := sumOf weeklyDownloads packageDownloads in
  let topPackages :=
    take 5 (sortBy (λ a b, (yearlyDownloads b - yearlyDownloads a)%Z)
                   packageDownloads) in
  {| totalPackages := length packages;
     totalYearly := totalDownloads;
     totalWeekly := totalWeeklyDownloads;
     average := averageDownloads totalDownloads (length packages);
     topPackages := topPackages |}.

(** How a run of [main] ends: with [process.exit(1)], with the notice
    that no package was found, or with the report written and the
    summary printed. *)
Inductive ending : Type :=
| Exit1
| NoPackages
| Completed (outputPath : jsstring) (report : workbook) (summary : Summary).

Definition main (env : Env) : ending :=
  if ensureDir env OUTPUT_DIR then
    match fetchOrganizationPackages env with
    | Some packages =>
        match packages with
        | [] => NoPackages
        | _ =>
            let packageDownloads :=
              fetchPackageDownloads (downloadsApi env) packages in
            let versionDownloads :=
              Npm.fetchVersionDownloads (downloadsApi env)
                                        (info <$> packages) in
            match generateExcelReport env packages packageDownloads
                                      versionDownloads with
            | Some (outputPath, report) =>
                Completed outputPath report
                          (printSummary packages packageDownloads)
            | None => Exit1
            end
        end
    | None => Exit1
    end
  else Exit1.

End NpmReport.

(** ** Sample inputs

    The concrete inputs at which the properties below are checked. *)

Module Sample.

Definition registry : Npm.registry :=
  λ period packageName,
    if bool_decide (packageName = str "@elizaos/plugin-x")
    then Npm.Body (Some 40%Z) else Npm.NotFound.

Definition package : Npm.PackageInfo :=
  {| Npm.name := str "@elizaos/plugin-x";
     Npm.versions := [str "1.0.0"; str "1.0.1"; str "1.0.2"] |}.

(** A checkout [/work/plugin-x] whose entry file reads [process.env.FOO]
    twice and a runtime setting once. *)
Definition indexSource : jsstring :=
  JS.join nl
    [str "const key = process.env.FOO;";
     str "const url = runtime.getSetting(" ++ [dquote] ++ str "BAR"
       ++ [dquote] ++ str ");";
     str "export const again = process.env.FOO || key;"].

Definition pluginDir : list node :=
  [File (str "package.json") (str "{}");
   Dir (str "src") [File (str "index.ts") indexSource]].

Definition automationDir : list node :=
  [File (str "README.md") (str "# plugins-automation");
   Dir (str "assets") [File (str "readme-template.md") readmeTemplate]].

Definition disk : Fs.disk :=
  [Dir (str "work")
     [Dir (str "plugin-x") pluginDir;
      Dir (str "plugins-automation") automationDir]].

Definition manifest : Manifest.t :=
  {| Manifest.name := Some (str "@elizaos-plugins/plugin-x");
     Manifest.description := Some (str "A sample plugin");
     Manifest.dependencies := [];
     Manifest.repositoryUrl := None |}.

Definition parseManifest : parser := λ _, Some manifest.

Definition repoPath : jsstring := str "/work/plugin-x".

(** A service class with a constructor, two public methods and an
    underscore-prefixed one. *)
Definition serviceSource : jsstring :=
  JS.join nl
    [str "export class FooService {";
     str "  constructor(private x: number) { }";
     str "  async start(a: string, b: number): Promise<void> {";
     str "  }";
     str "  _hidden() { }";
     str "  stop() { }";
     str "}"].

(** Three entry files.  The first is the example of the specification:
    an aliased import from [./actions] and the alias in the array of
    actions.  In the second an array of actions precedes the one that
    lists the alias; in the third another action, exported under the
    name [sendToken], is imported under an alias of its own. *)
Definition aliasIndex : jsstring :=
  JS.join nl
    [str "import { transferAction as sendToken } from './actions';";
     str "export default { name: 'wallet', actions: [sendToken] };"].



(** An entry file that lists one service in its array of services. *)
Definition servicesIndex : jsstring :=
  str "export default { name: 'wallet', services: [WalletService] };".

(** A plugin record as [extractPluginInfo] builds it before the
    extraction of the components. *)
Definition blankInfo : PluginInfo.t :=
  {| PluginInfo.name := str "@elizaos/plugin-x";
     PluginInfo.description := [];
     PluginInfo.packageName := str "@elizaos/plugin-x";
     PluginInfo.actions := [];
     PluginInfo.services := [];
     PluginInfo.providers := [];
     PluginInfo.events := [];
     PluginInfo.evaluators := [];
     PluginInfo.envVars := [];
     PluginInfo.dependencies := [];
     PluginInfo.repository := [];
     PluginInfo.hasTests := false |}.

(** The names under which the actions of an entry file are recorded, on
    the sample disk. *)
Definition actionNames (indexContent : jsstring) : list jsstring :=
  ComponentInfo.name
  <$> PluginInfo.actions
        (extractPluginComponents disk repoPath indexContent blankInfo).

(** Lower case for the letters of ASCII. *)
Definition lowerAscii (s : jsstring) : jsstring :=
  map (λ c, if ((65 <=? c) && (c <=? 90))%N then (c + 32)%N else c) s.

(** A run in local mode from [/work/plugins-automation], and a run in
    test mode on one repository given by [--repo=]; the hosted model
    refuses every call. *)
Definition world (local : bool) (testRepo : option jsstring) : World :=
  {| LOCAL_MODE := local;
     TEST_MODE := negb local;
     TEST_REPO := testRepo;
     NO_AI := false;
     GITHUB_TOKEN := Some (str "token");
     OPENAI_API_KEY := Some (str "key");
     cwd := str "/work/plugins-automation";
     toLowerCase := lowerAscii;
     parse := parseManifest;
     now := str "1700000000000";
     gitClone := λ _, Some pluginDir;
     execSync := λ _ _, true;
     listForOrg := Some [str "plugin-x"];
     pullsCreate := λ _ _, Some (str "1");
     chatCompletion := λ _ _ _, Rejected (str "429 Too Many Requests") |}.

Definition localWorld : World := world true None.

(** The same run with a hosted model that answers with a heading only. *)
Definition shortWorld : World :=
  {| LOCAL_MODE := true;
     TEST_MODE := false;
     TEST_REPO := None;
     NO_AI := false;
     GITHUB_TOKEN := None;
     OPENAI_API_KEY := Some (str "key");
     cwd := str "/work/plugins-automation";
     toLowerCase := lowerAscii;
     parse := parseManifest;
     now := str "1700000000000";
     gitClone := λ _, None;
     execSync := λ _ _, false;
     listForOrg := None;
     pullsCreate := λ _ _, None;
     chatCompletion := λ _ _ _, Answer (Some (str "# plugin-x")) |}.

(** A URL copied with its trailing slash. *)
Definition trailingSlashUrl : jsstring :=
  str "https://github.com/elizaos-plugins/plugin-x/".

Definition testWorld : World := world false (Some trailingSlashUrl).

Definition start : state := State disk [].


(** A plugin whose package name holds two dollar signs. *)
Definition dollarInfo : PluginInfo.t :=
  {| PluginInfo.name := str "@elizaos/plugin-$$";
     PluginInfo.description := str "A sample plugin";
     PluginInfo.packageName := str "@elizaos/plugin-$$";
     PluginInfo.actions := [];
     PluginInfo.services := [];
     PluginInfo.providers := [];
     PluginInfo.events := [];
     PluginInfo.evaluators := [];
     PluginInfo.envVars := [];
     PluginInfo.dependencies := [];
     PluginInfo.repository := str "https://github.com/elizaos-plugins/plugin-x";
     PluginInfo.hasTests := false |}.

(** The spec's example: a plugin named [@elizaos/plugin-x]. *)
Definition pluginX : PluginInfo.t :=
  {| PluginInfo.name := str "@elizaos/plugin-x";
     PluginInfo.description := str "A sample plugin";
     PluginInfo.packageName := str "@elizaos/plugin-x";
     PluginInfo.actions := [];
     PluginInfo.services := [];
     PluginInfo.providers := [];
     PluginInfo.events := [];
     PluginInfo.evaluators := [];
     PluginInfo.envVars := [str "BAR"; str "FOO"];
     PluginInfo.dependencies := [];
     PluginInfo.repository := str "https://github.com/elizaos-plugins/plugin-x";
     PluginInfo.hasTests := false |}.

(** A run in which the hosted model answers with a long document (the
    template itself). *)
Definition longWorld : World :=
  {| LOCAL_MODE := true;
     TEST_MODE := false;
     TEST_REPO := None;
     NO_AI := false;
     GITHUB_TOKEN := None;
     OPENAI_API_KEY := Some (str "key");
     cwd := str "/work/plugins-automation";
     toLowerCase := lowerAscii;
     parse := parseManifest;
     now := str "1700000000000";
     gitClone := λ _, None;
     execSync := λ _ _, false;
     listForOrg := None;
     pullsCreate := λ _ _, None;
     chatCompletion := λ _ template _, Answer (Some template) |}.

(** A run against the organisation, all repositories. *)
Definition remoteWorld : World :=
  {| LOCAL_MODE := false;
     TEST_MODE := false;
     TEST_REPO := None;
     NO_AI := true;
     GITHUB_TOKEN := Some (str "token");
     OPENAI_API_KEY := None;
     cwd := str "/work/plugins-automation";
     toLowerCase := lowerAscii;
     parse := parseManifest;
     now := str "1700000000000";
     gitClone := λ _, Some pluginDir;
     execSync := λ _ _, true;
     listForOrg := Some [str "plugin-x"; str "registry"];
     pullsCreate := λ _ _, Some (str "1");
     chatCompletion := λ _ _ _, Rejected (str "unreachable") |}.

(** A checkout of the automation repository without its template, and
    a run without a token. *)
Definition bareDisk : Fs.disk :=
  [Dir (str "work")
     [Dir (str "plugin-x") pluginDir;
      Dir (str "plugins-automation")
        [File (str "README.md") (str "# plugins-automation")]]].

Definition tokenlessWorld : World :=
  {| LOCAL_MODE := false;
     TEST_MODE := false;
     TEST_REPO := None;
     NO_AI := true;
     GITHUB_TOKEN := None;
     OPENAI_API_KEY := None;
     cwd := str "/work/plugins-automation";
     toLowerCase := lowerAscii;
     parse := parseManifest;
     now := str "1700000000000";
     gitClone := λ _, Some pluginDir;
     execSync := λ _ _, true;
     listForOrg := Some [str "plugin-x"];
     pullsCreate := λ _ _, Some (str "1");
     chatCompletion := λ _ _ _, Rejected (str "unreachable") |}.



(** A checkout in which [temp] is a regular file. *)
Definition blockedDisk : Fs.disk :=
  [Dir (str "work")
     [Dir (str "plugin-x") pluginDir;
      Dir (str "plugins-automation")
        (File (str "temp") [] :: automationDir)]].

(** The sample disk once [plugin-x] was cloned into [temp]. *)
Definition clonedDisk : Fs.disk :=
  Fs.graft (Path.segments (str "/work/plugins-automation/temp/plugin-x"))
           pluginDir disk.

(** A remote run in which the push is refused. *)
Definition refusedPushWorld : World :=
  {| LOCAL_MODE := false;
     TEST_MODE := false;
     TEST_REPO := None;
     NO_AI := true;
     GITHUB_TOKEN := Some (str "token");
     OPENAI_API_KEY := None;
     cwd := str "/work/plugins-automation";
     toLowerCase := lowerAscii;
     parse := parseManifest;
     now := str "1700000000000";
     gitClone := λ _, Some pluginDir;
     execSync := λ command _, negb (JS.startsWith (str "git push") command);
     listForOrg := Some [str "plugin-x"];
     pullsCreate := λ _ _, Some (str "1");
     chatCompletion := λ _ _ _, Rejected (str "unreachable") |}.

(** A registry that knows two packages of the scope [@elizaos], one of
    them listed twice, beside a package of another name; the weekly
    count of the second package cannot be fetched.  Strings are
    compared by their code units. *)
Definition hit (hname : jsstring) : option NpmReport.Hit :=
  Some {| NpmReport.hitName := Some hname;
          NpmReport.hitDescription := None;
          NpmReport.hitRepository := None;
          NpmReport.hitMaintainers := None;
          NpmReport.hitKeywords := None;
          NpmReport.hitLicense := None |}.

Fixpoint codeUnitCompare (a b : jsstring) : Z :=
  match a, b with
  | [], [] => 0
  | [], _ :: _ => -1
  | _ :: _, [] => 1
  | x :: a', y :: b' =>
      if (x <? y)%N then -1
      else if (y <? x)%N then 1
      else codeUnitCompare a' b'
  end.

Definition flakyRegistry : Npm.registry :=
  λ period packageName,
    if bool_decide (packageName = str "@elizaos/core") then
      if bool_decide (period = str "last-week") then Npm.Failure
      else Npm.Body (Some 100%Z)
    else registry period packageName.

Definition npmEnv : NpmReport.Env :=
  {| NpmReport.search := λ searchTerm,
       if bool_decide (searchTerm = str "@elizaos") then
         NpmReport.SearchBody
           (Some [hit (str "@elizaos/plugin-x"); hit (str "@elizaos/core");
                  hit (str "@elizaos/plugin-x"); hit (str "elizaos-tools")])
       else NpmReport.SearchBody None;
     NpmReport.detail := λ _,
       NpmReport.DetailBody (Some [str "1.0.0"; str "1.0.1"; str "1.0.2"])
                            None None;
     NpmReport.downloadsApi := flakyRegistry;
     NpmReport.localeCompare := codeUnitCompare;
     NpmReport.nowISO := str "2025-01-01T00:00:00.000Z";
     NpmReport.ensureDir := λ _, true;
     NpmReport.writeFile := λ _ _, true |}.

(** The same registry when the second search is refused. *)
Definition refusedEnv : NpmReport.Env :=
  {| NpmReport.search := λ searchTerm,
       if bool_decide (searchTerm = str "@elizaos") then
         NpmReport.search npmEnv searchTerm
       else NpmReport.SearchFailed;
     NpmReport.detail := NpmReport.detail npmEnv;
     NpmReport.downloadsApi := flakyRegistry;
     NpmReport.localeCompare := codeUnitCompare;
     NpmReport.nowISO := NpmReport.nowISO npmEnv;
     NpmReport.ensureDir := λ _, true;
     NpmReport.writeFile := λ _ _, true |}.

End Sample.

(** * Properties *)

(** ** Sanity checks of the string and pattern primitives *)

Example split_as :
  JS.split (str " as ") (str "transferAction as sendToken")
  = [str "transferAction"; str "sendToken"].
Proof. reflexivity. Qed.

Example trim_ex : JS.trim (str "  a b  ") = str "a b".
Proof. reflexivity. Qed.

Example replace_dollar :
  JS.replaceStr (str "x") (str "[$&$$]") (str "axb") = str "a[x$]b".
Proof. reflexivity. Qed.

Example run_lazy :
  Re.m_groups <$> Re.search
     (Re.seqs [Re.lit (str "a:["); Grp 1 (Star false (Cls Re.any)); Chr (ch "]")])
     (str "xx a:[p]q] ") = Some {[ 1 := str "p" ]}.
Proof. vm_compute. reflexivity. Qed.

Example matchAll_words :
  Re.m_text <$> Re.matchAll
     (Re.seqs [WordB; Cls Re.isWord; Re.plus true (Cls Re.isWord); WordB])
     (str "ab, c, def") = [str "ab"; str "def"].
Proof. vm_compute. reflexivity. Qed.

Example replaceAll_ex :
  Re.replaceAll (Re.lit (str "{{A}}")) 0 (str "<$&>") (str "x{{A}}y{{A}}")
  = str "x<{{A}}>y<{{A}}>".
Proof. vm_compute. reflexivity. Qed.

Example normalized_plugins :
  normalizedPackageName (Some (str "@elizaos-plugins/plugin-x"))
  = str "@elizaos/plugin-x".
Proof. reflexivity. Qed.

Example scoped_ex : isScopedName (str "@elizaos/plugin-x") = true.
Proof. reflexivity. Qed.

Example join_up :
  Path.join [str "/work/plugins-automation"; str ".."; str "plugin-x"]
  = str "/work/plugin-x".
Proof. vm_compute. reflexivity. Qed.

Example join_dot :
  Path.join [str "/work/PluginAutomation"; str "."; str "README.md"]
  = str "/work/PluginAutomation/README.md".
Proof. vm_compute. reflexivity. Qed.

Example write_read :
  Fs.readFile
    (default [] (Fs.writeFile [Dir (str "a") [File (str "f") (str "old")]]
                   (str "/a/f") (str "new")))
    (str "/a/f") = Some (str "new").
Proof. vm_compute. reflexivity. Qed.

Example template_length : length readmeTemplate = 4139.
Proof. vm_compute. reflexivity. Qed.

(** ** The per-version download estimate *)

Section VersionDownloads.
Import Npm.

Lemma sliceLast_length {A} (n : nat) (l : list A) :
  length (sliceLast n l) = min n (length l).
Proof. unfold sliceLast. rewrite length_drop. lia. Qed.

(** [Math.round] gives the integer nearest to its argument, the upper
    one at a tie. *)
Lemma Math_round_nearest (q : Q) :
  (inject_Z (Math_round q) <= q + (1 # 2))%Q
  ∧ (q + (1 # 2) < inject_Z (Math_round q) + 1)%Q.
Proof.
  unfold Math_round. split.
  - apply Qfloor_le.
  - pose proof (Qlt_floor (q + (1 # 2))) as H.
    rewrite inject_Z_plus in H. exact H.
Qed.

Lemma versionRecords_spec (api : registry) (pkg : PackageInfo)
    (r : VersionDownloads) :
  r ∈ versionRecords api pkg →
  ∃ total : Z,
    getDownloadStats api (name pkg) (str "last-month") = Some total
    ∧ packageName r = name pkg
    ∧ version r ∈ sliceLast 10 (versions pkg)
    ∧ downloads r
      = Math_round (inject_Z total
                    / inject_Z (Z.of_nat (min 10 (length (versions pkg))))).
Proof.
  unfold versionRecords.
  destruct (getDownloadStats api (name pkg) (str "last-month")) as [total|];
    [|intros H; by apply elem_of_nil in H].
  intros H. apply list_elem_of_fmap in H as (v & -> & Hv).
  exists total. simpl. rewrite sliceLast_length. done.
Qed.

(** C7: every record that [fetchVersionDownloads] emits belongs to a
    package of the list whose monthly count was fetched; its version is
    one of the last ten of that package, and its estimate is the monthly
    count divided by the number of those versions (the smaller of ten
    and the number of versions, at least one), rounded to the nearest
    integer.  All records of a package so carry the same value. *)
Theorem version_estimate_even_split (api : registry)
    (packages : list PackageInfo) (r : VersionDownloads) :
  r ∈ fetchVersionDownloads api packages →
  ∃ (pkg : PackageInfo) (total : Z),
    pkg ∈ packages
    ∧ getDownloadStats api (name pkg) (str "last-month") = Some total
    ∧ packageName r = name pkg
    ∧ version r ∈ sliceLast 10 (versions pkg)
    ∧ let n := min 10 (length (versions pkg)) in
      let share := (inject_Z total / inject_Z (Z.of_nat n))%Q in
      1 ≤ n
      ∧ downloads r = Math_round share
      ∧ (inject_Z (downloads r) <= share + (1 # 2))%Q
      ∧ (share + (1 # 2) < inject_Z (downloads r) + 1)%Q.
Proof.
  unfold fetchVersionDownloads. intros H.
  apply list_elem_of_In, in_flat_map in H as (pkg & Hpkg & Hr).
  apply list_elem_of_In in Hpkg, Hr.
  destruct (versionRecords_spec _ _ _ Hr) as (total & Hstats & Hname & Hv & Hd).
  exists pkg, total. repeat split; try done.
  - assert (length (sliceLast 10 (versions pkg)) ≠ 0) as Hne.
    { destruct (sliceLast 10 (versions pkg)); [by apply elem_of_nil in Hv|done]. }
    rewrite sliceLast_length in Hne. lia.
  - rewrite Hd. apply Math_round_nearest.
  - rewrite Hd. apply Math_round_nearest.
Qed.

Lemma version_estimate_even_split_witness :
  ∃ (pkg : PackageInfo) (total : Z),
    pkg ∈ [Sample.package]
    ∧ getDownloadStats Sample.registry (name pkg) (str "last-month")
      = Some total
    ∧ str "@elizaos/plugin-x" = name pkg
    ∧ str "1.0.1" ∈ sliceLast 10 (versions pkg)
    ∧ let n := min 10 (length (versions pkg)) in
      let share := (inject_Z total / inject_Z (Z.of_nat n))%Q in
      1 ≤ n
      ∧ 13%Z = Math_round share
      ∧ (inject_Z 13 <= share + (1 # 2))%Q
      ∧ (share + (1 # 2) < inject_Z 13 + 1)%Q.
Proof.
  apply (version_estimate_even_split Sample.registry [Sample.package]
           {| packageName := str "@elizaos/plugin-x"; version := str "1.0.1";
              downloads := 13; downloadsPeriod := str "last-month" |}).
  vm_compute. apply list_elem_of_further, list_elem_of_here.
Defined.

End VersionDownloads.

(** ** Strings: prefixes and occurrences *)

(** Literals are turned into their code units before a proof looks into
    them. *)
Ltac norm_str :=
  repeat match goal with
    | |- context [str ?s] =>
        let v := eval vm_compute in (str s) in change (str s) with v
    | |- context [ch ?a] =>
        let v := eval vm_compute in (ch a) in change (ch a) with v
    | H : context [str ?s] |- _ =>
        let v := eval vm_compute in (str s) in change (str s) with v in H
    | H : context [ch ?a] |- _ =>
        let v := eval vm_compute in (ch a) in change (ch a) with v in H
    end.

Lemma startsWith_app (p t : jsstring) : JS.startsWith p (p ++ t) = true.
Proof. induction p as [|a p IH]; simpl; [done|]. by rewrite N.eqb_refl. Qed.

Lemma startsWith_inv (p s : jsstring) :
  JS.startsWith p s = true → ∃ t, s = p ++ t.
Proof.
  revert s. induction p as [|a p IH]; intros s H; simpl in *.
  - by exists s.
  - destruct s as [|b s]; [done|].
    destruct (N.eqb_spec a b) as [->|]; [|done].
    destruct (IH _ H) as [t ->]. by exists t.
Qed.

Lemma startsWith_length (p s : jsstring) :
  JS.startsWith p s = true → length p ≤ length s.
Proof. intros [t ->]%startsWith_inv. rewrite length_app. lia. Qed.

(** A pattern whose first code unit does not occur in [s] does not occur
    in [s]. *)
Lemma includes_head_absent (c : N) (p s : jsstring) :
  c ∉ s → JS.includes (c :: p) s = false.
Proof.
  induction s as [|b s IH]; intros Hc; simpl; [done|].
  destruct (N.eqb_spec c b) as [->|_].
  - exfalso. apply Hc. left.
  - apply IH. intros ?. apply Hc. by right.
Qed.

Lemma replaceStrFrom_absent (pat repl before s : jsstring) :
  JS.includes pat s = false →
  JS.replaceStrFrom pat repl before s = rev before ++ s.
Proof.
  revert before. induction s as [|c s IH]; intros before H; simpl in *.
  - apply orb_false_iff in H as [-> _]. by rewrite app_nil_r.
  - apply orb_false_iff in H as [-> H]. rewrite IH by done.
    simpl. by rewrite <- app_assoc.
Qed.

Lemma replaceStr_absent (pat repl s : jsstring) :
  JS.includes pat s = false → JS.replaceStr pat repl s = s.
Proof. intros H. unfold JS.replaceStr. by rewrite replaceStrFrom_absent. Qed.

Lemma replaceStrFrom_hit (pat repl before s : jsstring) :
  JS.startsWith pat s = true →
  JS.replaceStrFrom pat repl before s
  = rev before
    ++ JS.getSubstitution (rev before) pat (drop (length pat) s) 0 ∅ repl
    ++ drop (length pat) s.
Proof. intros H. destruct s; simpl; by rewrite H. Qed.

(** A replacement text without a dollar sign stands for itself. *)
Lemma getSubstitution_literal (before matched after : jsstring) (ncaps : nat)
    (caps : gmap nat jsstring) (r : jsstring) :
  36%N ∉ r → JS.getSubstitution before matched after ncaps caps r = r.
Proof.
  unfold JS.getSubstitution. induction r as [|c r IH]; intros Hr; [done|].
  cbn [JS.expandFrom].
  destruct (N.eqb_spec c 36) as [->|_].
  - exfalso. apply Hr. left.
  - f_equal. apply IH. intros ?. apply Hr. by right.
Qed.

(** ** The scope rename *)

Definition noAt (s : jsstring) : Prop := ch "@" ∉ s.

Lemma isScopedName_inv (s : jsstring) :
  isScopedName s = true → ∃ rest, s = ch "@" :: rest ∧ noAt rest.
Proof.
  destruct s as [|c rest]; simpl; [done|].
  intros [[Hc Hrest]%andb_true_iff _]%andb_true_iff.
  apply N.eqb_eq in Hc as ->. exists rest. split; [done|].
  intros Hin. rewrite forallb_forall in Hrest.
  apply list_elem_of_In, Hrest in Hin. by rewrite N.eqb_refl in Hin.
Qed.

Lemma normalized_elizaos (t : jsstring) :
  noAt t →
  normalizedPackageName (Some (str "@elizaos/" ++ t)) = str "@elizaos/" ++ t.
Proof.
  intros Ht. unfold normalizedPackageName. apply replaceStr_absent.
  change (str "@elizaos/" ++ t)
    with (ch "@" :: (str "elizaos/" ++ t)).
  change (str "@elizaos-plugins/") with (ch "@" :: str "elizaos-plugins/").
  cbn [JS.includes]. apply orb_false_iff. split; [by vm_compute|].
  apply includes_head_absent. intros [Hin|Hin]%elem_of_app; [|done].
  revert Hin. vm_compute. intros Hin.
  repeat (apply elem_of_cons in Hin as [Hin|Hin]; [done|]).
  by apply elem_of_nil in Hin.
Qed.

(** C8: on a scoped package name, the rename leaves a name that is
    already under [@elizaos/] as it is, and renaming twice is renaming
    once. *)
Theorem scope_rename_idempotent (name : jsstring) :
  isScopedName name = true →
  (JS.startsWith (str "@elizaos/") name = true →
   normalizedPackageName (Some name) = name)
  ∧ normalizedPackageName (Some (normalizedPackageName (Some name)))
    = normalizedPackageName (Some name).
Proof.
  intros (rest & -> & Hrest)%isScopedName_inv.
  assert (∀ p t, ch "@" :: rest = p ++ t → p ≠ [] → noAt t) as Htail.
  { intros p t Ht Hp Hin. destruct p as [|c p]; [done|].
    injection Ht as _ ->. apply Hrest, elem_of_app. by right. }
  split.
  - intros [t Ht]%startsWith_inv. rewrite Ht. apply normalized_elizaos.
    by apply (Htail _ _ Ht).
  - destruct (JS.startsWith (str "@elizaos-plugins/") (ch "@" :: rest))
      eqn:Hold.
    + apply startsWith_inv in Hold as [t Ht].
      assert (noAt t) as Hnoat by by apply (Htail _ _ Ht).
      assert (normalizedPackageName (Some (ch "@" :: rest))
              = str "@elizaos/" ++ t) as ->.
      { rewrite Ht. unfold normalizedPackageName, JS.replaceStr.
        cbn [default from_option id]. rewrite replaceStrFrom_hit by apply startsWith_app.
        rewrite drop_app_length, getSubstitution_literal; [done|].
        by vm_compute; intros ?%list_elem_of_In; simpl in *; intuition. }
      by apply normalized_elizaos.
    + assert (normalizedPackageName (Some (ch "@" :: rest))
              = ch "@" :: rest) as ->; [|].
      { unfold normalizedPackageName. apply replaceStr_absent.
        cbn [JS.includes default from_option id]. rewrite Hold. simpl.
        change (str "@elizaos-plugins/")
          with (ch "@" :: str "elizaos-plugins/").
        by apply includes_head_absent. }
      unfold normalizedPackageName. apply replaceStr_absent.
      cbn [JS.includes default from_option id]. rewrite Hold. simpl.
      change (str "@elizaos-plugins/")
        with (ch "@" :: str "elizaos-plugins/").
      by apply includes_head_absent.
Qed.

Lemma scope_rename_idempotent_witness :
  (JS.startsWith (str "@elizaos/") (str "@elizaos/plugin-x") = true →
   normalizedPackageName (Some (str "@elizaos/plugin-x"))
   = str "@elizaos/plugin-x")
  ∧ normalizedPackageName
      (Some (normalizedPackageName (Some (str "@elizaos/plugin-x"))))
    = normalizedPackageName (Some (str "@elizaos/plugin-x")).
Proof. apply (scope_rename_idempotent (str "@elizaos/plugin-x")). reflexivity. Defined.

(** ** The order of the default sort *)

Lemma ltb_irrefl (a : jsstring) : JS.ltb a a = false.
Proof.
  induction a as [|x a IH]; simpl; [done|]. by rewrite N.ltb_irrefl.
Qed.

Lemma ltb_trichotomy (a b : jsstring) :
  JS.ltb a b = true ∨ a = b ∨ JS.ltb b a = true.
Proof.
  revert b. induction a as [|x a IH]; intros [|y b]; simpl; auto.
  destruct (N.ltb_spec x y), (N.ltb_spec y x); auto; try lia.
  assert (x = y) as -> by lia.
  destruct (IH b) as [?|[->|?]]; auto.
Qed.

Lemma ltb_asym (a b : jsstring) :
  JS.ltb a b = true → JS.ltb b a = false.
Proof.
  revert b. induction a as [|x a IH]; intros [|y b]; simpl; try done.
  destruct (N.ltb_spec x y), (N.ltb_spec y x); try done; try lia.
  apply IH.
Qed.

Lemma ltb_trans (a b c : jsstring) :
  JS.ltb a b = true → JS.ltb b c = true → JS.ltb a c = true.
Proof.
  revert b c. induction a as [|x a IH]; intros [|y b] [|z c]; simpl;
    try done.
  destruct (N.ltb_spec x y), (N.ltb_spec y x), (N.ltb_spec y z),
    (N.ltb_spec z y), (N.ltb_spec x z), (N.ltb_spec z x);
    try done; try lia.
  apply IH.
Qed.

Global Instance lexle_total : Total lexle.
Proof.
  intros a b. unfold lexle, JS.leb.
  destruct (ltb_trichotomy a b) as [H|[->|H]].
  - left. by rewrite (ltb_asym _ _ H).
  - left. by rewrite ltb_irrefl.
  - right. by rewrite (ltb_asym _ _ H).
Qed.

Global Instance lexle_trans : Transitive lexle.
Proof.
  intros a b c. unfold lexle, JS.leb. intros Hab Hbc.
  destruct (JS.ltb c a) eqn:Hca; [|done]. simpl.
  destruct (ltb_trichotomy a b) as [H|[->|H]].
  - by rewrite (ltb_trans _ _ _ Hca H) in Hbc.
  - by rewrite Hca in Hbc.
  - by rewrite H in Hab.
Qed.

Global Instance lexle_antisym : AntiSymm (=) lexle.
Proof.
  intros a b. unfold lexle, JS.leb. intros Hab Hba.
  destruct (ltb_trichotomy a b) as [H|[->|H]]; [|done|].
  - by rewrite H in Hba.
  - by rewrite H in Hab.
Qed.

Lemma lexle_ne_lexlt (a b : jsstring) : lexle a b → a ≠ b → lexlt a b.
Proof.
  unfold lexle, lexlt, JS.leb. intros Hab Hne.
  destruct (ltb_trichotomy a b) as [->|[->|H]]; [done|done|].
  by rewrite H in Hab.
Qed.

Lemma sortedArray_perm (l : list jsstring) : sortedArray l ≡ₚ l.
Proof. apply merge_sort_Permutation. Qed.

Lemma sortedArray_sorted (l : list jsstring) :
  StronglySorted lexle (sortedArray l).
Proof. apply StronglySorted_merge_sort; apply _. Qed.

Lemma StronglySorted_strict (l : list jsstring) :
  NoDup l → StronglySorted lexle l → StronglySorted lexlt l.
Proof.
  induction 2 as [|x l Hl IH Hx]; [constructor|].
  apply NoDup_cons in H as [Hnotin Hnd].
  constructor; [by apply IH|].
  rewrite Forall_forall in Hx |- *. intros y Hy.
  apply lexle_ne_lexlt; [by apply Hx|]. by intros ->.
Qed.

(** Two finite sets with the same elements sort to the same array. *)
Lemma sortedArray_ext (l k : list jsstring) :
  NoDup l → NoDup k → (∀ x, x ∈ l ↔ x ∈ k) → sortedArray l = sortedArray k.
Proof.
  intros Hl Hk Hlk.
  apply (StronglySorted_unique lexle); try apply sortedArray_sorted.
  rewrite !sortedArray_perm. by apply NoDup_Permutation.
Qed.

(** ** The scan for environment variables *)

(** [l] added to the set [s], one element after the other. *)
Definition addAll (l s : list jsstring) : list jsstring :=
  foldl (λ s x, setAdd x s) s l.

Lemma addAll_app (l k s : list jsstring) :
  addAll (l ++ k) s = addAll k (addAll l s).
Proof. apply foldl_app. Qed.

Lemma setAdd_NoDup (x : jsstring) (s : list jsstring) :
  NoDup s → NoDup (setAdd x s).
Proof.
  intros Hs. unfold setAdd. case_bool_decide; [done|].
  apply NoDup_app. repeat split; [done| |apply NoDup_singleton].
  intros y Hy ->%list_elem_of_singleton. done.
Qed.

Lemma elem_of_setAdd (x y : jsstring) (s : list jsstring) :
  y ∈ setAdd x s ↔ y ∈ s ∨ y = x.
Proof.
  unfold setAdd. case_bool_decide.
  - split; [by left|]. by intros [?| ->].
  - rewrite elem_of_app, list_elem_of_singleton. done.
Qed.

Lemma addAll_NoDup (l s : list jsstring) : NoDup s → NoDup (addAll l s).
Proof.
  revert s. induction l as [|x l IH]; intros s Hs; [done|].
  apply IH. by apply setAdd_NoDup.
Qed.

Lemma elem_of_addAll (l s : list jsstring) (y : jsstring) :
  y ∈ addAll l s ↔ y ∈ s ∨ y ∈ l.
Proof.
  revert s. induction l as [|x l IH]; intros s; simpl.
  - split; [by left|]. intros [?|H]; [done|]. by apply elem_of_nil in H.
  - unfold addAll in *. simpl. rewrite IH, elem_of_setAdd, elem_of_cons.
    tauto.
Qed.

Lemma scanContent_addAll (content : jsstring) (envVars : list jsstring) :
  scanContent content envVars = addAll (capturesIn content) envVars.
Proof.
  unfold scanContent, capturesIn. revert envVars.
  induction Pat.envPatterns as [|pattern patterns IH]; intros envVars;
    [done|].
  cbn [foldl map concat]. rewrite IH, addAll_app. f_equal.
  generalize (Re.matchAll pattern content). clear.
  intros ms. revert envVars.
  induction ms as [|m ms IH]; intros envVars; [done|].
  cbn [foldl fmap list_fmap]. rewrite IH. rewrite filter_cons.
  destruct (decide (JS.truthy (cap m 1) = true)) as [Ht|Ht].
  - by rewrite Ht.
  - apply not_true_is_false in Ht. by rewrite Ht.
Qed.

Lemma node_nested_ind (P : node → Prop) :
  (∀ name content, P (File name content)) →
  (∀ name entries, Forall P entries → P (Dir name entries)) →
  ∀ n, P n.
Proof.
  intros HF HD. fix IH 1. intros [name content|name entries].
  - apply HF.
  - apply HD. induction entries as [|e entries IHe]; constructor.
    + apply IH.
    + apply IHe.
Qed.

Lemma searchEntry_Dir (file : jsstring) (entries : list node)
    (envVars : list jsstring) :
  searchEntry (Dir file entries) envVars
  = if negb (isSkippedDirectory file) then searchForEnvVars entries envVars
    else if isSourceFile file then None else Some envVars.
Proof. reflexivity. Qed.

Lemma discoveredEntry_Dir (file : jsstring) (entries : list node) :
  discoveredEntry (Dir file entries)
  = if negb (isSkippedDirectory file) then discovered entries else [].
Proof. reflexivity. Qed.

Lemma scannableEntry_Dir (file : jsstring) (entries : list node) :
  scannableEntry (Dir file entries)
  = if negb (isSkippedDirectory file) then scannable entries
    else negb (isSourceFile file).
Proof. reflexivity. Qed.

Lemma searchForEnvVars_addAll (files : list node) :
  Forall (λ entry, ∀ envVars found,
            searchEntry entry envVars = Some found →
            found = addAll (discoveredEntry entry) envVars) files →
  ∀ envVars found,
    searchForEnvVars files envVars = Some found →
    found = addAll (discovered files) envVars.
Proof.
  induction 1 as [|f rest Hf _ IH]; intros envVars found; simpl.
  - by intros [= <-].
  - destruct (searchEntry f envVars) as [mid|] eqn:Hmid; [|done].
    intros Hrest. rewrite addAll_app, <- (Hf _ _ Hmid). by apply IH.
Qed.

Lemma searchEntry_addAll (entry : node) (envVars found : list jsstring) :
  searchEntry entry envVars = Some found →
  found = addAll (discoveredEntry entry) envVars.
Proof.
  revert envVars found.
  induction entry as [file content|file entries IH] using node_nested_ind;
    intros envVars found.
  - simpl. destruct (isSourceFile file); intros [= <-]; [|done].
    apply scanContent_addAll.
  - rewrite searchEntry_Dir, discoveredEntry_Dir.
    destruct (negb (isSkippedDirectory file)).
    + by apply searchForEnvVars_addAll.
    + destruct (isSourceFile file); [done|]. by intros [= <-].
Qed.

Lemma searchForEnvVars_spec (files : list node)
    (envVars found : list jsstring) :
  searchForEnvVars files envVars = Some found →
  found = addAll (discovered files) envVars.
Proof.
  apply searchForEnvVars_addAll, Forall_forall.
  intros entry _ ? ?. apply searchEntry_addAll.
Qed.

(** The scan returns exactly on the trees in which no directory that it
    passes over is named like a source file. *)
Lemma searchEntry_Some (entry : node) (envVars : list jsstring) :
  is_Some (searchEntry entry envVars) ↔ scannableEntry entry = true.
Proof.
  revert envVars.
  induction entry as [file content|file entries IH] using node_nested_ind;
    intros acc.
  - simpl. destruct (isSourceFile file); split; eauto.
  - rewrite searchEntry_Dir, scannableEntry_Dir.
    destruct (negb (isSkippedDirectory file)).
    + clear file. revert acc.
      induction IH as [|f rest Hf _ IHrest]; intros acc; simpl.
      * split; eauto.
      * rewrite andb_true_iff, <- (Hf acc).
        destruct (searchEntry f acc) as [mid|] eqn:Hmid.
        -- rewrite IHrest. split; [by eauto|]. by intros [_ ?].
        -- split; [by intros [? ?]|]. by intros [[? ?] _].
    + destruct (isSourceFile file); split; simpl; eauto; try done.
Qed.

Lemma searchForEnvVars_Some (files : list node) (envVars : list jsstring) :
  is_Some (searchForEnvVars files envVars) ↔ scannable files = true.
Proof.
  revert envVars. induction files as [|f rest IH]; intros acc; simpl.
  - split; eauto.
  - rewrite andb_true_iff, <- (searchEntry_Some f acc).
    destruct (searchEntry f acc) as [mid|] eqn:Hmid.
    + rewrite IH. split; [by eauto|]. by intros [_ ?].
    + split; [by intros [? ?]|]. by intros [[? ?] _].
Qed.

Lemma scannable_perm (files files' : list node) :
  files ≡ₚ files' → scannable files = scannable files'.
Proof.
  induction 1 as [|f l l' _ IH|f g l|l l' l'' _ IH1 _ IH2]; simpl.
  - done.
  - by rewrite IH.
  - by rewrite !andb_assoc, (andb_comm (scannableEntry g)).
  - by rewrite IH1.
Qed.

Lemma discovered_perm (files files' : list node) :
  files ≡ₚ files' → discovered files ≡ₚ discovered files'.
Proof.
  induction 1 as [|f l l' _ IH|f g l|l l' l'' _ IH1 _ IH2]; simpl.
  - done.
  - by rewrite IH.
  - rewrite !app_assoc. f_equiv. apply Permutation_app_comm.
  - by rewrite IH1.
Qed.

(** What a successful scan returns, in terms of what there is to find. *)
Lemma scan_result (files : list node) (found : list jsstring) :
  searchForEnvVars files [] = Some found →
  NoDup (sortedArray found)
  ∧ StronglySorted lexlt (sortedArray found)
  ∧ (∀ x, x ∈ sortedArray found ↔ x ∈ discovered files).
Proof.
  intros ->%searchForEnvVars_spec.
  assert (NoDup (addAll (discovered files) [])) as Hnd
    by apply addAll_NoDup, NoDup_nil_2.
  assert (NoDup (sortedArray (addAll (discovered files) []))) as Hnd'
    by by rewrite sortedArray_perm.
  split; [done|]. split.
  - apply StronglySorted_strict; [done|apply sortedArray_sorted].
  - intros x. rewrite sortedArray_perm, elem_of_addAll. split.
    + intros [H|H]; [|done]. by apply elem_of_nil in H.
    + by right.
Qed.

Lemma scan_same_set (files files' : list node) (found found' : list jsstring) :
  searchForEnvVars files [] = Some found →
  searchForEnvVars files' [] = Some found' →
  (∀ x, x ∈ discovered files' ↔ x ∈ discovered files) →
  sortedArray found' = sortedArray found.
Proof.
  intros ->%searchForEnvVars_spec ->%searchForEnvVars_spec Hsame.
  apply sortedArray_ext; try apply addAll_NoDup, NoDup_nil_2.
  intros x. rewrite !elem_of_addAll, Hsame. tauto.
Qed.

Lemma extractPluginInfo_envVars (parse : parser) (d : Fs.disk)
    (repoPath : jsstring) (pluginInfo : PluginInfo.t) :
  extractPluginInfo parse d repoPath = Some pluginInfo →
  ∃ files found,
    Fs.readdir d (scanRoot d repoPath) = Some files
    ∧ searchForEnvVars files [] = Some found
    ∧ PluginInfo.envVars pluginInfo = sortedArray found.
Proof.
  unfold extractPluginInfo, scanEnvVars. intros H.
  repeat match type of H with
    | (mbind _ ?x) = Some _ =>
        let E := fresh "E" in destruct x eqn:E; [cbn [mbind option_bind] in H|done]
    | context [?x ≫= _] =>
        let E := fresh "E" in destruct x eqn:E; [cbn [mbind option_bind] in H|done]
    end.
  injection H as <-. cbn [PluginInfo.envVars].
  simplify_option_eq. eauto.
Qed.

(** C3: the list of environment variables that [extractPluginInfo]
    returns holds every identifier that the scan meets in the files it
    visits, each once, in strictly increasing lexicographic order; it is
    the same for any other tree in which the same identifiers are met,
    however often and in whatever order, in particular when the entries
    of the scanned directory are listed in another order.  The scan
    itself returns on every tree without a passed-over directory that is
    named like a source file.  On the sample checkout, whose entry file
    reads [process.env.FOO] twice and [runtime.getSetting] of [BAR] once,
    the list is [BAR], [FOO]. *)
Theorem env_scan_sorted_dedup :
  (∀ (parse : parser) (d : Fs.disk) (repoPath : jsstring)
     (pluginInfo : PluginInfo.t),
     extractPluginInfo parse d repoPath = Some pluginInfo →
     ∃ files : list node,
       Fs.readdir d (scanRoot d repoPath) = Some files
       ∧ NoDup (PluginInfo.envVars pluginInfo)
       ∧ StronglySorted lexlt (PluginInfo.envVars pluginInfo)
       ∧ (∀ x, x ∈ PluginInfo.envVars pluginInfo ↔ x ∈ discovered files)
       ∧ (∀ files' found',
            searchForEnvVars files' [] = Some found' →
            (∀ x, x ∈ discovered files' ↔ x ∈ discovered files) →
            sortedArray found' = PluginInfo.envVars pluginInfo)
       ∧ (∀ files', files' ≡ₚ files →
            ∃ found', searchForEnvVars files' [] = Some found'
                      ∧ sortedArray found' = PluginInfo.envVars pluginInfo))
  ∧ (∀ files envVars,
       is_Some (searchForEnvVars files envVars) ↔ scannable files = true)
  ∧ PluginInfo.envVars
      <$> extractPluginInfo Sample.parseManifest Sample.disk Sample.repoPath
    = Some [str "BAR"; str "FOO"].
Proof.
  refine (conj _ (conj searchForEnvVars_Some _)); [|by vm_compute].
  intros parse d repoPath pluginInfo
    (files & found & Hdir & Hscan & ->)%extractPluginInfo_envVars.
  exists files. destruct (scan_result _ _ Hscan) as (Hnd & Hsorted & Hmem).
  do 4 (split; [done|]). split.
  - intros files' found' Hscan' Hsame. by eapply scan_same_set.
  - intros files' Hperm.
    assert (is_Some (searchForEnvVars files' [])) as [found' Hscan'].
    { rewrite searchForEnvVars_Some, (scannable_perm _ _ Hperm),
        <- searchForEnvVars_Some. eauto. }
    exists found'. split; [done|]. eapply scan_same_set; [done..|].
    intros x. by rewrite (discovered_perm _ _ Hperm).
Qed.

Lemma env_scan_sorted_dedup_witness :
  ∃ files : list node,
    Fs.readdir Sample.disk (scanRoot Sample.disk Sample.repoPath) = Some files
    ∧ NoDup [str "BAR"; str "FOO"]
    ∧ StronglySorted lexlt [str "BAR"; str "FOO"]
    ∧ (∀ x, x ∈ [str "BAR"; str "FOO"] ↔ x ∈ discovered files)
    ∧ (∀ files' found',
         searchForEnvVars files' [] = Some found' →
         (∀ x, x ∈ discovered files' ↔ x ∈ discovered files) →
         sortedArray found' = [str "BAR"; str "FOO"])
    ∧ (∀ files', files' ≡ₚ files →
         ∃ found', searchForEnvVars files' [] = Some found'
                   ∧ sortedArray found' = [str "BAR"; str "FOO"]).
Proof.
  pose proof (proj1 env_scan_sorted_dedup Sample.parseManifest Sample.disk
                Sample.repoPath) as H.
  destruct (extractPluginInfo Sample.parseManifest Sample.disk Sample.repoPath)
    as [pluginInfo|] eqn:E; [|by vm_compute in E].
  assert (PluginInfo.envVars pluginInfo = [str "BAR"; str "FOO"]) as Hvars.
  { vm_compute in E. injection E as <-. by vm_compute. }
  rewrite <- Hvars. by apply H.
Defined.

(** ** The matcher *)

(** A successful run of [r] hands to its continuation a state at least
    [Re.minLength r] code units further. *)
Lemma run_consumes (r : regex) :
  ∀ (k : Re.cont) (st st' : Re.mstate),
    Re.run r k st = Some st' →
    ∃ mid, k mid = Some st'
           ∧ length (Re.ms_rest mid) + Re.minLength r
             ≤ length (Re.ms_rest st).
Proof.
  induction r as [|c|f|r1 IH1 r2 IH2|r1 IH1 r2 IH2|greedy r1 IH1|i r1 IH1
                 | |multiline|multiline]; intros k st st'; cbn [Re.run Re.minLength].
  - intros H. exists st. split; [done|lia].
  - destruct st as [prev [|x rest] caps]; cbn; [done|].
    destruct (N.eqb x c); [|done]. intros H. eexists. split; [exact H|].
    cbn. lia.
  - destruct st as [prev [|x rest] caps]; cbn; [done|].
    destruct (f x); [|done]. intros H. eexists. split; [exact H|].
    cbn. lia.
  - intros H. apply IH1 in H as (mid1 & H & Hlen1).
    apply IH2 in H as (mid2 & H & Hlen2). exists mid2. split; [done|lia].
  - unfold Re.orElse. destruct (Re.run r1 k st) eqn:E1.
    + intros [= <-]. apply IH1 in E1 as (mid & ? & ?). exists mid.
      split; [done|lia].
    + intros E2. apply IH2 in E2 as (mid & ? & ?). exists mid.
      split; [done|lia].
  - generalize (length (Re.ms_rest st)) at 1. intros n. revert k st st'.
    induction n as [|n IHn]; intros k st st'.
    + intros H. exists st. split; [done|lia].
    + match goal with
      | |- context [Re.run r1 ?k' st] => set (again := Re.run r1 k' st)
      end.
      assert (∀ st'', again = Some st'' →
                ∃ mid, k mid = Some st''
                       ∧ length (Re.ms_rest mid) ≤ length (Re.ms_rest st))
        as Hagain.
      { intros st'' H. apply IH1 in H as (mid1 & H & Hlen1).
        destruct (length (Re.ms_rest mid1) <? length (Re.ms_rest st));
          [|done].
        apply IHn in H as (mid & H & Hlen). exists mid. split; [done|lia]. }
      unfold Re.orElse. destruct greedy.
      * destruct again as [st''|] eqn:E.
        -- intros [= <-]. destruct (Hagain _ eq_refl) as (mid & ? & ?).
           exists mid. split; [done|lia].
        -- intros H. exists st. split; [done|lia].
      * destruct (k st) eqn:E.
        -- intros [= <-]. exists st. split; [done|lia].
        -- intros H. destruct (Hagain _ H) as (mid & ? & ?).
           exists mid. split; [done|lia].
  - intros H. apply IH1 in H as (mid & H & Hlen). eexists. split; [exact H|].
    cbn. lia.
  - destruct (xorb _ _); [|done]. intros H. exists st. split; [done|lia].
  - destruct (Re.ms_prev st) as [c|].
    + destruct (multiline && Re.isLineTerminator c); [|done].
      intros H. exists st. split; [done|lia].
    + intros H. exists st. split; [done|lia].
  - destruct (Re.ms_rest st) as [|c rest] eqn:E.
    + intros H. exists st. split; [done|]. rewrite E. simpl. lia.
    + destruct (multiline && Re.isLineTerminator c); [|done].
      intros H. exists st. split; [done|]. rewrite E. simpl. lia.
Qed.

(** A match is at least as long as the least length of its pattern, and
    no longer than the input. *)
Lemma matchHere_length (r : regex) (prev : option N) (idx : nat)
    (s : jsstring) (m : Re.jsmatch) :
  Re.matchHere r prev idx s = Some m →
  Re.m_index m = idx
  ∧ Re.minLength r ≤ length (Re.m_text m) ≤ length s
  ∧ ∃ after, s = Re.m_text m ++ after.
Proof.
  unfold Re.matchHere.
  destruct (Re.run r Some _) as [st'|] eqn:E; [|done]. intros [= <-].
  apply run_consumes in E as (mid & [= ->] & Hlen). cbn in *.
  split; [done|]. rewrite length_take. split; [lia|].
  exists (drop (length s - length (Re.ms_rest st')) s).
  by rewrite take_drop.
Qed.

(** Every match that the global scan lists is the match of the pattern at
    some position of the input. *)
Lemma matchesFrom_elem (r : regex) (s : jsstring) :
  ∀ (skip : nat) (pre : jsstring) (m : Re.jsmatch),
    m ∈ Re.matchesFrom r skip (last pre) (length pre) s →
    ∃ pre' suf,
      pre ++ s = pre' ++ suf
      ∧ Re.matchHere r (last pre') (length pre') suf = Some m.
Proof.
  induction s as [|c s IH]; intros skip pre m.
  - destruct skip; simpl; [|by intros ?%elem_of_nil].
    destruct (Re.matchHere r (last pre) (length pre) []) eqn:E;
      [|by intros ?%elem_of_nil].
    intros ->%list_elem_of_singleton. by exists pre, [].
  - assert (∀ k, m ∈ Re.matchesFrom r k (Some c) (S (length pre)) s →
                 ∃ pre' suf, pre ++ c :: s = pre' ++ suf
                   ∧ Re.matchHere r (last pre') (length pre') suf = Some m)
      as Hnext.
    { intros k Hm.
      destruct (IH k (pre ++ [c]) m) as (pre' & suf & Heq & Hm').
      { by rewrite last_snoc, length_app, Nat.add_1_r. }
      exists pre', suf. by rewrite <- Heq, <- app_assoc. }
    destruct skip; simpl; [|by apply Hnext].
    destruct (Re.matchHere r (last pre) (length pre) (c :: s)) eqn:E.
    + intros [->|Hm]%elem_of_cons; [by exists pre, (c :: s)|].
      by eapply Hnext.
    + by apply Hnext.
Qed.

Lemma matchAll_elem (r : regex) (s : jsstring) (m : Re.jsmatch) :
  m ∈ Re.matchAll r s →
  ∃ pre suf,
    s = pre ++ suf ∧ Re.matchHere r (last pre) (length pre) suf = Some m.
Proof. intros H. by apply (matchesFrom_elem r s 0 []) in H. Qed.

(** The patterns that are run in an [exec] loop never match the empty
    string, so that those loops end. *)
Lemma exec_loops_advance :
  Forall (λ r, 1 ≤ Re.minLength r)
    ([Pat.methodRegex; Pat.jsdocRegex; Pat.paramRegex; Pat.zodParamRegex]
     ++ Pat.envPatterns).
Proof. repeat constructor; vm_compute; lia. Qed.

(** ** The methods of a service *)

(** C9: a method listed for a service is never named [constructor] and
    never starts with an underscore, and its name is the first capture of
    a match of the method pattern at some position of the source text. *)
Theorem service_methods_filtered (sourceCode componentName : jsstring)
    (type : ComponentType) (method : MethodInfo) :
  method ∈ default []
    (Details.methods (extractDetailedComponentInfo sourceCode componentName type)) →
  method_name method ≠ str "constructor"
  ∧ JS.startsWith (str "_") (method_name method) = false
  ∧ ∃ (pre suf : jsstring) (m : Re.jsmatch),
      sourceCode = pre ++ suf
      ∧ Re.matchHere Pat.methodRegex (last pre) (length pre) suf = Some m
      ∧ 1 ≤ length (Re.m_text m)
      ∧ cap m 1 = method_name method.
Proof.
  assert (method ∈ serviceMethods sourceCode →
          method_name method ≠ str "constructor"
          ∧ JS.startsWith (str "_") (method_name method) = false
          ∧ ∃ (pre suf : jsstring) (m : Re.jsmatch),
              sourceCode = pre ++ suf
              ∧ Re.matchHere Pat.methodRegex (last pre) (length pre) suf
                = Some m
              ∧ 1 ≤ length (Re.m_text m)
              ∧ cap m 1 = method_name method) as Hservice.
  { unfold serviceMethods. intros (m & Hm & Hkeep)%list_elem_of_omap.
    destruct (JS.truthy (cap m 1)) eqn:Htruthy; [|done].
    destruct (bool_decide (cap m 1 = str "constructor")) eqn:Hctor; [done|].
    destruct (JS.startsWith (str "_") (cap m 1)) eqn:Hunder; [done|].
    cbn [negb andb] in Hkeep.
    destruct (Re.search _ sourceCode) as [fullMatch|]; [|done].
    injection Hkeep as <-. cbn [method_name].
    apply bool_decide_eq_false in Hctor.
    apply matchAll_elem in Hm as (pre & suf & Hsplit & Hm).
    do 2 (split; [done|]). exists pre, suf, m.
    do 2 (split; [done|]). split; [|done].
    apply matchHere_length in Hm as (_ & [Hmin _] & _).
    change (Re.minLength Pat.methodRegex) with 4 in Hmin. lia. }
  unfold extractDetailedComponentInfo.
  destruct type; cbn [Details.methods default from_option id];
    try by intros ?%elem_of_nil.
  unfold nonEmptyList.
  destruct (serviceMethods sourceCode) as [|m0 ms] eqn:E;
    cbn [default from_option id]; [by intros ?%elem_of_nil|].
  done.
Qed.

Lemma service_methods_filtered_witness :
  str "stop" ≠ str "constructor"
  ∧ JS.startsWith (str "_") (str "stop") = false
  ∧ ∃ (pre suf : jsstring) (m : Re.jsmatch),
      Sample.serviceSource = pre ++ suf
      ∧ Re.matchHere Pat.methodRegex (last pre) (length pre) suf = Some m
      ∧ 1 ≤ length (Re.m_text m)
      ∧ cap m 1 = str "stop".
Proof.
  apply (service_methods_filtered Sample.serviceSource (str "FooService")
           services
           {| method_name := str "stop"; method_parameters := [];
              method_description := [] |}).
  vm_compute. apply list_elem_of_further, list_elem_of_here.
Defined.

(** ** Reasoning about computations *)

Lemma run_bind {A B} (m : M A) (k : A → M B) (s : state) :
  (m ≫= k) s
  = match m s with
    | (Returned a, s') => k a s'
    | (Thrown error, s') => (Thrown error, s')
    end.
Proof. reflexivity. Qed.

Lemma run_pathExists (p : jsstring) (s : state) :
  pathExists p s = (Returned (Fs.pathExists (disk s) p), s).
Proof. reflexivity. Qed.

Lemma run_readFile (p : jsstring) (s : state) :
  readFile p s
  = match Fs.readFile (disk s) p with
    | Some content => (Returned content, s)
    | None => (Thrown (str "ENOENT: " ++ p), s)
    end.
Proof. unfold readFile. rewrite run_bind. cbn. by destruct Fs.readFile. Qed.

Lemma run_emit (e : event) (s : state) :
  emit e s = (Returned (), State (disk s) (trace s ++ [e])).
Proof. reflexivity. Qed.

(** [only P m]: whatever [m] does, the events that it adds to the trace
    all satisfy [P]. *)
Definition only {A} (P : event → Prop) (m : M A) : Prop :=
  ∀ s, ∃ evs, trace (m s).2 = trace s ++ evs ∧ Forall P evs.

(** [returns m]: [m] never throws. *)
Definition returns {A} (m : M A) : Prop :=
  ∀ s, ∃ a s', m s = (Returned a, s').

Section Computations.
Context {A B : Type} (P : event → Prop).

Lemma only_ret (a : A) : only P (ret a).
Proof. intros s. exists []. by rewrite app_nil_r. Qed.

Lemma only_throw (error : jsstring) : only P (throw error : M A).
Proof. intros s. exists []. by rewrite app_nil_r. Qed.

Lemma only_bind (m : M A) (k : A → M B) :
  only P m → (∀ a, only P (k a)) → only P (m ≫= k).
Proof.
  intros Hm Hk s. unfold mbind, M_bind, bind.
  destruct (Hm s) as (evs1 & Htrace1 & Hall1).
  destruct (m s) as [[a|error] s1]; cbn in *.
  - destruct (Hk a s1) as (evs2 & Htrace2 & Hall2).
    exists (evs1 ++ evs2). rewrite Htrace2, Htrace1, app_assoc.
    split; [done|]. by apply Forall_app.
  - by exists evs1.
Qed.

Lemma only_tryCatch (m : M A) (handler : jsstring → M A) :
  only P m → (∀ error, only P (handler error)) → only P (tryCatch m handler).
Proof.
  intros Hm Hh s. unfold tryCatch.
  destruct (Hm s) as (evs1 & Htrace1 & Hall1).
  destruct (m s) as [[a|error] s1]; cbn in *.
  - by exists evs1.
  - destruct (Hh error s1) as (evs2 & Htrace2 & Hall2).
    exists (evs1 ++ evs2). rewrite Htrace2, Htrace1, app_assoc.
    split; [done|]. by apply Forall_app.
Qed.

Lemma only_emit (e : event) : P e → only P (emit e).
Proof. intros He s. exists [e]. split; [done|]. by constructor. Qed.

Lemma only_getDisk : only P getDisk.
Proof. intros s. exists []. by rewrite app_nil_r. Qed.

Lemma only_setDisk (d : Fs.disk) : only P (setDisk d).
Proof. intros s. exists []. by rewrite app_nil_r. Qed.

Lemma only_orThrow (x : option A) (error : jsstring) :
  only P (orThrow x error).
Proof. destruct x; [apply only_ret|apply only_throw]. Qed.

End Computations.

Lemma only_when (P : event → Prop) (b : bool) (m : M unit) :
  only P m → only P (when b m).
Proof. destruct b; [done|]. intros _. apply only_ret. Qed.

Lemma only_weaken {A} (P Q : event → Prop) (m : M A) :
  (∀ e, P e → Q e) → only P m → only Q m.
Proof.
  intros HPQ Hm s. destruct (Hm s) as (evs & Htrace & Hall).
  exists evs. split; [done|]. by eapply Forall_impl.
Qed.

(** One step of a proof of [only]: the rule of the outermost construct,
    chosen by its syntax, with a case distinction where the computation
    branches.  [only_known] holds the rules of the functions already
    dealt with. *)
Ltac only_known := fail.

Ltac only_step :=
  first
    [ only_known
    | lazymatch goal with
      | |- only _ (ret _) => apply only_ret
      | |- only _ (throw _) => apply only_throw
      | |- only _ getDisk => apply only_getDisk
      | |- only _ (setDisk _) => apply only_setDisk
      | |- only _ (orThrow _ _) => apply only_orThrow
      | |- only _ (_ ≫= _) => apply only_bind; [|intros ?]
      | |- only _ (tryCatch _ _) => apply only_tryCatch; [|intros ?]
      | |- only _ (when _ _) => apply only_when
      | |- only _ (emit _) => apply only_emit
      | |- only _ (if ?b then _ else _) => destruct b eqn:?
      | |- only _ (match ?x with _ => _ end) => destruct x eqn:?
      end ].

Ltac only_auto := repeat only_step; try exact I; try reflexivity.

Section Effects.
Context (P : event → Prop).

Lemma only_pathExists (p : jsstring) : only P (pathExists p).
Proof. unfold pathExists. only_auto. Qed.

Lemma only_readFile (p : jsstring) : only P (readFile p).
Proof. unfold readFile. only_auto. Qed.

Lemma only_writeFile (p content : jsstring) :
  P (WriteFile p content) → only P (writeFile p content).
Proof. intros HP. unfold writeFile. only_auto. done. Qed.

Lemma only_remove (p : jsstring) : P (Remove p) → only P (remove p).
Proof. intros HP. unfold remove. only_auto. done. Qed.

Lemma only_exec (w : World) (command dir : jsstring) :
  P (Exec command dir) → only P (exec w command dir).
Proof. intros HP. unfold exec. only_auto. done. Qed.

End Effects.




Ltac only_known ::=
  lazymatch goal with
  | |- only _ (pathExists _) => apply only_pathExists
  | |- only _ (readFile _) => apply only_readFile
  | |- only _ (writeFile _ _) => apply only_writeFile
  | |- only _ (remove _) => apply only_remove
  | |- only _ (exec _ _ _) => apply only_exec
  end.










(** ** The guard of the local write *)


Lemma includes_prefix (p s : jsstring) :
  JS.startsWith p s = true → JS.includes p s = true.
Proof. intros H. destruct s; cbn [JS.includes]; by rewrite H. Qed.

Lemma includes_app (p a b : jsstring) : JS.includes p (a ++ p ++ b) = true.
Proof.
  induction a as [|c a IH].
  - rewrite app_nil_l. apply includes_prefix, startsWith_app.
  - rewrite <- app_comm_cons. cbn [JS.includes]. rewrite IH.
    apply orb_true_r.
Qed.










(** On the sample disk the guard is what stops the write: the
    destination is the README of the working directory, the directory
    exists, and the error is the guard's. *)
Example automation_readme_refused_sample :
  localReadmePath Sample.localWorld (str "plugins-automation")
  = Path.join [cwd Sample.localWorld; str "README.md"]
  ∧ createPullRequest Sample.localWorld (str "plugins-automation")
      (str "# overwritten") Sample.start
    = (Thrown CRITICAL, Sample.start).
Proof. split; by vm_compute. Qed.


(** ** The check of the README before it is persisted *)








(** ** The boundary of a repository item *)

(** ** The boundary of an item *)

(** A computation that returns from every state. *)
Definition total {A} (m : M A) : Prop :=
  ∀ s, ∃ a s', m s = (Returned a, s').

Lemma total_tryCatch {A} (m : M A) (handler : jsstring → M A) :
  (∀ error, total (handler error)) → total (tryCatch m handler).
Proof.
  intros Hhandler s. unfold tryCatch.
  destruct (m s) as [[a|error] s']; [by exists a, s'|]. apply Hhandler.
Qed.

Lemma total_bind {A B} (m : M A) (k : A → M B) :
  total m → (∀ a, total (k a)) → total (m ≫= k).
Proof.
  intros Hm Hk s. unfold mbind, M_bind, bind.
  destruct (Hm s) as (a & s' & ->). apply Hk.
Qed.

Lemma total_emit (e : event) : total (emit e).
Proof. intros s. by eexists _, _. Qed.

Lemma total_ret {A} (a : A) : total (ret a).
Proof. intros s. by eexists _, _. Qed.

Lemma total_remove (p : jsstring) : total (remove p).
Proof. intros s. by eexists _, _. Qed.

Lemma total_onFailure (w : World) (repoName : jsstring)
    (repoPath : option jsstring) (error : jsstring) :
  total (onFailure w repoName repoPath error).
Proof.
  unfold onFailure. apply total_bind; [apply total_emit|]. intros _.
  unfold when. destruct (_ && _); [apply total_remove|apply total_ret].
Qed.

(** Past the check of the URL, every failure of an item stays inside
    [processPlugin]: it returns to its caller, whatever the environment
    does. *)
Lemma processPlugin_returns (w : World) (repoNameOrUrl : jsstring) :
  (isUrl repoNameOrUrl = true → is_Some (repoNameOfUrl repoNameOrUrl)) →
  total (processPlugin w repoNameOrUrl).
Proof.
  intros Hurl. unfold processPlugin, processPluginWith.
  apply total_bind; [apply total_emit|]. intros _.
  apply total_bind.
  { destruct (isUrl repoNameOrUrl); [|apply total_ret].
    destruct Hurl as [repoName ->]; [done|]. apply total_ret. }
  intros repoName. apply total_bind.
  { apply total_tryCatch. intros error.
    apply total_bind; [apply total_onFailure|]. intros _. apply total_ret. }
  intros [repoPath|]; [|apply total_ret].
  apply total_tryCatch, total_onFailure.
Qed.

(** C1, at a URL whose last segment is empty: [processPlugin] throws
    the error of the URL check to its caller, having logged nothing but
    the start of the item; in [main], run in test mode on that URL, the
    error reaches the handler of the whole script, which reports it and
    exits with code 1, and no failure is logged for the item. *)
Theorem invalid_url_escapes :
  (∀ (w : World) (s : state),
     processPlugin w Sample.trailingSlashUrl s
     = (Thrown (invalidUrl Sample.trailingSlashUrl),
        State (disk s)
          (trace s
           ++ [ConsoleLog (processing Sample.trailingSlashUrl)])))
  ∧ (main Sample.testWorld Sample.start).1 = Returned (Exit 1)
  ∧ ConsoleError scriptFailed (invalidUrl Sample.trailingSlashUrl)
    ∈ trace (main Sample.testWorld Sample.start).2
  ∧ ∀ repoName error,
      ConsoleError (failedToProcess repoName) error
      ∉ trace (main Sample.testWorld Sample.start).2.
Proof.
  split; [by intros w s|].
  split; [by vm_compute|].
  assert (∃ banner subtitle notice,
            trace (main Sample.testWorld Sample.start).2
            = [ConsoleLog banner; ConsoleLog subtitle; ConsoleLog notice;
               ConsoleLog (processing Sample.trailingSlashUrl);
               ConsoleError scriptFailed
                 (invalidUrl Sample.trailingSlashUrl)])
    as (banner & subtitle & notice & ->)
    by (eexists _, _, _; by vm_compute).
  split.
  - do 4 apply list_elem_of_further. apply list_elem_of_here.
  - intros repoName error Hin.
    repeat (apply elem_of_cons in Hin as [Hin|Hin]; [discriminate Hin|]).
    by apply elem_of_nil in Hin.
Qed.

(** ** Replacing a literal pattern *)

(** A match that starts before a code unit foreign to the pattern ends
    before it. *)
Lemma startsWith_before (p a : jsstring) (b : N) (s : jsstring) :
  b ∉ p → JS.startsWith p (a ++ b :: s) = true →
  length p ≤ length a ∧ JS.startsWith p a = true.
Proof.
  revert a. induction p as [|c q IH]; intros a Hb H.
  - split; [simpl; lia|done].
  - destruct a as [|x a]; cbn in H.
    + destruct (N.eqb_spec c b) as [->|]; [|done].
      exfalso. apply Hb. left.
    + cbn. destruct (N.eqb c x); [|done].
      destruct (IH a) as [Hlen Hpre]; [|done|].
      * intros ?. apply Hb. by right.
      * split; [lia|done].
Qed.

Lemma miss_at_foreign (p : jsstring) (b : N) (s : jsstring) :
  p ≠ [] → b ∉ p → JS.startsWith p (b :: s) = false.
Proof.
  intros Hp Hb. destruct p as [|c q]; [done|]. cbn.
  destruct (N.eqb_spec c b) as [->|]; [|done]. exfalso. apply Hb. left.
Qed.

Lemma nonempty_inv (p : jsstring) : p ≠ [] → ∃ c q, p = c :: q.
Proof. destruct p; [done|eauto]. Qed.

Section Literal.
Context (p : jsstring).

Lemma last_cons_from_option (c : N) (q : jsstring) :
  from_option Some (Some c) (last q) = last (c :: q).
Proof.
  destruct q as [|d q]; [done|].
  change (last (c :: d :: q)) with (last (d :: q)).
  destruct (last (d :: q)) eqn:E; [done|]. by apply last_None in E.
Qed.

Lemma from_option_last_cons (prev : option N) (c : N) (q : jsstring) :
  from_option Some prev (last (c :: q)) = last (c :: q).
Proof.
  destruct (last (c :: q)) eqn:E; [done|]. by apply last_None in E.
Qed.

Lemma run_lit (k : Re.cont) :
  ∀ (prev : option N) (s : jsstring) (caps : gmap nat jsstring),
    Re.run (Re.lit p) k (Re.MState prev s caps)
    = if JS.startsWith p s
      then k (Re.MState (from_option Some prev (last p))
                (drop (length p) s) caps)
      else None.
Proof.
  induction p as [|c q IH]; intros prev s caps; [done|].
  cbn [Re.lit Re.run Re.ms_rest]. destruct s as [|x rest]; [done|].
  cbn [JS.startsWith]. rewrite (N.eqb_sym c x).
  destruct (N.eqb_spec x c) as [->|]; [|done].
  unfold Re.step. cbn [Re.ms_caps]. rewrite IH.
  by rewrite last_cons_from_option, from_option_last_cons.
Qed.

Lemma matchHere_lit (prev : option N) (idx : nat) (s : jsstring) :
  Re.matchHere (Re.lit p) prev idx s
  = if JS.startsWith p s then Some (Re.JsMatch idx p ∅) else None.
Proof.
  unfold Re.matchHere. rewrite run_lit.
  destruct (JS.startsWith p s) eqn:E; [|done].
  apply startsWith_inv in E as [t ->]. cbn [Re.ms_rest Re.ms_caps].
  rewrite drop_app_length, length_app.
  replace (length p + length t - length t) with (length p) by lia.
  by rewrite take_app_length.
Qed.

Context (repl : jsstring).

Let R := Re.replaceFrom (Re.lit p) 0 repl.

Lemma replace_skip (k : nat) (before : jsstring) (c : N) (s : jsstring) :
  R (S k) before (c :: s) = R k (c :: before) s.
Proof. reflexivity. Qed.

Lemma replace_skip_all (a before s : jsstring) :
  R (length a) before (a ++ s) = R 0 (rev a ++ before) s.
Proof.
  revert before. induction a as [|c a IH]; intros before; [done|].
  cbn [length app]. rewrite replace_skip, IH. cbn [rev].
  by rewrite <- app_assoc.
Qed.

Lemma replace_miss (before : jsstring) (c : N) (s : jsstring) :
  JS.startsWith p (c :: s) = false →
  R 0 before (c :: s) = c :: R 0 (c :: before) s.
Proof.
  intros H. unfold R. cbn [Re.replaceFrom]. by rewrite matchHere_lit, H.
Qed.

Lemma replace_hit (before : jsstring) (c : N) (s : jsstring) :
  p ≠ [] → JS.startsWith p (c :: s) = true →
  R 0 before (c :: s)
  = JS.getSubstitution (rev before) p (drop (length p) (c :: s)) 0 ∅ repl
    ++ R (length p - 1) (c :: before) s.
Proof.
  intros Hp H. unfold R. cbn [Re.replaceFrom].
  rewrite matchHere_lit, H. cbn [Re.m_text Re.m_groups].
  destruct p as [|c' q]; [done|]. cbn [length].
  by replace (S (length q) - 1) with (length q) by lia.
Qed.

Lemma replace_hit_app (before t : jsstring) :
  p ≠ [] →
  R 0 before (p ++ t)
  = JS.getSubstitution (rev before) p t 0 ∅ repl ++ R 0 (rev p ++ before) t.
Proof.
  intros Hp. destruct (nonempty_inv p Hp) as (c & q & Ep).
  assert (p ++ t = c :: (q ++ t)) as Hsplit by by rewrite Ep.
  rewrite Hsplit, replace_hit; [|done|by rewrite <- Hsplit, startsWith_app].
  rewrite <- Hsplit, drop_app_length.
  replace (length p - 1) with (length q) by (rewrite Ep; simpl; lia).
  rewrite replace_skip_all.
  replace (rev p ++ before) with (rev q ++ c :: before); [done|].
  rewrite Ep. simpl. by rewrite <- app_assoc.
Qed.

Section Tracked.
Context (b1 b2 : N) (Hp : p ≠ []) (Hb1 : b1 ∉ p) (Hb2 : b2 ∉ p).

(** The scan passes over a text in which the pattern does not occur and
    which a foreign code unit follows. *)
Lemma replace_through (X post : jsstring) :
  JS.includes p X = false →
  ∀ before, ∃ B, R 0 before (X ++ b2 :: post) = X ++ b2 :: B.
Proof.
  induction X as [|x X IH]; intros Hfree before.
  - eexists. cbn [app]. by rewrite replace_miss by by apply miss_at_foreign.
  - cbn [JS.includes] in Hfree. apply orb_false_iff in Hfree as [Hx Hfree].
    rewrite <- app_comm_cons, replace_miss.
    + destruct (IH Hfree (x :: before)) as [B ->]. by eexists.
    + destruct (JS.startsWith p (x :: X ++ b2 :: post)) eqn:E; [|done].
      rewrite app_comm_cons in E.
      apply startsWith_before in E as [_ E]; [|done]. congruence.
Qed.

(** A fragment between two foreign code units, in which the pattern does
    not occur, is still there after the replacement. *)
Lemma replace_keeps (X post : jsstring) :
  JS.includes p X = false →
  ∀ pre skip before,
    skip ≤ length pre →
    ∃ A B, R skip before (pre ++ b1 :: X ++ b2 :: post)
           = A ++ b1 :: X ++ b2 :: B.
Proof.
  intros Hfree. induction pre as [|c pre IH]; intros skip before Hskip.
  - destruct skip; [|simpl in Hskip; lia]. cbn [app].
    rewrite replace_miss by by apply miss_at_foreign.
    destruct (replace_through X post Hfree (b1 :: before)) as [B ->].
    by exists [], B.
  - rewrite <- app_comm_cons. destruct skip as [|k].
    + destruct (JS.startsWith p (c :: pre ++ b1 :: X ++ b2 :: post)) eqn:E.
      * rewrite replace_hit by done. rewrite app_comm_cons in E.
        apply startsWith_before in E as [Hlen _]; [|done].
        destruct (IH (length p - 1) (c :: before)) as (A & B & ->).
        { simpl in Hlen. lia. }
        eexists (_ ++ A), B. by rewrite <- app_assoc.
      * rewrite replace_miss by done.
        destruct (IH 0 (c :: before)) as (A & B & ->); [lia|].
        by exists (c :: A), B.
    + rewrite replace_skip. apply IH. simpl in Hskip. lia.
Qed.

(** An occurrence of the pattern between two foreign code units is
    replaced by the replacement text, when that holds no dollar sign. *)
Lemma replace_hole (post : jsstring) :
  36%N ∉ repl →
  ∀ pre skip before,
    skip ≤ length pre →
    ∃ A B, R skip before (pre ++ b1 :: p ++ b2 :: post)
           = A ++ b1 :: repl ++ b2 :: B.
Proof.
  intros Hrepl. induction pre as [|c pre IH]; intros skip before Hskip.
  - destruct skip; [|simpl in Hskip; lia]. cbn [app].
    rewrite replace_miss by by apply miss_at_foreign.
    rewrite replace_hit_app, getSubstitution_literal by done.
    rewrite replace_miss by by apply miss_at_foreign.
    by exists [], (R 0 (b2 :: rev p ++ b1 :: before) post).
  - rewrite <- app_comm_cons. destruct skip as [|k].
    + destruct (JS.startsWith p (c :: pre ++ b1 :: p ++ b2 :: post)) eqn:E.
      * rewrite replace_hit by done. rewrite app_comm_cons in E.
        apply startsWith_before in E as [Hlen _]; [|done].
        destruct (IH (length p - 1) (c :: before)) as (A & B & ->).
        { simpl in Hlen. lia. }
        eexists (_ ++ A), B. by rewrite <- app_assoc.
      * rewrite replace_miss by done.
        destruct (IH 0 (c :: before)) as (A & B & ->); [lia|].
        by exists (c :: A), B.
    + rewrite replace_skip. apply IH. simpl in Hskip. lia.
Qed.

End Tracked.
End Literal.

(** ** Filling the template *)

(** [framed b1 X b2 s]: the text [X] occurs in [s] between the code units
    [b1] and [b2]. *)
Definition framed (b1 : N) (X : jsstring) (b2 : N) (s : jsstring) : Prop :=
  ∃ A B, s = A ++ b1 :: X ++ b2 :: B.

Lemma includes_inv (q s : jsstring) :
  JS.includes q s = true → ∃ A B, s = A ++ q ++ B.
Proof.
  induction s as [|c s IH]; cbn [JS.includes].
  - rewrite orb_false_r. intros [B ->]%startsWith_inv. by exists [], B.
  - intros [[B ->]%startsWith_inv|H]%orb_true_iff; [by exists [], B|].
    destruct (IH H) as (A & B & ->). by exists (c :: A), B.
Qed.

Lemma includes_iff (q s : jsstring) :
  JS.includes q s = true ↔ ∃ A B, s = A ++ q ++ B.
Proof.
  split; [apply includes_inv|]. intros (A & B & ->). apply includes_app.
Qed.

Lemma framed_of_includes (b1 : N) (X : jsstring) (b2 : N) (s : jsstring) :
  JS.includes (b1 :: X ++ [b2]) s = true → framed b1 X b2 s.
Proof.
  intros (A & B & ->)%includes_inv. exists A, B.
  by rewrite <- !app_comm_cons, <- app_assoc.
Qed.

Lemma framed_includes (b1 : N) (X : jsstring) (b2 : N) (s : jsstring) :
  framed b1 X b2 s → JS.includes X s = true.
Proof.
  intros (A & B & ->). apply includes_iff. exists (A ++ [b1]), (b2 :: B).
  by rewrite <- app_assoc.
Qed.

Lemma includes_longer (a b s : jsstring) :
  JS.includes (a ++ b) s = true → JS.includes a s = true.
Proof.
  intros (A & B & ->)%includes_inv. apply includes_iff.
  exists A, (b ++ B). by rewrite <- app_assoc.
Qed.

Lemma placeholderText_nonempty (name : jsstring) :
  Pat.placeholderText name ≠ [].
Proof. done. Qed.

Lemma fill_keeps (name value : jsstring) (b1 : N) (X : jsstring) (b2 : N)
    (s : jsstring) :
  b1 ∉ Pat.placeholderText name → b2 ∉ Pat.placeholderText name →
  JS.includes (Pat.placeholderText name) X = false →
  framed b1 X b2 s → framed b1 X b2 (fill name value s).
Proof.
  intros Hb1 Hb2 Hfree (A & B & ->).
  unfold fill, Re.replaceAll, Pat.placeholder.
  apply replace_keeps; try done. lia.
Qed.

Lemma fill_hole (name value : jsstring) (b1 b2 : N) (s : jsstring) :
  b1 ∉ Pat.placeholderText name → b2 ∉ Pat.placeholderText name →
  36%N ∉ value →
  framed b1 (Pat.placeholderText name) b2 s →
  framed b1 value b2 (fill name value s).
Proof.
  intros Hb1 Hb2 Hvalue (A & B & ->).
  unfold fill, Re.replaceAll, Pat.placeholder.
  apply replace_hole; try done. lia.
Qed.

Definition fillStep (readme : jsstring) (sub : jsstring * jsstring)
    : jsstring :=
  let '(name, value) := sub in fill name value readme.

Lemma fills_keep (subs : list (jsstring * jsstring)) (b1 : N) (X : jsstring)
    (b2 : N) (s : jsstring) :
  Forall (λ name, (b1 ∉ Pat.placeholderText name)
                  ∧ (b2 ∉ Pat.placeholderText name)
                  ∧ JS.includes (Pat.placeholderText name) X = false)
         subs.*1 →
  framed b1 X b2 s → framed b1 X b2 (foldl fillStep s subs).
Proof.
  revert s. induction subs as [|[name value] subs IH]; intros s Hall Hs;
    [done|].
  apply Forall_cons in Hall as [(Hb1 & Hb2 & Hfree) Hall].
  cbn [foldl fillStep]. apply IH; [done|]. by apply fill_keeps.
Qed.

(** The value put in the place of a placeholder that stands in the
    template between two code units foreign to all placeholders is part
    of the filled template, when the value holds neither a dollar sign
    nor the opening of a placeholder. *)
Lemma fill_template_contains (subs1 : list (jsstring * jsstring))
    (name value : jsstring) (subs2 : list (jsstring * jsstring))
    (template : jsstring) (b1 b2 : N) :
  framed b1 (Pat.placeholderText name) b2 template →
  Forall (λ n, (b1 ∉ Pat.placeholderText n) ∧ (b2 ∉ Pat.placeholderText n))
         (subs1.*1 ++ name :: subs2.*1) →
  Forall (λ n, JS.includes (Pat.placeholderText n) (Pat.placeholderText name)
               = false) subs1.*1 →
  36%N ∉ value → JS.includes (str "{{") value = false →
  JS.includes value
    (foldl fillStep template (subs1 ++ (name, value) :: subs2)) = true.
Proof.
  intros Hframed Hforeign Hdistinct Hdollar Hbraces.
  apply Forall_app in Hforeign as [Hforeign1 Hforeign2].
  apply Forall_cons in Hforeign2 as [[Hb1 Hb2] Hforeign2].
  rewrite foldl_app. cbn [foldl fillStep].
  apply (framed_includes b1 _ b2), fills_keep.
  - rewrite Forall_forall in Hforeign2 |- *. intros n Hn.
    destruct (Hforeign2 n Hn) as [? ?]. do 2 (split; [done|]).
    destruct (JS.includes (Pat.placeholderText n) value) eqn:E; [|done].
    unfold Pat.placeholderText in E. apply includes_longer in E. congruence.
  - apply fill_hole; try done. apply fills_keep; [|done].
    rewrite Forall_forall in Hforeign1, Hdistinct |- *. intros n Hn.
    destruct (Hforeign1 n Hn) as [? ?]. auto.
Qed.

Lemma fillTemplate_fold (toLowerCase : jsstring → jsstring)
    (template : jsstring) (pluginInfo : PluginInfo.t) :
  fillTemplate toLowerCase template pluginInfo
  = foldl fillStep template (substitutions toLowerCase pluginInfo).
Proof. reflexivity. Qed.

Lemma fill_template_contains_at (subs : list (jsstring * jsstring))
    (k : nat) (name value template : jsstring) (b1 b2 : N) :
  subs !! k = Some (name, value) →
  framed b1 (Pat.placeholderText name) b2 template →
  Forall (λ n, (b1 ∉ Pat.placeholderText n) ∧ (b2 ∉ Pat.placeholderText n))
         subs.*1 →
  Forall (λ n, JS.includes (Pat.placeholderText n) (Pat.placeholderText name)
               = false) (take k subs.*1) →
  36%N ∉ value → JS.includes (str "{{") value = false →
  JS.includes value (foldl fillStep template subs) = true.
Proof.
  intros Hk Hframed Hforeign Hdistinct Hdollar Hbraces.
  rewrite <- (take_drop_middle subs k (name, value) Hk).
  apply (fill_template_contains _ _ _ _ _ b1 b2); try done.
  - rewrite <- (take_drop_middle subs k (name, value) Hk) in Hforeign.
    by rewrite fmap_app, fmap_cons in Hforeign.
  - by rewrite fmap_take.
Qed.

(** The names of the placeholders, in the order of their replacement. *)
Definition placeholderNames : list jsstring :=
  [str "PLUGIN_NAME"; str "PLUGIN_DESCRIPTION"; str "PACKAGE_NAME";
   str "REPOSITORY_URL"; str "ENV_VARS"; str "ACTIONS_LIST";
   str "SERVICES_LIST"; str "PROVIDERS_LIST"; str "ACTIONS_DETAILED";
   str "SERVICES_DETAILED"; str "PROVIDERS_DETAILED"].

Lemma substitutions_names (toLowerCase : jsstring → jsstring)
    (pluginInfo : PluginInfo.t) :
  (substitutions toLowerCase pluginInfo).*1 = placeholderNames.
Proof. reflexivity. Qed.

(** A closed decidable statement, settled by evaluation. *)
Ltac by_compute := apply (bool_decide_unpack _); vm_compute; exact I.

Lemma placeholders_foreign (b : N) :
  b = 10%N ∨ b = 32%N →
  Forall (λ n, b ∉ Pat.placeholderText n) placeholderNames.
Proof. intros [-> | ->]; by_compute. Qed.

(** The filled template holds the value of every placeholder of the
    template, if the value has no dollar sign and no opening of a
    placeholder in it. *)
Lemma fillTemplate_contains (toLowerCase : jsstring → jsstring)
    (pluginInfo : PluginInfo.t) (name value : jsstring) :
  (name, value) ∈ substitutions toLowerCase pluginInfo →
  JS.includes (Pat.placeholderText name) readmeTemplate = true →
  36%N ∉ value → JS.includes (str "{{") value = false →
  JS.includes value (fillTemplate toLowerCase readmeTemplate pluginInfo)
  = true.
Proof.
  intros [k Hk]%list_elem_of_lookup Hocc Hdollar Hbraces.
  rewrite fillTemplate_fold.
  assert (k < 11) as Hlt.
  { apply lookup_lt_Some in Hk. exact Hk. }
  assert (∀ b1, (b1 = 10%N ∨ b1 = 32%N) →
            Forall (λ n, (b1 ∉ Pat.placeholderText n)
                         ∧ (10%N ∉ Pat.placeholderText n))
                   (substitutions toLowerCase pluginInfo).*1) as Hforeign.
  { intros b1 Hb1. rewrite substitutions_names.
    pose proof (placeholders_foreign b1 Hb1) as H1.
    pose proof (placeholders_foreign 10%N (or_introl eq_refl)) as H2.
    rewrite Forall_forall in H1, H2 |- *. auto. }
  do 11 (destruct k as [|k]; [
    match type of Hk with
    | ?subs !! ?i = Some _ =>
        cbn in Hk; injection Hk as <- <-;
        first
          [ by (vm_compute in Hocc; discriminate Hocc)
          | eapply (fill_template_contains_at subs i _ _ _ 32%N 10%N);
              [reflexivity
              |apply framed_of_includes; vm_compute; reflexivity
              |apply Hforeign; by right
              |rewrite substitutions_names; by_compute
              |done|done]
          | eapply (fill_template_contains_at subs i _ _ _ 10%N 10%N);
              [reflexivity
              |apply framed_of_includes; vm_compute; reflexivity
              |apply Hforeign; by left
              |rewrite substitutions_names; by_compute
              |done|done] ]
    end
  |]).
  simpl in Hlt. lia.
Qed.

(** ** Trimming *)

Lemma trimStart_keeps (A X : jsstring) (x : N) (X' : jsstring) :
  X = x :: X' → JS.isSpace x = false →
  ∃ A', JS.trimStart (A ++ X) = A' ++ X.
Proof.
  intros -> Hx. induction A as [|a A IH].
  - exists []. cbn. by rewrite Hx.
  - cbn [app JS.trimStart]. destruct (JS.isSpace a); [done|].
    by exists (a :: A).
Qed.

(** A text that neither starts nor ends with white space stays in the
    trimmed string. *)
Lemma trim_keeps (A X B : jsstring) (x y : N) :
  head X = Some x → last X = Some y →
  JS.isSpace x = false → JS.isSpace y = false →
  ∃ A' B', JS.trim (A ++ X ++ B) = A' ++ X ++ B'.
Proof.
  intros Hhead Hlast Hx Hy.
  destruct X as [|x0 X']; [done|]. injection Hhead as ->.
  destruct (trimStart_keeps A ((x :: X') ++ B) x (X' ++ B)) as [A' HA];
    [done|done|].
  unfold JS.trim, JS.trimEnd. rewrite HA.
  rewrite !rev_app_distr.
  assert (∃ R', rev (x :: X') = y :: R') as [R' HR].
  { apply last_Some in Hlast as [L ->]. exists (rev L).
    by rewrite rev_app_distr. }
  rewrite <- app_assoc.
  destruct (trimStart_keeps (rev B) (rev (x :: X') ++ rev A') y (R' ++ rev A'))
    as [B' HB]; [by rewrite HR|done|].
  rewrite HB. exists A', (rev B').
  by rewrite !rev_app_distr, !rev_involutive, <- app_assoc.
Qed.

(** ** The fixed part of the template *)

(** A stretch of the template that holds no brace: from the second step
    of the local development instructions to the fourth step of the
    development workflow. *)
Definition fixedStretch : jsstring := take 531 (drop 2056 readmeTemplate).

Lemma fillTemplate_keeps_stretch (toLowerCase : jsstring → jsstring)
    (pluginInfo : PluginInfo.t) :
  framed 10%N fixedStretch 10%N
    (fillTemplate toLowerCase readmeTemplate pluginInfo).
Proof.
  rewrite fillTemplate_fold. apply fills_keep.
  - rewrite substitutions_names. by_compute.
  - apply framed_of_includes. vm_compute. reflexivity.
Qed.

(** The filled template is never short: trimmed, it still holds the
    fixed stretch. *)
Lemma fillTemplate_long (toLowerCase : jsstring → jsstring)
    (pluginInfo : PluginInfo.t) :
  531 ≤ length (JS.trim (fillTemplate toLowerCase readmeTemplate pluginInfo))
  ∧ 531 ≤ length (fillTemplate toLowerCase readmeTemplate pluginInfo).
Proof.
  destruct (fillTemplate_keeps_stretch toLowerCase pluginInfo)
    as (A & B & ->).
  assert (length fixedStretch = 531) as Hlen by by vm_compute.
  split.
  - replace (A ++ 10%N :: fixedStretch ++ 10%N :: B)
      with ((A ++ [10%N]) ++ fixedStretch ++ 10%N :: B)
      by by rewrite <- app_assoc.
    destruct (trim_keeps (A ++ [10%N]) fixedStretch (10%N :: B) 96%N 41%N)
      as (A' & B' & ->); try by vm_compute.
    rewrite !length_app. lia.
  - rewrite length_app. cbn [length]. rewrite length_app. lia.
Qed.

(** ** The answer of the hosted model and the fallback *)

Lemma run_generateReadmeFromTemplate (w : World) (pluginInfo : PluginInfo.t)
    (templatePath template : jsstring) (s : state) :
  Fs.readFile (disk s) templatePath = Some template →
  generateReadmeFromTemplate w pluginInfo templatePath s
  = (Returned (fillTemplate (toLowerCase w) template pluginInfo), s).
Proof.
  intros Hread. unfold generateReadmeFromTemplate.
  by rewrite run_bind, run_readFile, Hread.
Qed.

(** When the try block of [generateReadmeWithAI] throws after the
    template was read, the error is logged and the filled template is
    returned. *)
Lemma run_fallback (w : World) (pluginInfo : PluginInfo.t)
    (templatePath existingReadme template error : jsstring) (s : state) :
  Fs.readFile (disk s) templatePath = Some template →
  (chatCompletion w pluginInfo template existingReadme = Rejected error
   ∨ ∃ content,
       chatCompletion w pluginInfo template existingReadme = Answer content
       ∧ length (JS.trim (default [] content)) < 500
       ∧ error = INSUFFICIENT) →
  generateReadmeWithAI w pluginInfo templatePath existingReadme s
  = (Returned (fillTemplate (toLowerCase w) template pluginInfo),
     State (disk s)
       (trace s ++ [ConsoleError (str "OpenAI error:") error])).
Proof.
  intros Hread Hchat. unfold generateReadmeWithAI, tryCatch.
  rewrite run_bind, run_readFile, Hread.
  destruct Hchat as [->|(content & -> & Hshort & ->)].
  - change (throw error s) with (Thrown (A:=jsstring) error, s). cbv iota.
    rewrite run_bind, run_emit.
    by apply run_generateReadmeFromTemplate.
  - cbv zeta. apply Nat.ltb_lt in Hshort. rewrite Hshort, orb_true_r.
    change (throw INSUFFICIENT s) with (Thrown (A:=jsstring) INSUFFICIENT, s).
    cbv iota. rewrite run_bind, run_emit.
    by apply run_generateReadmeFromTemplate.
Qed.

(** C5: an answer whose trimmed content is shorter than 500 code units,
    a missing content included, is not returned: the error of the
    rejection is logged and the result is the filled template; with the
    template of the repository that result is neither the content of the
    answer nor its trimmed form. *)
Theorem short_answer_falls_back (w : World) (pluginInfo : PluginInfo.t)
    (templatePath existingReadme template : jsstring)
    (content : option jsstring) (s : state) :
  Fs.readFile (disk s) templatePath = Some template →
  chatCompletion w pluginInfo template existingReadme = Answer content →
  length (JS.trim (default [] content)) < 500 →
  let fallback := fillTemplate (toLowerCase w) template pluginInfo in
  generateReadmeWithAI w pluginInfo templatePath existingReadme s
  = (Returned fallback,
     State (disk s)
       (trace s ++ [ConsoleError (str "OpenAI error:") INSUFFICIENT]))
  ∧ (template = readmeTemplate →
     fallback ≠ default [] content ∧ fallback ≠ JS.trim (default [] content)).
Proof.
  intros Hread Hchat Hshort fallback. split.
  - apply run_fallback; [done|]. right. by exists content.
  - intros ->. unfold fallback.
    destruct (fillTemplate_long (toLowerCase w) pluginInfo) as [Htrim Hlen].
    split; intros Heq; rewrite Heq in *; lia.
Qed.

(** What the fallback holds: when the call of the hosted model throws,
    [generateReadmeWithAI] logs the error and returns the filled
    template; the result is not empty, and it holds the value of every
    placeholder of the template whose value has no dollar sign and no
    opening of a placeholder in it, the package name among them. *)
Theorem fallback_contains_values (w : World) (pluginInfo : PluginInfo.t)
    (templatePath existingReadme error : jsstring) (s : state) :
  Fs.readFile (disk s) templatePath = Some readmeTemplate →
  chatCompletion w pluginInfo readmeTemplate existingReadme = Rejected error →
  let readme := fillTemplate (toLowerCase w) readmeTemplate pluginInfo in
  generateReadmeWithAI w pluginInfo templatePath existingReadme s
  = (Returned readme,
     State (disk s) (trace s ++ [ConsoleError (str "OpenAI error:") error]))
  ∧ readme ≠ []
  ∧ (∀ name value,
       (name, value) ∈ substitutions (toLowerCase w) pluginInfo →
       JS.includes (Pat.placeholderText name) readmeTemplate = true →
       36%N ∉ value → JS.includes (str "{{") value = false →
       JS.includes value readme = true)
  ∧ (36%N ∉ PluginInfo.packageName pluginInfo →
     JS.includes (str "{{") (PluginInfo.packageName pluginInfo) = false →
     JS.includes (PluginInfo.packageName pluginInfo) readme = true).
Proof.
  intros Hread Hchat readme. split; [|split; [|split]].
  - apply run_fallback; [done|]. by left.
  - destruct (fillTemplate_long (toLowerCase w) pluginInfo) as [_ Hlen].
    unfold readme. intros Heq. rewrite Heq in Hlen. simpl in Hlen. lia.
  - intros name value. apply fillTemplate_contains.
  - apply (fillTemplate_contains _ _ (str "PLUGIN_NAME")).
    + apply list_elem_of_here.
    + by vm_compute.
Qed.

Lemma fallback_contains_values_witness :
  let readme :=
    fillTemplate (toLowerCase Sample.localWorld) readmeTemplate Sample.pluginX in
  generateReadmeWithAI Sample.localWorld Sample.pluginX
    (README_TEMPLATE_PATH Sample.localWorld) [] Sample.start
  = (Returned readme,
     State (disk Sample.start)
       (trace Sample.start
        ++ [ConsoleError (str "OpenAI error:") (str "429 Too Many Requests")]))
  ∧ readme ≠ []
  ∧ (∀ name value,
       (name, value)
       ∈ substitutions (toLowerCase Sample.localWorld) Sample.pluginX →
       JS.includes (Pat.placeholderText name) readmeTemplate = true →
       36%N ∉ value → JS.includes (str "{{") value = false →
       JS.includes value readme = true)
  ∧ (36%N ∉ PluginInfo.packageName Sample.pluginX →
     JS.includes (str "{{") (PluginInfo.packageName Sample.pluginX) = false →
     JS.includes (PluginInfo.packageName Sample.pluginX) readme = true).
Proof.
  apply (fallback_contains_values Sample.localWorld Sample.pluginX
           (README_TEMPLATE_PATH Sample.localWorld) []
           (str "429 Too Many Requests") Sample.start).
  - by vm_compute.
  - reflexivity.
Defined.

(** The example of the specification: the fallback for the plugin
    [@elizaos/plugin-x] holds that name. *)
Example fallback_holds_plugin_x :
  JS.includes (str "@elizaos/plugin-x")
    (fillTemplate Sample.lowerAscii readmeTemplate Sample.pluginX) = true.
Proof. by vm_compute. Qed.

(** C2: for the package name [@elizaos/plugin-$$] the call throws and
    the fallback is returned, but it does not hold the package name.
    The name is handed to [replace] as the replacement text, in which
    two dollar signs stand for one, so that the document holds
    [@elizaos/plugin-$] in its place. *)
Lemma fallback_omits_dollar_name :
  ∃ readme s',
    chatCompletion Sample.localWorld Sample.dollarInfo readmeTemplate []
    = Rejected (str "429 Too Many Requests")
    ∧ generateReadmeWithAI Sample.localWorld Sample.dollarInfo
        (README_TEMPLATE_PATH Sample.localWorld) [] Sample.start
      = (Returned readme, s')
    ∧ PluginInfo.packageName Sample.dollarInfo ≠ []
    ∧ JS.includes (PluginInfo.packageName Sample.dollarInfo) readme = false
    ∧ JS.includes (str "@elizaos/plugin-$") readme = true.
Proof.
  eexists _, _. split; [reflexivity|]. split.
  - apply run_fallback; [by vm_compute|]. by left.
  - split; [done|]. split; by vm_compute.
Qed.

Lemma short_answer_falls_back_witness :
  let fallback :=
    fillTemplate (toLowerCase Sample.shortWorld) readmeTemplate Sample.pluginX in
  generateReadmeWithAI Sample.shortWorld Sample.pluginX
    (README_TEMPLATE_PATH Sample.shortWorld) [] Sample.start
  = (Returned fallback,
     State (disk Sample.start)
       (trace Sample.start
        ++ [ConsoleError (str "OpenAI error:") INSUFFICIENT]))
  ∧ (readmeTemplate = readmeTemplate →
     fallback ≠ default [] (Some (str "# plugin-x"))
     ∧ fallback ≠ JS.trim (default [] (Some (str "# plugin-x")))).
Proof.
  apply (short_answer_falls_back Sample.shortWorld Sample.pluginX
           (README_TEMPLATE_PATH Sample.shortWorld) [] readmeTemplate
           (Some (str "# plugin-x")) Sample.start).
  - by vm_compute.
  - reflexivity.
  - vm_compute. lia.
Defined.

(** ** The names of the extracted actions *)

Example alias_resolved :
  Sample.actionNames Sample.aliasIndex = [str "transferAction"].
Proof. by vm_compute. Qed.


Example inline_object_recorded :
  Sample.actionNames
    (JS.join nl
       [str "import { transferAction as sendToken } from './actions';";
        str "export default { actions: [sendToken, { name: 'sendToken' }] };"])
  = [str "transferAction"; str "name"; str "transferAction";
     str "sendToken"].
Proof. by vm_compute. Qed.





Section References.
Variables (d : Fs.disk) (repoPath : jsstring) (type : ComponentType).
Variable table : gmap jsstring jsstring.



End References.






(** * Further properties of the two scripts *)

(** ** What [generateReadme] returns *)

(** [logs P m]: [m] returns, leaves the disk as it is, and adds to the
    trace only events that satisfy [P]. *)
Definition logs {A} (P : event → Prop) (m : M A) : Prop :=
  ∀ s, ∃ a evs,
    m s = (Returned a, State (disk s) (trace s ++ evs)) ∧ Forall P evs.

Lemma logs_ret {A} (P : event → Prop) (a : A) : logs P (ret a).
Proof.
  intros [d t]. exists a, []. split; [|done]. cbn. by rewrite app_nil_r.
Qed.

Lemma logs_emit (P : event → Prop) (e : event) : P e → logs P (emit e).
Proof. intros He s. exists (), [e]. split; [done|]. by constructor. Qed.

Lemma logs_bind {A B} (P : event → Prop) (m : M A) (k : A → M B) :
  logs P m → (∀ a, logs P (k a)) → logs P (m ≫= k).
Proof.
  intros Hm Hk s. rewrite run_bind.
  destruct (Hm s) as (a & evs1 & -> & Hall1).
  destruct (Hk a (State (disk s) (trace s ++ evs1))) as (b & evs2 & -> & Hall2).
  exists b, (evs1 ++ evs2). cbn. rewrite app_assoc. split; [done|].
  by apply Forall_app.
Qed.

Lemma logs_when (P : event → Prop) (b : bool) (m : M unit) :
  logs P m → logs P (when b m).
Proof. destruct b; [done|]. intros _. apply logs_ret. Qed.

Definition isWarning (e : event) : Prop :=
  match e with ConsoleWarn _ => True | _ => False end.

(** The checks of an answer against the existing README print warnings
    and do nothing else. *)
Lemma logs_validateAgainst (existingReadme readme : jsstring) :
  logs isWarning (validateAgainst existingReadme readme).
Proof.
  unfold validateAgainst. apply logs_when.
  apply logs_bind; [apply logs_when|intros _].
  { apply logs_bind; [by apply logs_emit|intros _]. by apply logs_emit. }
  apply logs_when.
  apply logs_bind; [by apply logs_emit|intros _].
  apply logs_bind; [|intros _; by apply logs_emit].
  induction (filter _ importantSections) as [|section rest IH]; cbn [foldr].
  - apply logs_ret.
  - apply logs_bind; [by apply logs_emit|intros _]. exact IH.
Qed.

Lemma validateAgainst_blank (existingReadme readme : jsstring) (s : state) :
  JS.trim existingReadme = [] →
  validateAgainst existingReadme readme s = (Returned (), s).
Proof.
  intros Hblank. unfold validateAgainst. rewrite Hblank. cbn [length].
  by rewrite andb_false_r.
Qed.

(** The three lines of the preview of an accepted answer. *)
Definition previewOf (readme : jsstring) : list event :=
  [ConsoleLog (nl ++ str "=== GENERATED README PREVIEW (first 500 chars) ===");
   ConsoleLog (take 500 readme ++ str "...");
   ConsoleLog (str "=== END PREVIEW ===" ++ nl)].

Lemma run_accepted (w : World) (pluginInfo : PluginInfo.t)
    (templatePath existingReadme template content : jsstring) (s : state) :
  Fs.readFile (disk s) templatePath = Some template →
  chatCompletion w pluginInfo template existingReadme = Answer (Some content) →
  500 ≤ length (JS.trim content) →
  ∃ warnings,
    generateReadmeWithAI w pluginInfo templatePath existingReadme s
    = (Returned (JS.trim content),
       State (disk s) (trace s ++ warnings ++ previewOf content))
    ∧ Forall isWarning warnings
    ∧ (JS.trim existingReadme = [] → warnings = []).
Proof.
  intros Hread Hchat Hlong. unfold generateReadmeWithAI, tryCatch.
  rewrite run_bind, run_readFile, Hread, Hchat. cbn [default from_option id].
  assert (JS.truthy content = true) as ->.
  { destruct content; [|done]. cbn in Hlong. lia. }
  assert ((length (JS.trim content) <? 500) = false) as ->
    by by apply Nat.ltb_ge.
  cbn [negb orb]. rewrite run_bind.
  destruct (logs_validateAgainst existingReadme content s)
    as ([] & warnings & Hrun & Hall).
  exists warnings. split; [|split; [done|]].
  - rewrite Hrun. repeat (rewrite run_bind, run_emit). cbn [disk trace].
    unfold previewOf. by rewrite <- !app_assoc.
  - intros Hblank. rewrite validateAgainst_blank in Hrun by done.
    injection Hrun as Hrun. destruct s as [d t]. cbn in Hrun.
    injection Hrun as Hrun.
    apply (f_equal length) in Hrun. rewrite length_app in Hrun.
    destruct warnings; [done|]. cbn in Hrun. lia.
Qed.

Lemma run_tryCatch {A} (m : M A) (handler : jsstring → M A) (s : state) :
  tryCatch m handler s
  = match m s with
    | (Returned a, s') => (Returned a, s')
    | (Thrown error, s') => handler error s'
    end.
Proof. reflexivity. Qed.

Lemma tryCatch_rethrow {A} (m : M A) (s : state) :
  tryCatch m (λ error, throw error) s = m s.
Proof. rewrite run_tryCatch. by destruct (m s) as [[a|error] s']. Qed.

(** [generateReadme] in terms of the two generators. *)
Lemma run_generateReadme (w : World) (pluginInfo : PluginInfo.t)
    (templatePath existingReadme : jsstring) (s : state) :
  generateReadme w pluginInfo templatePath existingReadme s
  = if JS.truthy (default [] (OPENAI_API_KEY w)) && negb (NO_AI w) then
      match generateReadmeWithAI w pluginInfo templatePath existingReadme s with
      | (Returned readme, s') => (Returned readme, s')
      | (Thrown error, s') =>
          generateReadmeFromTemplate w pluginInfo templatePath
            (State (disk s') (trace s' ++ [ConsoleError (str "AI error:") error]))
      end
    else generateReadmeFromTemplate w pluginInfo templatePath s.
Proof.
  unfold generateReadme. rewrite tryCatch_rethrow, run_bind.
  destruct (JS.truthy (default [] (OPENAI_API_KEY w)) && negb (NO_AI w));
    [|done].
  rewrite run_tryCatch, run_bind.
  by destruct (generateReadmeWithAI _ _ _ _ s) as [[readme|error] s'].
Qed.

(** The README of a plugin is the trimmed answer of the hosted model
    when the model is consulted (a key is set and [--no-ai] is not) and
    answers with at least 500 code units after trimming, and it is the
    filled template in every other case: the model is not consulted,
    the call fails, or the answer is missing or shorter.
    [generateReadme] throws when the template cannot be read and then
    only, and it never changes the disk. *)
Theorem generateReadme_outcome (w : World) (pluginInfo : PluginInfo.t)
    (templatePath existingReadme : jsstring) (s : state) :
  let result := generateReadme w pluginInfo templatePath existingReadme s in
  disk result.2 = disk s
  ∧ match Fs.readFile (disk s) templatePath with
    | Some template =>
        let filled := fillTemplate (toLowerCase w) template pluginInfo in
        let consulted :=
          JS.truthy (default [] (OPENAI_API_KEY w)) && negb (NO_AI w) in
        result.1
        = Returned
            (if consulted then
               match chatCompletion w pluginInfo template existingReadme with
               | Answer (Some content) =>
                   if length (JS.trim content) <? 500 then filled
                   else JS.trim content
               | _ => filled
               end
             else filled)
    | None => ∃ error, result.1 = Thrown error
    end.
Proof.
  cbv zeta. rewrite run_generateReadme.
  destruct (Fs.readFile (disk s) templatePath) as [template|] eqn:Hread.
  - destruct (JS.truthy (default [] (OPENAI_API_KEY w)) && negb (NO_AI w)).
    2: { by rewrite (run_generateReadmeFromTemplate _ _ _ _ _ Hread). }
    destruct (chatCompletion w pluginInfo template existingReadme)
      as [error|[content|]] eqn:Hchat.
    + by rewrite (run_fallback w pluginInfo templatePath existingReadme
                    template error s Hread) by by left.
    + destruct (Nat.ltb_spec (length (JS.trim content)) 500) as [Hshort|Hlong].
      * by rewrite (run_fallback w pluginInfo templatePath existingReadme
                      template INSUFFICIENT s Hread)
          by (right; by exists (Some content)).
      * by destruct (run_accepted w pluginInfo templatePath existingReadme
                       template content s Hread Hchat Hlong)
          as (warnings & -> & _).
    + by rewrite (run_fallback w pluginInfo templatePath existingReadme
                    template INSUFFICIENT s Hread)
        by (right; exists None; split; [done|]; split; [cbn; lia|done]).
  - assert (Hfrom : ∀ s', disk s' = disk s →
              generateReadmeFromTemplate w pluginInfo templatePath s'
              = (Thrown (str "ENOENT: " ++ templatePath), s')).
    { intros s' Hdisk. unfold generateReadmeFromTemplate.
      by rewrite run_bind, run_readFile, Hdisk, Hread. }
    destruct (JS.truthy (default [] (OPENAI_API_KEY w)) && negb (NO_AI w)).
    + unfold generateReadmeWithAI. rewrite run_tryCatch.
      rewrite run_bind, run_readFile, Hread, run_bind, run_emit.
      rewrite Hfrom by done. rewrite Hfrom by done.
      split; [done|]. by eexists.
    + rewrite Hfrom by done. split; [done|]. by eexists.
Qed.

(** An answer of at least 500 code units after trimming is returned
    trimmed, whatever the existing README is: the checks against it add
    warnings to the console and nothing else, and none when there is no
    existing README; the three lines of the preview follow.  It is then
    also what [generateReadme] returns when it consults the model. *)
Theorem accepted_answer_returned (w : World) (pluginInfo : PluginInfo.t)
    (templatePath existingReadme template content : jsstring) (s : state) :
  Fs.readFile (disk s) templatePath = Some template →
  chatCompletion w pluginInfo template existingReadme = Answer (Some content) →
  500 ≤ length (JS.trim content) →
  ∃ warnings,
    let result :=
      (Returned (JS.trim content),
       State (disk s) (trace s ++ warnings ++ previewOf content)) in
    generateReadmeWithAI w pluginInfo templatePath existingReadme s = result
    ∧ (NO_AI w = false →
       JS.truthy (default [] (OPENAI_API_KEY w)) = true →
       generateReadme w pluginInfo templatePath existingReadme s = result)
    ∧ Forall isWarning warnings
    ∧ (JS.trim existingReadme = [] → warnings = []).
Proof.
  intros Hread Hchat Hlong.
  destruct (run_accepted w pluginInfo templatePath existingReadme template
              content s Hread Hchat Hlong) as (warnings & Hrun & Hall & Hnone).
  exists warnings. cbv zeta. split; [done|]. split; [|done].
  intros Hnoai Hkey. by rewrite run_generateReadme, Hkey, Hnoai, Hrun.
Qed.

Lemma accepted_answer_returned_witness :
  ∃ warnings,
    let result :=
      (Returned (JS.trim readmeTemplate),
       State Sample.disk ([] ++ warnings ++ previewOf readmeTemplate)) in
    generateReadmeWithAI Sample.longWorld Sample.pluginX
      (README_TEMPLATE_PATH Sample.longWorld) [] Sample.start
    = result
    ∧ (NO_AI Sample.longWorld = false →
       JS.truthy (default [] (OPENAI_API_KEY Sample.longWorld)) = true →
       generateReadme Sample.longWorld Sample.pluginX
         (README_TEMPLATE_PATH Sample.longWorld) [] Sample.start
       = result)
    ∧ Forall isWarning warnings
    ∧ (JS.trim [] = [] → warnings = []).
Proof.
  apply (accepted_answer_returned Sample.longWorld Sample.pluginX
           (README_TEMPLATE_PATH Sample.longWorld) [] readmeTemplate
           readmeTemplate Sample.start).
  - by vm_compute.
  - reflexivity.
  - vm_compute. lia.
Defined.

(** ** The steps of a pull request *)

Lemma run_exec (w : World) (command dir : jsstring) (s : state) :
  exec w command dir s
  = (if execSync w command dir then Returned ()
     else Thrown (str "Command failed: " ++ command),
     State (disk s) (trace s ++ [Exec command dir])).
Proof.
  unfold exec. rewrite run_bind, run_emit. by destruct (execSync w command dir).
Qed.

Lemma run_writeFile (p content : jsstring) (s : state) :
  writeFile p content s
  = match Fs.writeFile (disk s) p content with
    | Some d' => (Returned (), State d' (trace s ++ [WriteFile p content]))
    | None => (Thrown (str "ENOENT: " ++ p),
               State (disk s) (trace s ++ [WriteFile p content]))
    end.
Proof.
  unfold writeFile. rewrite run_bind, run_emit, run_bind. cbn [getDisk disk].
  rewrite run_bind. by destruct (Fs.writeFile (disk s) p content).
Qed.

(** What [createPullRequest] does outside the local mode, in order. *)
Definition remoteSteps (w : World) (repoName readme : jsstring) : list event :=
  let branchName := str "update-readme-" ++ now w in
  let repoPath := Path.join [cwd w; str "temp"; repoName] in
  [Exec (str "git checkout -b " ++ branchName) repoPath;
   WriteFile (Path.join [repoPath; str "README.md"]) readme;
   Exec (str "git add README.md") repoPath;
   Exec (str "git commit -m " ++ [dquote]
         ++ str "docs: update README with comprehensive documentation"
         ++ [dquote]) repoPath;
   Exec (str "git push origin " ++ branchName) repoPath;
   PullsCreate repoName branchName].

(** Whether each of these steps succeeds, on the disk on which
    [createPullRequest] starts: the commands by their exit status, the
    write by the disk, the request by the answer of the hosting
    service. *)
Definition remoteOutcomes (w : World) (repoName readme : jsstring)
    (d : Fs.disk) : list bool :=
  let branchName := str "update-readme-" ++ now w in
  let repoPath := Path.join [cwd w; str "temp"; repoName] in
  [execSync w (str "git checkout -b " ++ branchName) repoPath;
   if Fs.writeFile d (Path.join [repoPath; str "README.md"]) readme is Some _
   then true else false;
   execSync w (str "git add README.md") repoPath;
   execSync w (str "git commit -m " ++ [dquote]
               ++ str "docs: update README with comprehensive documentation"
               ++ [dquote]) repoPath;
   execSync w (str "git push origin " ++ branchName) repoPath;
   if pullsCreate w repoName branchName is Some _ then true else false].

(** The number of steps that succeed before the first that fails. *)
Fixpoint succeeded (outcomes : list bool) : nat :=
  match outcomes with
  | true :: rest => S (succeeded rest)
  | _ => 0
  end.

(** The run ends at a step that fails: the pull request was not asked
    for. *)
Ltac stops :=
  cbn [succeeded take fst snd trace app orThrow ret throw length];
  eexists; split; [reflexivity|]; split; [reflexivity|];
  split; [done|];
  let Hin := fresh "Hin" in
  intros Hin;
  repeat (apply elem_of_cons in Hin as [Hin|Hin]; [discriminate Hin|]);
  by apply elem_of_nil in Hin.

(** Outside the local mode and with a token, [createPullRequest] goes
    through its six steps in order and stops at the first that fails:
    what it does is the steps that succeed before the first failure
    and the failing step itself, nothing after it.  It returns when all
    six succeed and throws otherwise; in particular the pull request is
    asked for only when the push, and every step before it, succeeded.
    Without a token it throws before the first step. *)
Theorem pull_request_steps (w : World) (repoName readme : jsstring)
    (s : state) :
  LOCAL_MODE w = false →
  let result := createPullRequest w repoName readme s in
  let steps := remoteSteps w repoName readme in
  let outcomes := remoteOutcomes w repoName readme (disk s) in
  let branchName := str "update-readme-" ++ now w in
  let repoPath := Path.join [cwd w; str "temp"; repoName] in
  if JS.truthy (default [] (GITHUB_TOKEN w)) then
    ∃ evs,
      trace result.2 = trace s ++ evs
      ∧ evs = take (S (succeeded outcomes)) steps
      ∧ (result.1 = Returned () ↔ succeeded outcomes = length steps)
      ∧ (PullsCreate repoName branchName ∈ evs →
         execSync w (str "git push origin " ++ branchName) repoPath = true)
  else ∃ error, result = (Thrown error, s).
Proof.
  intros Hlocal. cbv zeta. unfold createPullRequest. rewrite Hlocal.
  destruct (JS.truthy (default [] (GITHUB_TOKEN w))) eqn:Htoken;
    cbn [negb]; [|by eexists].
  rewrite tryCatch_rethrow. cbv zeta. unfold remoteSteps, remoteOutcomes.
  set (branchName := str "update-readme-" ++ now w).
  set (repoPath := Path.join [cwd w; str "temp"; repoName]).
  rewrite run_bind, run_exec. cbn [disk trace].
  destruct (execSync w (str "git checkout -b " ++ branchName) repoPath);
    [|stops].
  rewrite run_bind, run_writeFile. cbn [disk trace].
  destruct (Fs.writeFile _ _ readme) as [d1|]; rewrite <- app_assoc;
    [|stops].
  rewrite run_bind, run_exec. cbn [disk trace]. rewrite <- app_assoc.
  destruct (execSync w (str "git add README.md") repoPath); [|stops].
  rewrite run_bind, run_exec. cbn [disk trace]. rewrite <- app_assoc.
  destruct (execSync w (str "git commit -m " ++ _) repoPath); [|stops].
  rewrite run_bind, run_exec. cbn [disk trace]. rewrite <- app_assoc.
  destruct (execSync w (str "git push origin " ++ branchName) repoPath);
    [|stops].
  rewrite run_bind, run_emit. cbn [disk trace]. rewrite <- app_assoc.
  rewrite run_bind.
  destruct (pullsCreate w repoName branchName) as [number|];
    cbn [succeeded take fst snd trace app orThrow ret throw length];
    (eexists; split; [reflexivity|]; split; [reflexivity|]; by split).
Qed.

Lemma pull_request_steps_witness :
  let w := Sample.refusedPushWorld in
  let s := State Sample.clonedDisk [] in
  let result := createPullRequest w (str "plugin-x") (str "# plugin-x") s in
  let steps := remoteSteps w (str "plugin-x") (str "# plugin-x") in
  trace result.2 = take 5 steps ∧ result.1 ≠ Returned ().
Proof.
  cbv zeta.
  pose proof (pull_request_steps Sample.refusedPushWorld (str "plugin-x")
                (str "# plugin-x") (State Sample.clonedDisk []) eq_refl)
    as Hsteps.
  cbv zeta in Hsteps.
  change (JS.truthy (default [] (GITHUB_TOKEN Sample.refusedPushWorld)))
    with true in Hsteps.
  destruct Hsteps as (evs & Htrace & Hevs & Hreturns & _).
  assert (succeeded (remoteOutcomes Sample.refusedPushWorld (str "plugin-x")
                       (str "# plugin-x") Sample.clonedDisk) = 4)
    as Hfour by by vm_compute.
  cbn [disk] in Hevs, Hreturns. rewrite Hfour in Hevs, Hreturns. subst evs.
  split; [exact Htrace|].
  intros Hret. apply Hreturns in Hret. by vm_compute in Hret.
Defined.

(** ** Removal from the disk *)

Lemma findEntry_dropEntry (name : jsstring) (entries : list node) :
  Fs.findEntry name (Fs.dropEntry name entries) = None.
Proof.
  unfold Fs.findEntry, Fs.dropEntry.
  induction entries as [|e entries IH]; [done|].
  rewrite filter_cons. destruct (decide (Fs.nodeName e ≠ name)) as [Hne|He].
  - cbn [find]. by rewrite bool_decide_eq_false_2.
  - exact IH.
Qed.

Lemma findEntry_name (name : jsstring) (entries : list node) (n : node) :
  Fs.findEntry name entries = Some n → Fs.nodeName n = name.
Proof.
  unfold Fs.findEntry. intros H. apply find_some in H as [_ H].
  by apply bool_decide_eq_true in H.
Qed.

Lemma findEntry_putEntry (n : node) (entries : list node) :
  Fs.findEntry (Fs.nodeName n) (Fs.putEntry n entries) = Some n.
Proof.
  unfold Fs.findEntry. induction entries as [|e entries IH]; cbn.
  - by rewrite bool_decide_eq_true_2.
  - case_bool_decide as He; cbn.
    + by rewrite bool_decide_eq_true_2.
    + by rewrite bool_decide_eq_false_2.
Qed.

(** After the entry [base] of the directory at [parent] was dropped,
    or when that directory is not there, nothing is found at
    [parent ++ [base]]. *)
Lemma walk_dropped (base : jsstring) (parent : list jsstring) :
  ∀ (name : jsstring) (entries : list node),
    Fs.walk (parent ++ [base])
      (Dir name
         (default entries
            (Fs.update (λ entries, Some (Fs.dropEntry base entries))
                       parent entries)))
    = None.
Proof.
  induction parent as [|seg parent IH]; intros name entries.
  - cbn [Fs.update app Fs.walk default from_option id].
    by rewrite findEntry_dropEntry.
  - cbn [Fs.update app Fs.walk].
    destruct (Fs.findEntry seg entries) as [[fname content|dname sub]|]
      eqn:Hfind; cbn [default from_option id].
    + rewrite Hfind. by destruct parent.
    + pose proof (findEntry_name _ _ _ Hfind) as Hname. cbn in Hname.
      subst dname. specialize (IH seg sub).
      destruct (Fs.update _ parent sub) as [sub'|];
        cbn [default from_option id] in *.
      * by rewrite (findEntry_putEntry (Dir seg sub')).
      * by rewrite Hfind.
    + by rewrite Hfind.
Qed.

Lemma segments_snoc (p : jsstring) :
  Path.segments p ≠ [] →
  Path.segments p = Fs.parentSegments p ++ [Fs.baseName p].
Proof.
  unfold Fs.parentSegments, Fs.baseName. intros Hne.
  destruct (reverse (Path.segments p)) as [|base rest] eqn:Hrev.
  - apply (f_equal reverse) in Hrev. by rewrite reverse_involutive in Hrev.
  - cbn. apply (f_equal reverse) in Hrev.
    by rewrite reverse_involutive, reverse_cons in Hrev.
Qed.

(** A path that leads somewhere is gone once it was removed. *)
Lemma pathExists_remove (d : Fs.disk) (p : jsstring) :
  Path.segments p ≠ [] → Fs.pathExists (Fs.remove d p) p = false.
Proof.
  intros Hne. unfold Fs.pathExists, Fs.lookup.
  rewrite (segments_snoc p Hne). unfold Fs.remove. rewrite walk_dropped.
  apply bool_decide_eq_false_2. by intros [? ?].
Qed.

(** ** The temporary clone *)

Lemma bind_returned {A B} (m : M A) (k : A → M B) (s s'' : state) (b : B) :
  (m ≫= k) s = (Returned b, s'') →
  ∃ a s', m s = (Returned a, s') ∧ k a s' = (Returned b, s'').
Proof.
  rewrite run_bind. destruct (m s) as [[a|error] s']; [|done].
  intros H. by exists a, s'.
Qed.

Lemma run_remove (p : jsstring) (s : state) :
  remove p s
  = (Returned (), State (Fs.remove (disk s) p) (trace s ++ [Remove p])).
Proof. reflexivity. Qed.

Lemma segments_truthy (p : jsstring) : Path.segments p ≠ [] → JS.truthy p = true.
Proof. by destruct p. Qed.

(** The name under which an item is processed. *)
Definition repoNameOf (repoNameOrUrl : jsstring) : jsstring :=
  if isUrl repoNameOrUrl then default [] (repoNameOfUrl repoNameOrUrl)
  else repoNameOrUrl.

(** Where an item is cloned. *)
Definition tempDirOf (w : World) (repoNameOrUrl : jsstring) : jsstring :=
  Path.join [cwd w; str "temp"; repoNameOf repoNameOrUrl].

Lemma run_repoName (repoNameOrUrl : jsstring) (s : state) :
  (isUrl repoNameOrUrl = true → is_Some (repoNameOfUrl repoNameOrUrl)) →
  (if isUrl repoNameOrUrl
   then orThrow (repoNameOfUrl repoNameOrUrl) (invalidUrl repoNameOrUrl)
   else ret repoNameOrUrl) s
  = (Returned (repoNameOf repoNameOrUrl), s).
Proof.
  intros Hurl. unfold repoNameOf. destruct (isUrl repoNameOrUrl); [|done].
  by destruct Hurl as [repoName ->].
Qed.

(** The URL that is cloned. *)
Definition cloneUrlOf (repoNameOrUrl : jsstring) : jsstring :=
  if isUrl repoNameOrUrl then
    if JS.endsWith (str ".git") repoNameOrUrl then repoNameOrUrl
    else repoNameOrUrl ++ str ".git"
  else str "https://github.com/" ++ GITHUB_ORG ++ str "/" ++ repoNameOrUrl
       ++ str ".git".

(** What [cloneRepository] does: the place of the clone is cleared
    first; when [git clone] fails the error is thrown with the place
    left empty, else the clone is there. *)
Lemma run_cloneRepository (w : World) (repoNameOrUrl : jsstring) (s : state) :
  (isUrl repoNameOrUrl = true → is_Some (repoNameOfUrl repoNameOrUrl)) →
  let tempDir := tempDirOf w repoNameOrUrl in
  let cloneUrl := cloneUrlOf repoNameOrUrl in
  let t := trace s ++ [Remove tempDir;
                       Exec (str "git clone " ++ cloneUrl ++ str " " ++ tempDir)
                            []] in
  cloneRepository w repoNameOrUrl s
  = match gitClone w cloneUrl with
    | Some content =>
        (Returned tempDir,
         State (Fs.graft (Path.segments tempDir) content
                  (Fs.remove (disk s) tempDir)) t)
    | None =>
        (Thrown (str "Command failed: git clone " ++ cloneUrl),
         State (Fs.remove (disk s) tempDir) t)
    end.
Proof.
  intros Hurl. cbv zeta.
  unfold cloneRepository, tempDirOf, repoNameOf, cloneUrlOf.
  rewrite run_bind.
  destruct (isUrl repoNameOrUrl) eqn:Hisurl.
  - destruct Hurl as [repoName Hname]; [done|]. rewrite Hname, run_bind.
    cbn [orThrow ret default from_option id].
    rewrite run_bind, run_remove, run_bind, run_emit, run_bind.
    cbn [disk trace]. rewrite <- app_assoc.
    by destruct (gitClone w _).
  - cbn [ret]. rewrite run_bind, run_remove, run_bind, run_emit, run_bind.
    cbn [disk trace]. rewrite <- app_assoc.
    by destruct (gitClone w _).
Qed.

(** The [catch] block of an item: the failure is printed with the name
    of the repository, and outside the local mode the clone is
    removed. *)
Lemma run_onFailure (w : World) (repoName : jsstring)
    (repoPath : option jsstring) (error : jsstring) (s : state) :
  let cleanup := negb (LOCAL_MODE w) && JS.truthy (default [] repoPath) in
  onFailure w repoName repoPath error s
  = (Returned (),
     State (if cleanup then Fs.remove (disk s) (default [] repoPath)
            else disk s)
           (trace s
            ++ ConsoleError (failedToProcess repoName) error
               :: (if cleanup then [Remove (default [] repoPath)] else []))).
Proof.
  cbv zeta. unfold onFailure. rewrite run_bind, run_emit.
  destruct (negb (LOCAL_MODE w) && JS.truthy (default [] repoPath)).
  - cbn [when]. rewrite run_remove. cbn [disk trace]. by rewrite <- app_assoc.
  - done.
Qed.

(** The [try] block of an item, from the extraction on. *)
Definition itemBody (persist : jsstring → jsstring → M unit) (w : World)
    (repoName repoPath : jsstring) : M unit :=
  d ← getDisk;
  pluginInfo ← orThrow (extractPluginInfo (parse w) d repoPath)
                  (str "Failed to extract plugin information");
  let readmePath := Path.join [repoPath; str "README.md"] in
  exists_ ← pathExists readmePath;
  existingReadme ←
    (if exists_ : bool then readFile readmePath else ret []);
  readme ← generateReadme w pluginInfo (README_TEMPLATE_PATH w)
              existingReadme;
  if negb (JS.truthy readme) || (length (JS.trim readme) =? 0)
  then throw (str "Generated README is empty")
  else
    persist repoName readme;;
    when (negb (LOCAL_MODE w) && JS.truthy repoPath)
         (remove repoPath);;
    emit (ConsoleLog
            (checkMark ++ str " Successfully processed " ++ repoName)).

(** [processPlugin] past the check of the URL. *)
Lemma run_processPluginWith (persist : jsstring → jsstring → M unit)
    (w : World) (repoNameOrUrl : jsstring) (s : state) :
  (isUrl repoNameOrUrl = true → is_Some (repoNameOfUrl repoNameOrUrl)) →
  let repoName := repoNameOf repoNameOrUrl in
  processPluginWith persist w repoNameOrUrl s
  = match getPluginPath w repoNameOrUrl
            (State (disk s)
               (trace s ++ [ConsoleLog (processing repoNameOrUrl)])) with
    | (Returned repoPath, s') =>
        tryCatch (itemBody persist w repoName repoPath)
                 (onFailure w repoName (Some repoPath)) s'
    | (Thrown error, s') => onFailure w repoName None error s'
    end.
Proof.
  intros Hurl. cbv zeta. unfold processPluginWith.
  rewrite run_bind, run_emit, run_bind, run_repoName by done.
  rewrite run_bind, run_tryCatch, run_bind.
  destruct (getPluginPath w repoNameOrUrl _) as [[repoPath|error] s'];
    [done|].
  rewrite run_bind, !run_onFailure. reflexivity.
Qed.

(** Outside the local mode, once [processPlugin] is through with an
    item, the directory of its clone is not on the disk: whether the
    clone failed, a later step failed, or the item succeeded. *)
Theorem temp_clone_removed (w : World) (repoNameOrUrl : jsstring) (s : state) :
  LOCAL_MODE w = false →
  (isUrl repoNameOrUrl = true → is_Some (repoNameOfUrl repoNameOrUrl)) →
  Path.segments (tempDirOf w repoNameOrUrl) ≠ [] →
  Fs.pathExists (disk (processPlugin w repoNameOrUrl s).2)
    (tempDirOf w repoNameOrUrl) = false.
Proof.
  intros Hlocal Hurl Hsegs.
  assert (∃ d, disk (processPlugin w repoNameOrUrl s).2
               = Fs.remove d (tempDirOf w repoNameOrUrl)) as [d ->];
    [|by apply pathExists_remove].
  unfold processPlugin. rewrite run_processPluginWith by done.
  unfold getPluginPath. rewrite Hlocal.
  rewrite run_cloneRepository by done. cbn [disk trace].
  destruct (gitClone w (cloneUrlOf repoNameOrUrl)) as [content|].
  2: { rewrite run_onFailure. cbn [disk]. rewrite andb_false_r. by eexists. }
  rewrite run_tryCatch.
  destruct (itemBody _ w _ _ _) as [[[]|error] s'] eqn:Hbody.
  - unfold itemBody in Hbody.
    do 5 (apply bind_returned in Hbody as (? & ? & _ & Hbody)).
    destruct (negb (JS.truthy _) || _); [done|].
    apply bind_returned in Hbody as ([] & s1 & _ & Hbody).
    rewrite Hlocal, (segments_truthy _ Hsegs) in Hbody.
    cbn [negb andb when] in Hbody.
    rewrite run_bind, run_remove, run_emit in Hbody.
    injection Hbody as <-. by eexists.
  - rewrite run_onFailure, Hlocal. cbn [default from_option id negb andb disk].
    rewrite (segments_truthy _ Hsegs). by eexists.
Qed.

Lemma temp_clone_removed_witness :
  Fs.pathExists
    (disk (processPlugin Sample.remoteWorld (str "plugin-x") Sample.start).2)
    (tempDirOf Sample.remoteWorld (str "plugin-x")) = false.
Proof.
  apply (temp_clone_removed Sample.remoteWorld (str "plugin-x") Sample.start).
  - reflexivity.
  - by vm_compute.
  - by vm_compute.
Defined.

(** ** The report of an item *)

(** An event that is not the report of the failure of [repoName]. *)
Definition notReport (repoName : jsstring) (e : event) : Prop :=
  match e with
  | ConsoleError text _ => text ≠ failedToProcess repoName
  | _ => True
  end.

Definition successLine (repoName : jsstring) : event :=
  ConsoleLog (checkMark ++ str " Successfully processed " ++ repoName).

Lemma only_notReport_getPluginPath (repoName : jsstring) (w : World)
    (repoNameOrUrl : jsstring) :
  only (notReport repoName) (getPluginPath w repoNameOrUrl).
Proof.
  unfold getPluginPath, cloneRepository. only_auto.
Qed.

Lemma only_notReport_generateReadme (repoName : jsstring) (w : World)
    (pluginInfo : PluginInfo.t) (templatePath existingReadme : jsstring) :
  only (notReport repoName)
       (generateReadme w pluginInfo templatePath existingReadme).
Proof.
  assert (∀ existing readme,
            only (notReport repoName) (validateAgainst existing readme))
    as Hvalidate.
  { intros existing readme. unfold validateAgainst. only_auto.
    induction (filter _ importantSections) as [|section rest IH]; simpl;
      only_auto. exact IH. }
  unfold generateReadme, generateReadmeWithAI, generateReadmeFromTemplate.
  only_auto; try apply Hvalidate; by intros [=].
Qed.

Lemma only_notReport_createPullRequest (repoName : jsstring) (w : World)
    (name readme : jsstring) :
  only (notReport repoName) (createPullRequest w name readme).
Proof. unfold createPullRequest. only_auto. Qed.

(** [reports repoName m]: when [m] returns, the last thing it did was to
    print the line of success; and whether it returns or throws, it
    printed no report of failure. *)
Definition reports {A} (repoName : jsstring) (m : M A) : Prop :=
  ∀ s, ∃ evs,
    trace (m s).2 = trace s ++ evs
    ∧ match (m s).1 with
      | Returned _ =>
          ∃ evs', evs = evs' ++ [successLine repoName]
                  ∧ Forall (notReport repoName) evs'
      | Thrown _ => Forall (notReport repoName) evs
      end.

Lemma reports_bind {A B} (repoName : jsstring) (m : M A) (k : A → M B) :
  only (notReport repoName) m → (∀ a, reports repoName (k a)) →
  reports repoName (m ≫= k).
Proof.
  intros Hm Hk s. rewrite run_bind.
  destruct (Hm s) as (evs1 & Htrace1 & Hall1).
  destruct (m s) as [[a|error] s1]; cbn [fst snd] in *.
  - destruct (Hk a s1) as (evs2 & Htrace2 & Hlast).
    exists (evs1 ++ evs2). rewrite Htrace2, Htrace1, app_assoc.
    split; [done|].
    destruct (k a s1).1 as [b|error].
    + destruct Hlast as (evs' & -> & Hall2). exists (evs1 ++ evs').
      rewrite app_assoc. split; [done|]. by apply Forall_app.
    + by apply Forall_app.
  - by exists evs1.
Qed.

Lemma reports_throw {A} (repoName error : jsstring) :
  reports repoName (throw error : M A).
Proof.
  intros s. exists []. rewrite app_nil_r. split; [done|]. by constructor.
Qed.

Lemma reports_itemBody (persist : jsstring → jsstring → M unit) (w : World)
    (repoName repoPath : jsstring) :
  (∀ readme, only (notReport repoName) (persist repoName readme)) →
  reports repoName (itemBody persist w repoName repoPath).
Proof.
  intros Hpersist. unfold itemBody.
  apply reports_bind; [only_auto|intros d].
  apply reports_bind; [only_auto|intros pluginInfo].
  apply reports_bind; [only_auto|intros exists_].
  apply reports_bind; [only_auto|intros existingReadme].
  apply reports_bind; [apply only_notReport_generateReadme|intros readme].
  destruct (negb (JS.truthy readme) || _); [apply reports_throw|].
  apply reports_bind; [apply Hpersist|intros _].
  apply reports_bind; [only_auto|intros _].
  intros s. exists [successLine repoName]. split; [done|].
  exists []. by split.
Qed.

(** Every item that passes the check of its URL is reported once:
    [processPlugin] returns, and what it printed for the item ends with
    the line of success, with no report of failure before it, or holds
    one report of failure that names the repository, followed by
    nothing but the removal of the clone. *)
Theorem item_reported_once (w : World) (repoNameOrUrl : jsstring) (s : state) :
  (isUrl repoNameOrUrl = true → is_Some (repoNameOfUrl repoNameOrUrl)) →
  let repoName := repoNameOf repoNameOrUrl in
  ∃ (s' : state) (evs : list event),
    processPlugin w repoNameOrUrl s = (Returned (), s')
    ∧ trace s' = trace s ++ ConsoleLog (processing repoNameOrUrl) :: evs
    ∧ ((∃ evs', evs = evs' ++ [successLine repoName]
                ∧ Forall (notReport repoName) evs')
       ∨ (∃ evs' error cleanup,
            evs = evs' ++ ConsoleError (failedToProcess repoName) error
                          :: cleanup
            ∧ Forall (notReport repoName) evs'
            ∧ Forall (λ e, ∃ p, e = Remove p) cleanup)).
Proof.
  intros Hurl repoName. unfold processPlugin.
  rewrite run_processPluginWith by done. fold repoName.
  set (s1 := State (disk s) (trace s ++ [ConsoleLog (processing repoNameOrUrl)])).
  assert (Hcleanup : ∀ (b : bool) (p : jsstring),
            Forall (λ e, ∃ p, e = Remove p) (if b then [Remove p] else [])).
  { intros [] p; repeat constructor. by exists p. }
  destruct (only_notReport_getPluginPath repoName w repoNameOrUrl s1)
    as (evs1 & Htrace1 & Hall1).
  destruct (getPluginPath w repoNameOrUrl s1) as [[repoPath|error] s2];
    cbn [fst snd] in Htrace1.
  - rewrite run_tryCatch.
    destruct (reports_itemBody (createPullRequest w) w repoName repoPath
                (only_notReport_createPullRequest repoName w repoName) s2)
      as (evs2 & Htrace2 & Hlast).
    destruct (itemBody _ w repoName repoPath s2) as [[[]|error] s3];
      cbn [fst snd] in *.
    + exists s3, (evs1 ++ evs2). split; [done|].
      rewrite Htrace2, Htrace1. unfold s1. cbn [trace].
      rewrite <- !app_assoc. split; [done|]. left.
      destruct Hlast as (evs' & -> & Hall2). exists (evs1 ++ evs').
      rewrite app_assoc. split; [done|]. by apply Forall_app.
    + rewrite run_onFailure. eexists _, _. split; [done|]. cbn [trace].
      rewrite Htrace2, Htrace1. unfold s1. cbn [trace].
      rewrite <- !app_assoc. split; [done|]. right.
      exists (evs1 ++ evs2), error. eexists.
      rewrite <- app_assoc. split; [done|].
      split; [by apply Forall_app|]. apply Hcleanup.
  - rewrite run_onFailure. eexists _, _. split; [done|]. cbn [trace].
    rewrite Htrace1. unfold s1. cbn [trace].
    rewrite <- !app_assoc. split; [done|]. right.
    exists evs1, error. eexists. split; [done|]. split; [done|].
    apply Hcleanup.
Qed.

Lemma item_reported_once_witness :
  ∃ (s' : state) (evs : list event),
    processPlugin Sample.localWorld (str "plugin-x") Sample.start
    = (Returned (), s')
    ∧ trace s' = [] ++ ConsoleLog (processing (str "plugin-x")) :: evs
    ∧ ((∃ evs', evs = evs' ++ [successLine (str "plugin-x")]
                ∧ Forall (notReport (str "plugin-x")) evs')
       ∨ (∃ evs' error cleanup,
            evs = evs' ++ ConsoleError (failedToProcess (str "plugin-x")) error
                          :: cleanup
            ∧ Forall (notReport (str "plugin-x")) evs'
            ∧ Forall (λ e, ∃ p, e = Remove p) cleanup)).
Proof.
  apply (item_reported_once Sample.localWorld (str "plugin-x") Sample.start).
  by vm_compute.
Defined.

(** ** The local mode *)

(** What the local mode may do for a plugin in the directory
    [pluginPath]: print, and write the file [README.md] of that
    directory. *)
Definition localEvent (pluginPath : jsstring) (e : event) : Prop :=
  match e with
  | ConsoleLog _ | ConsoleWarn _ | ConsoleError _ _ => True
  | WriteFile p _ => p = Path.join [pluginPath; str "README.md"]
  | Remove _ | Exec _ _ | PullsCreate _ _ => False
  end.

Definition console (e : event) : Prop :=
  match e with
  | ConsoleLog _ | ConsoleWarn _ | ConsoleError _ _ => True
  | _ => False
  end.

Lemma only_console_generateReadme (w : World) (pluginInfo : PluginInfo.t)
    (templatePath existingReadme : jsstring) :
  only console (generateReadme w pluginInfo templatePath existingReadme).
Proof.
  assert (∀ existing readme, only console (validateAgainst existing readme))
    as Hvalidate.
  { intros existing readme. unfold validateAgainst. only_auto.
    induction (filter _ importantSections) as [|section rest IH]; simpl;
      only_auto. exact IH. }
  unfold generateReadme, generateReadmeWithAI, generateReadmeFromTemplate.
  only_auto; apply Hvalidate.
Qed.

Lemma only_local_itemBody (w : World) (repoName repoPath : jsstring) :
  LOCAL_MODE w = true →
  only (localEvent (localPluginPath w repoName))
       (itemBody (createPullRequest w) w repoName repoPath).
Proof.
  intros Hlocal. unfold itemBody, createPullRequest. rewrite Hlocal.
  cbn [negb andb when].
  repeat first
    [ lazymatch goal with
      | |- only _ (generateReadme _ _ _ _) =>
          apply (only_weaken console), only_console_generateReadme;
          by intros []
      end
    | only_step ];
    done.
Qed.

(** The directory that [getPluginPath] gives in the local mode. *)
Lemma getPluginPath_local (w : World) (repoNameOrUrl repoPath : jsstring)
    (s s' : state) :
  LOCAL_MODE w = true →
  getPluginPath w repoNameOrUrl s = (Returned repoPath, s') →
  repoPath = Path.join [cwd w; str ".."; repoNameOf repoNameOrUrl].
Proof.
  intros Hlocal. unfold getPluginPath, repoNameOf. rewrite Hlocal.
  destruct (isUrl repoNameOrUrl).
  - destruct (repoNameOfUrl repoNameOrUrl) as [repoName|]; [|done].
    cbn [orThrow default from_option id]. rewrite !run_bind.
    cbn [ret]. rewrite run_bind, run_pathExists.
    destruct (Fs.pathExists _ _); [|done]. by intros [= <- _].
  - rewrite !run_bind. cbn [ret]. rewrite run_bind, run_pathExists.
    destruct (Fs.pathExists _ _); [|done]. by intros [= <- _].
Qed.

(** In the local mode [processPlugin] removes nothing, runs no command
    and asks for no pull request, and it writes at most one file.  Run
    from a directory whose path ends in [plugins-automation], that file
    is the [README.md] of the directory that [getPluginPath] gave, the
    plugin's own; run from another directory it is the [README.md] of
    the directory of the plugin's name under the working directory. *)
Theorem local_mode_writes_readme_only (w : World) (repoNameOrUrl : jsstring)
    (s : state) :
  LOCAL_MODE w = true →
  let repoName := repoNameOf repoNameOrUrl in
  let read := Path.join [cwd w; str ".."; repoName] in
  (∀ s0 repoPath s1,
     getPluginPath w repoNameOrUrl s0 = (Returned repoPath, s1) →
     repoPath = read)
  ∧ ∃ evs,
      trace (processPlugin w repoNameOrUrl s).2 = trace s ++ evs
      ∧ Forall (localEvent
                  (if JS.endsWith (str "plugins-automation") (cwd w)
                   then read else Path.join [cwd w; repoName]))
               evs.
Proof.
  intros Hlocal repoName' read.
  split; [intros s0 repoPath s1; by apply getPluginPath_local|].
  change (if JS.endsWith (str "plugins-automation") (cwd w)
          then read else Path.join [cwd w; repoName'])
    with (localPluginPath w repoName').
  unfold processPlugin.
  destruct (isUrl repoNameOrUrl) eqn:Hisurl.
  1: destruct (repoNameOfUrl repoNameOrUrl) as [repoName|] eqn:Hname.
  2: { unfold processPluginWith. rewrite run_bind, run_emit, Hisurl, Hname.
       exists [ConsoleLog (processing repoNameOrUrl)]. split; [done|].
       by repeat constructor. }
  all: assert (isUrl repoNameOrUrl = true
               → is_Some (repoNameOfUrl repoNameOrUrl)) as Hurl
         by (intros ?; first [rewrite Hname; by eexists|congruence]).
  all: rewrite run_processPluginWith by done.
  all: fold repoName'.
  all: set (s1 := State (disk s) (trace s ++ [ConsoleLog (processing repoNameOrUrl)])).
  all: assert (only (localEvent (localPluginPath w repoName'))
                    (getPluginPath w repoNameOrUrl))
         as Hpath by (unfold getPluginPath; rewrite Hlocal; only_auto).
  all: destruct (Hpath s1) as (evs1 & Htrace1 & Hall1).
  all: destruct (getPluginPath w repoNameOrUrl s1) as [[repoPath|error] s2];
         cbn [fst snd] in Htrace1.
  all: try (rewrite run_onFailure, Hlocal; cbn [negb andb trace];
            exists (ConsoleLog (processing repoNameOrUrl) :: evs1
                    ++ [ConsoleError (failedToProcess repoName') error]);
            rewrite Htrace1; unfold s1; cbn [trace]; rewrite <- !app_assoc;
            split; [done|]; constructor; [done|];
            apply Forall_app; split; [done|]; by repeat constructor).
  all: destruct (only_tryCatch (localEvent (localPluginPath w repoName'))
                   (itemBody (createPullRequest w) w repoName' repoPath)
                   (onFailure w repoName' (Some repoPath))
                   (only_local_itemBody w repoName' repoPath Hlocal)) with (s := s2)
         as (evs2 & Htrace2 & Hall2);
         [intros error'; unfold onFailure; rewrite Hlocal; cbn [negb andb when];
          only_auto|].
  all: exists (ConsoleLog (processing repoNameOrUrl) :: evs1 ++ evs2).
  all: rewrite Htrace2, Htrace1; unfold s1; cbn [trace];
         rewrite <- !app_assoc; split; [done|].
  all: constructor; [done|]; by apply Forall_app.
Qed.

Lemma local_mode_writes_readme_only_witness :
  ∃ evs,
    trace (processPlugin Sample.localWorld (str "plugin-x") Sample.start).2
    = [] ++ evs
    ∧ Forall (localEvent (str "/work/plugin-x")) evs.
Proof.
  apply (local_mode_writes_readme_only Sample.localWorld (str "plugin-x")
           Sample.start).
  reflexivity.
Defined.

(** ** The run of the script *)

Definition bannerLines : list event :=
  [ConsoleLog (rocketSign ++ str " ElizaOS Plugin README Generator");
   ConsoleLog (str "This script will generate comprehensive READMEs for all plugins"
               ++ nl)].

Lemma run_ensureDir (p : jsstring) (s : state) :
  ensureDir p s
  = match Fs.mkdirp (Path.segments p) (disk s) with
    | inr d' => (Returned (), State d' (trace s))
    | inl code => (Thrown (code ++ str ": " ++ p), s)
    end.
Proof.
  unfold ensureDir. rewrite run_bind. cbn [getDisk].
  by destruct (Fs.mkdirp (Path.segments p) (disk s)).
Qed.

(** What [fs.ensureDir] makes of the disk for the directory [temp] of
    the working directory: the disk with that directory, or the error
    that it throws. *)
Definition ensuredTemp (w : World) (d : Fs.disk) : jsstring + Fs.disk :=
  Fs.mkdirp (Path.segments (Path.join [cwd w; str "temp"])) d.

(** [main] up to the check of the template. *)
Lemma run_main (w : World) (s : state) (prepared : Fs.disk) :
  LOCAL_MODE w = true ∨ JS.truthy (default [] (GITHUB_TOKEN w)) = true →
  ensuredTemp w (disk s) = inr prepared →
  main w s
  = tryCatch
      (templateExists ← pathExists (README_TEMPLATE_PATH w);
       if negb templateExists then
         emit (ConsoleError (crossMark ++ str " README template not found at "
                             ++ README_TEMPLATE_PATH w) []);;
         ret (Exit 1)
       else
         repositories ← getPluginRepositories w;
         when (TEST_MODE w)
           (emit (ConsoleLog
                    (nl ++ warningSign
                     ++ str "  Running in TEST MODE - Processing only: "
                     ++ JS.join (str ", ") (take 1 repositories) ++ nl)));;
         when (LOCAL_MODE w)
           (emit (ConsoleLog
                    (nl ++ folderSign
                     ++ str " Running in LOCAL MODE - Processing local plugins"
                     ++ nl)));;
         let pluginsToProcess :=
           if TEST_MODE w then
             if JS.truthy (default [] (TEST_REPO w))
             then filter (λ r, r = default [] (TEST_REPO w)) repositories
             else take 1 repositories
           else repositories in
         if TEST_MODE w && JS.truthy (default [] (TEST_REPO w))
            && bool_decide (pluginsToProcess = [])
         then
           emit (ConsoleError (crossMark ++ str " Repository "
                               ++ default [] (TEST_REPO w)
                               ++ str " not found") []);;
           ret (Exit 1)
         else
           forEach (processPlugin w) pluginsToProcess;;
           remove (Path.join [cwd w; str "temp"]);;
           emit (ConsoleLog
                   (nl ++ checkMark ++ str " All plugins processed successfully!"));;
           ret Done)
      (λ error,
         emit (ConsoleError scriptFailed error);;
         ret (Exit 1))
      (State prepared (trace s ++ bannerLines)).
Proof.
  intros Hmode Hensured. unfold main.
  rewrite run_bind, run_emit, run_bind, run_emit.
  assert (negb (LOCAL_MODE w) && negb (JS.truthy (default [] (GITHUB_TOKEN w)))
          = false) as ->.
  { destruct Hmode as [-> | ->]; [done|]. apply andb_false_r. }
  rewrite !run_tryCatch, run_bind, run_ensureDir. cbn [disk trace].
  unfold ensuredTemp in Hensured. rewrite Hensured.
  unfold bannerLines. by rewrite <- app_assoc.
Qed.

(** [main] when its [temp] directory cannot be made. *)
Lemma run_main_blocked (w : World) (s : state) (code : jsstring) :
  LOCAL_MODE w = true ∨ JS.truthy (default [] (GITHUB_TOKEN w)) = true →
  ensuredTemp w (disk s) = inl code →
  main w s
  = (Returned (Exit 1),
     State (disk s)
           (trace s ++ bannerLines
            ++ [ConsoleError scriptFailed
                  (code ++ str ": " ++ Path.join [cwd w; str "temp"])])).
Proof.
  intros Hmode Hensured. unfold main.
  rewrite run_bind, run_emit, run_bind, run_emit.
  assert (negb (LOCAL_MODE w) && negb (JS.truthy (default [] (GITHUB_TOKEN w)))
          = false) as ->.
  { destruct Hmode as [-> | ->]; [done|]. apply andb_false_r. }
  rewrite run_tryCatch, run_bind, run_ensureDir. cbn [disk trace].
  unfold ensuredTemp in Hensured. rewrite Hensured.
  rewrite run_bind, run_emit. cbn [disk trace ret].
  unfold bannerLines. by rewrite <- !app_assoc.
Qed.

Definition tokenComplaint : list event :=
  [ConsoleError
     (crossMark
      ++ str " GITHUB_TOKEN environment variable is required for remote operations")
     [];
   ConsoleLog
     (bulbSign
      ++ str " Tip: Use --local flag to process local plugins without GitHub token")].

Definition templateComplaint (w : World) : list event :=
  [ConsoleError (crossMark ++ str " README template not found at "
                 ++ README_TEMPLATE_PATH w) []].

(** What has to be there before any repository is looked at.  Without
    a token outside the local mode, [main] ends with exit code 1 and
    the disk untouched.  Otherwise it makes sure of its [temp]
    directory: when a regular file stands in the way, the error of
    [fs.ensureDir] is reported as the failure of the script, and when
    the directory is there but the template is not, the missing
    template is reported; both end with exit code 1.  In each case
    [main] has printed its banner and the one complaint: nothing was
    listed, cloned, written or removed. *)
Theorem setup_failure_is_fatal (w : World) (s : state) :
  (LOCAL_MODE w = false ∧ JS.truthy (default [] (GITHUB_TOKEN w)) = false →
   main w s
   = (Returned (Exit 1),
      State (disk s) (trace s ++ bannerLines ++ tokenComplaint)))
  ∧ ((LOCAL_MODE w = true ∨ JS.truthy (default [] (GITHUB_TOKEN w)) = true) →
     match ensuredTemp w (disk s) with
     | inl code =>
         main w s
         = (Returned (Exit 1),
            State (disk s)
                  (trace s ++ bannerLines
                   ++ [ConsoleError scriptFailed
                         (code ++ str ": "
                          ++ Path.join [cwd w; str "temp"])]))
     | inr prepared =>
         Fs.pathExists prepared (README_TEMPLATE_PATH w) = false →
         main w s
         = (Returned (Exit 1),
            State prepared (trace s ++ bannerLines ++ templateComplaint w))
     end).
Proof.
  split.
  - intros [Hlocal Htoken].
    unfold main. rewrite run_bind, run_emit, run_bind, run_emit.
    rewrite Hlocal, Htoken. cbn [negb andb].
    rewrite run_bind, run_emit, run_bind, run_emit. cbn [disk trace ret].
    unfold bannerLines, tokenComplaint. by rewrite <- !app_assoc.
  - intros Hmode.
    destruct (ensuredTemp w (disk s)) as [code|prepared] eqn:Hensured.
    + by apply run_main_blocked.
    + intros Htemplate.
      rewrite (run_main w s prepared) by done.
      rewrite run_tryCatch, run_bind, run_pathExists.
      cbn [disk]. rewrite Htemplate. cbn [negb].
      rewrite run_bind, run_emit. cbn [disk trace ret].
      unfold templateComplaint. by rewrite <- !app_assoc.
Qed.

Lemma setup_failure_is_fatal_witness :
  main Sample.tokenlessWorld Sample.start
  = (Returned (Exit 1),
     State Sample.disk (bannerLines ++ tokenComplaint))
  ∧ main Sample.localWorld (State Sample.blockedDisk [])
    = (Returned (Exit 1),
       State Sample.blockedDisk
             (bannerLines
              ++ [ConsoleError scriptFailed
                    (str "EEXIST: /work/plugins-automation/temp")]))
  ∧ ∃ prepared,
      ensuredTemp Sample.localWorld Sample.bareDisk = inr prepared
      ∧ main Sample.localWorld (State Sample.bareDisk [])
        = (Returned (Exit 1),
           State prepared
                 (bannerLines ++ templateComplaint Sample.localWorld)).
Proof.
  split; [|split].
  - apply (proj1 (setup_failure_is_fatal Sample.tokenlessWorld Sample.start)).
    by split.
  - apply (proj2 (setup_failure_is_fatal Sample.localWorld
                    (State Sample.blockedDisk []))).
    by left.
  - pose proof (proj2 (setup_failure_is_fatal Sample.localWorld
                         (State Sample.bareDisk [])) (or_introl eq_refl))
      as Hmain.
    cbn [disk] in Hmain.
    destruct (ensuredTemp Sample.localWorld Sample.bareDisk)
      as [code|prepared] eqn:Hensured; [by vm_compute in Hensured|].
    exists prepared. split; [done|]. apply Hmain.
    vm_compute in Hensured. injection Hensured as <-. by vm_compute.
Defined.

(** ** Failures of items and the exit code *)

Lemma plugin_name_not_url (repoName : jsstring) :
  JS.startsWith (str "plugin-") repoName = true → isUrl repoName = false.
Proof.
  intros [t ->]%startsWith_inv. by vm_compute.
Qed.

Lemma total_forEach {A} (body : A → M unit) (items : list A) :
  Forall (λ item, total (body item)) items → total (forEach body items).
Proof.
  induction 1 as [|item items Hitem _ IH]; cbn [forEach].
  - apply total_ret.
  - apply total_bind; [done|]. by intros _.
Qed.

(** The names that [getPluginRepositories] lists, when no repository is
    singled out: directories of the parent directory, or repositories
    of the organisation, whose names start with [plugin-]. *)
Lemma run_getPluginRepositories (w : World) (s : state) :
  TEST_MODE w = false →
  (if LOCAL_MODE w
   then is_Some (Fs.readdir (disk s) (Path.join [cwd w; str ".."]))
   else JS.truthy (default [] (GITHUB_TOKEN w)) = true
        ∧ is_Some (listForOrg w)) →
  ∃ repositories t,
    getPluginRepositories w s = (Returned repositories, State (disk s) t)
    ∧ Forall (λ r, JS.startsWith (str "plugin-") r = true) repositories.
Proof.
  intros Htest Hlist. unfold getPluginRepositories.
  destruct (LOCAL_MODE w).
  - destruct Hlist as [items Hitems].
    unfold getLocalPlugins. rewrite !run_bind. cbn [getDisk].
    rewrite run_bind, Hitems. cbn [orThrow ret]. rewrite run_bind, run_emit.
    eexists _, _. split; [reflexivity|].
    apply Forall_fmap, Forall_forall. intros [name path] Hin.
    apply list_elem_of_omap in Hin as (entry & _ & Hentry).
    destruct entry as [|item entries]; [done|].
    destruct (JS.startsWith (str "plugin-") item) eqn:Hitem; [|done].
    by injection Hentry as <- _.
  - destruct Hlist as [Htoken [repos Hrepos]]. rewrite Htest, Htoken.
    cbn [andb negb]. rewrite run_bind, Hrepos. cbn [orThrow ret].
    destruct s as [d t]. eexists _, _. split; [reflexivity|].
    apply Forall_forall. by intros r [Hr _]%list_elem_of_filter.
Qed.

(** When all repositories are processed, the exit code does not depend
    on what happens to them: once the [temp] directory could be made,
    with the template in place and the repositories listed, [main] runs
    to its end, whichever items fail and however. *)
Theorem item_failures_keep_exit_code (w : World) (s : state)
    (prepared : Fs.disk) :
  TEST_MODE w = false →
  ensuredTemp w (disk s) = inr prepared →
  Fs.pathExists prepared (README_TEMPLATE_PATH w) = true →
  (if LOCAL_MODE w
   then is_Some (Fs.readdir prepared (Path.join [cwd w; str ".."]))
   else JS.truthy (default [] (GITHUB_TOKEN w)) = true
        ∧ is_Some (listForOrg w)) →
  ∃ s', main w s = (Returned Done, s').
Proof.
  intros Htest Hensured Htemplate Hlist.
  rewrite (run_main w s prepared)
    by (first [done|destruct (LOCAL_MODE w); [by left|right; by destruct Hlist]]).
  rewrite run_tryCatch, run_bind, run_pathExists. cbn [disk].
  rewrite Htemplate. cbn [negb]. rewrite run_bind.
  destruct (run_getPluginRepositories w
              (State prepared (trace s ++ bannerLines)) Htest Hlist)
    as (repositories & t & -> & Hnames).
  rewrite Htest. cbn [when andb]. rewrite run_bind. cbn [ret].
  rewrite run_bind.
  assert (total (when (LOCAL_MODE w)
                   (emit (ConsoleLog
                            (nl ++ folderSign
                             ++ str " Running in LOCAL MODE - Processing local plugins"
                             ++ nl))))) as Hwhen.
  { destruct (LOCAL_MODE w); [apply total_emit|apply total_ret]. }
  cbn [disk]. destruct (Hwhen (State prepared t)) as ([] & s1 & ->).
  rewrite run_bind.
  assert (total (forEach (processPlugin w) repositories)) as Heach.
  { apply total_forEach. eapply Forall_impl; [exact Hnames|].
    intros r Hr. apply processPlugin_returns.
    rewrite (plugin_name_not_url r Hr). done. }
  destruct (Heach s1) as ([] & s2 & ->).
  rewrite run_bind, run_remove, run_bind, run_emit. by eexists.
Qed.

Lemma item_failures_keep_exit_code_witness :
  ∃ s', main Sample.localWorld Sample.start = (Returned Done, s').
Proof.
  destruct (ensuredTemp Sample.localWorld Sample.disk) as [code|prepared]
    eqn:Hensured; [by vm_compute in Hensured|].
  apply (item_failures_keep_exit_code Sample.localWorld Sample.start prepared).
  - reflexivity.
  - exact Hensured.
  - vm_compute in Hensured. injection Hensured as <-. by vm_compute.
  - vm_compute in Hensured. injection Hensured as <-. vm_compute. by eexists.
Defined.

(** ** The old scope *)

Lemma replaceStrFrom_miss (pat repl before s : jsstring) :
  JS.startsWith pat s = false →
  JS.replaceStrFrom pat repl before s
  = match s with
    | [] => rev before
    | c :: s' => JS.replaceStrFrom pat repl (c :: before) s'
    end.
Proof. intros H. destruct s; simpl; by rewrite H. Qed.

Lemma replaceStrFrom_literal (pat repl : jsstring) :
  36%N ∉ repl →
  ∀ s before,
    JS.replaceStrFrom pat repl before s
    = rev before ++ JS.replaceStrFrom pat repl [] s.
Proof.
  intros Hrepl. induction s as [|c s IH]; intros before.
  - destruct (JS.startsWith pat []) eqn:Hhit.
    + rewrite !replaceStrFrom_hit by done.
      by rewrite !getSubstitution_literal.
    + rewrite (replaceStrFrom_miss _ _ before),
        (replaceStrFrom_miss _ _ []) by done.
      cbn. by rewrite app_nil_r.
  - destruct (JS.startsWith pat (c :: s)) eqn:Hhit.
    + rewrite !replaceStrFrom_hit by done.
      by rewrite !getSubstitution_literal.
    + rewrite (replaceStrFrom_miss _ _ before),
        (replaceStrFrom_miss _ _ []) by done.
      rewrite (IH (c :: before)), (IH [c]). cbn [rev app].
      by rewrite <- app_assoc.
Qed.

(** [replace] with a literal replacement, one code unit at a time. *)
Lemma replaceStr_step (pat repl s : jsstring) :
  36%N ∉ repl →
  JS.replaceStr pat repl s
  = if JS.startsWith pat s then repl ++ drop (length pat) s
    else match s with
         | [] => []
         | c :: s' => c :: JS.replaceStr pat repl s'
         end.
Proof.
  intros Hrepl. unfold JS.replaceStr.
  destruct (JS.startsWith pat s) eqn:Hhit.
  - rewrite replaceStrFrom_hit by done.
    by rewrite getSubstitution_literal.
  - rewrite replaceStrFrom_miss by done. destruct s as [|c s]; [done|].
    by rewrite replaceStrFrom_literal.
Qed.

(** A prefix in which the first code unit of the replacement does not
    occur is a prefix of the result only if it was one of the input. *)
Lemma replaceStr_prefix (pat repl : jsstring) (a : N) (repl' : jsstring) :
  repl = a :: repl' → 36%N ∉ repl →
  ∀ s prefix,
    a ∉ prefix →
    JS.startsWith prefix (JS.replaceStr pat repl s) = true →
    JS.startsWith prefix s = true.
Proof.
  intros -> Hrepl. induction s as [|c s IH]; intros prefix Ha;
    rewrite replaceStr_step by done.
  - destruct (JS.startsWith pat []); [|done].
    destruct prefix as [|q prefix]; [done|]. cbn.
    destruct (N.eqb_spec q a) as [->|]; [|done].
    exfalso. apply Ha. left.
  - destruct (JS.startsWith pat (c :: s)).
    + destruct prefix as [|q prefix]; [done|]. cbn.
      destruct (N.eqb_spec q a) as [->|]; [|done].
      exfalso. apply Ha. left.
    + destruct prefix as [|q prefix]; [done|]. cbn.
      destruct (N.eqb q c); [|done]. apply IH.
      intros ?. apply Ha. by right.
Qed.

Lemma normalized_not_old_scope (name : option jsstring) :
  JS.startsWith (str "@elizaos-plugins/") (normalizedPackageName name) = false.
Proof.
  unfold normalizedPackageName. set (s := default [] name).
  assert (Hrepl : 36%N ∉ str "@elizaos/") by by_compute.
  destruct (JS.startsWith _ (JS.replaceStr _ _ s)) eqn:Hstarts; [|done].
  exfalso. rewrite replaceStr_step in Hstarts by done.
  destruct (JS.startsWith (str "@elizaos-plugins/") s) eqn:Hold.
  - by vm_compute in Hstarts.
  - destruct s as [|c s']; [done|].
    change (str "@elizaos-plugins/")
      with (ch "@" :: str "elizaos-plugins/") in Hstarts, Hold.
    cbn [JS.startsWith] in Hstarts, Hold.
    destruct (N.eqb (ch "@") c); [|done].
    apply (replaceStr_prefix _ _ (ch "@") (str "elizaos/")) in Hstarts;
      [congruence|done|done|by_compute].
Qed.

Lemma extractPluginInfo_names (parse : parser) (d : Fs.disk)
    (repoPath : jsstring) (pluginInfo : PluginInfo.t) :
  extractPluginInfo parse d repoPath = Some pluginInfo →
  ∃ text packageJson,
    Fs.readFile d (Path.join [repoPath; str "package.json"]) = Some text
    ∧ parse text = Some packageJson
    ∧ PluginInfo.name pluginInfo
      = normalizedPackageName (Manifest.name packageJson)
    ∧ PluginInfo.packageName pluginInfo
      = normalizedPackageName (Manifest.name packageJson).
Proof.
  unfold extractPluginInfo. intros H.
  destruct (Fs.readFile d _) as [text|] eqn:Htext; [|done].
  cbn [mbind option_bind] in H.
  destruct (parse text) as [packageJson|] eqn:Hparse; [|done].
  cbn [mbind option_bind] in H.
  destruct (readIndex d repoPath) as [indexContent|]; [|done].
  cbn [mbind option_bind] in H.
  destruct (scanEnvVars d repoPath) as [envVars|]; [|done].
  cbn [mbind option_bind] in H. injection H as <-.
  by exists text, packageJson.
Qed.

(** The package name that [extractPluginInfo] reports never starts with
    the old scope [@elizaos-plugins/], whatever the manifest says; a
    manifest name in which the old scope does not occur is reported as
    it is, and the plugin name is the package name. *)
Theorem old_scope_never_reported (parse : parser) (d : Fs.disk)
    (repoPath : jsstring) (pluginInfo : PluginInfo.t) :
  extractPluginInfo parse d repoPath = Some pluginInfo →
  PluginInfo.name pluginInfo = PluginInfo.packageName pluginInfo
  ∧ JS.startsWith (str "@elizaos-plugins/") (PluginInfo.packageName pluginInfo)
    = false
  ∧ ∃ text packageJson,
      Fs.readFile d (Path.join [repoPath; str "package.json"]) = Some text
      ∧ parse text = Some packageJson
      ∧ (JS.includes (str "@elizaos-plugins/")
           (default [] (Manifest.name packageJson)) = false →
         PluginInfo.packageName pluginInfo
         = default [] (Manifest.name packageJson)).
Proof.
  intros (text & packageJson & Htext & Hparse & Hname & Hpackage)
    %extractPluginInfo_names.
  rewrite Hname, Hpackage. split; [done|].
  split; [apply normalized_not_old_scope|].
  exists text, packageJson. do 2 (split; [done|]).
  intros Habsent. unfold normalizedPackageName. by apply replaceStr_absent.
Qed.

Lemma old_scope_never_reported_witness :
  ∃ pluginInfo,
    extractPluginInfo Sample.parseManifest Sample.disk Sample.repoPath
    = Some pluginInfo
    ∧ PluginInfo.name pluginInfo = PluginInfo.packageName pluginInfo
    ∧ JS.startsWith (str "@elizaos-plugins/")
        (PluginInfo.packageName pluginInfo) = false.
Proof.
  destruct (extractPluginInfo Sample.parseManifest Sample.disk Sample.repoPath)
    as [pluginInfo|] eqn:E; [|by vm_compute in E].
  exists pluginInfo. split; [done|].
  destruct (old_scope_never_reported Sample.parseManifest Sample.disk
              Sample.repoPath pluginInfo E) as (Hname & Hscope & _).
  by split.
Defined.

(** ** What a pattern matches *)

(** [matched r st mid]: from the state [st], the pattern [r] can lead to
    the state [mid].  The matcher only ever hands such states to its
    continuation. *)
Fixpoint matched (r : regex) (st mid : Re.mstate) : Prop :=
  match r with
  | Eps => mid = st
  | Chr c =>
      Re.ms_rest st = c :: Re.ms_rest mid
      ∧ Re.ms_prev mid = Some c ∧ Re.ms_caps mid = Re.ms_caps st
  | Cls f =>
      ∃ x, f x = true
           ∧ Re.ms_rest st = x :: Re.ms_rest mid
           ∧ Re.ms_prev mid = Some x ∧ Re.ms_caps mid = Re.ms_caps st
  | Seq r1 r2 => ∃ m1, matched r1 st m1 ∧ matched r2 m1 mid
  | Alt r1 r2 => matched r1 st mid ∨ matched r2 st mid
  | Star _ r1 => rtc (matched r1) st mid
  | Grp i r1 =>
      ∃ m1,
        matched r1 st m1
        ∧ mid = Re.MState (Re.ms_prev m1) (Re.ms_rest m1)
                  (<[i := take (length (Re.ms_rest st) - length (Re.ms_rest m1))
                            (Re.ms_rest st)]> (Re.ms_caps m1))
  | WordB =>
      mid = st
      ∧ xorb (Re.isWordOpt (Re.ms_prev st))
             (Re.isWordOpt (head (Re.ms_rest st))) = true
  | Bol multiline =>
      mid = st
      ∧ match Re.ms_prev st with
        | None => True
        | Some c => multiline && Re.isLineTerminator c = true
        end
  | Eol multiline =>
      mid = st
      ∧ match Re.ms_rest st with
        | [] => True
        | c :: _ => multiline && Re.isLineTerminator c = true
        end
  end.

Lemma run_matched (r : regex) :
  ∀ (k : Re.cont) (st st' : Re.mstate),
    Re.run r k st = Some st' →
    ∃ mid, matched r st mid ∧ k mid = Some st'.
Proof.
  induction r as [|c|f|r1 IH1 r2 IH2|r1 IH1 r2 IH2|greedy r1 IH1|i r1 IH1
                 | |multiline|multiline]; intros k st st';
    cbn [Re.run matched].
  - intros H. by exists st.
  - destruct st as [prev [|x rest] caps]; cbn; [done|].
    destruct (N.eqb_spec x c) as [->|]; [|done]. intros H.
    eexists. split; [|exact H]. done.
  - destruct st as [prev [|x rest] caps]; cbn; [done|].
    destruct (f x) eqn:Hf; [|done]. intros H.
    eexists. split; [|exact H]. by exists x.
  - intros H. apply IH1 in H as (mid1 & H1 & H).
    apply IH2 in H as (mid2 & H2 & H). exists mid2. split; [|done].
    by exists mid1.
  - unfold Re.orElse. destruct (Re.run r1 k st) eqn:E1.
    + intros [= <-]. apply IH1 in E1 as (mid & ? & ?). exists mid.
      split; [by left|done].
    + intros E2. apply IH2 in E2 as (mid & ? & ?). exists mid.
      split; [by right|done].
  - generalize (length (Re.ms_rest st)) at 1. intros n. revert k st st'.
    induction n as [|n IHn]; intros k st st'.
    + intros H. by exists st.
    + match goal with
      | |- context [Re.run r1 ?k' st] => set (again := Re.run r1 k' st)
      end.
      assert (∀ st'', again = Some st'' →
                ∃ mid, rtc (matched r1) st mid ∧ k mid = Some st'')
        as Hagain.
      { intros st'' H. apply IH1 in H as (mid1 & H1 & H).
        destruct (length (Re.ms_rest mid1) <? length (Re.ms_rest st));
          [|done].
        apply IHn in H as (mid & Hmid & H). exists mid. split; [|done].
        by eapply rtc_l. }
      unfold Re.orElse. destruct greedy.
      * destruct again as [st''|] eqn:E.
        -- intros [= <-]. by apply Hagain.
        -- intros H. by exists st.
      * destruct (k st) eqn:E.
        -- intros [= <-]. by exists st.
        -- intros H. by apply Hagain.
  - intros H. apply IH1 in H as (mid & H1 & H). eexists. split; [|exact H].
    by exists mid.
  - destruct (xorb _ _) eqn:Hb; [|done]. intros H. by exists st.
  - destruct (Re.ms_prev st) as [c|] eqn:Hprev.
    + destruct (multiline && Re.isLineTerminator c) eqn:Hb; [|done].
      intros H. by exists st.
    + intros H. by exists st.
  - destruct (Re.ms_rest st) as [|c rest] eqn:E.
    + intros H. by exists st.
    + destruct (multiline && Re.isLineTerminator c) eqn:Hb; [|done].
      intros H. by exists st.
Qed.

(** A match takes a prefix of the input. *)
Lemma matched_rest (r : regex) :
  ∀ st mid, matched r st mid →
            ∃ text, Re.ms_rest st = text ++ Re.ms_rest mid.
Proof.
  induction r as [|c|f|r1 IH1 r2 IH2|r1 IH1 r2 IH2|greedy r1 IH1|i r1 IH1
                 | |multiline|multiline]; intros st mid; cbn [matched].
  - intros ->. by exists [].
  - intros (-> & _). by exists [c].
  - intros (x & _ & -> & _). by exists [x].
  - intros (m1 & (t1 & ->)%IH1 & (t2 & ->)%IH2). exists (t1 ++ t2).
    by rewrite <- app_assoc.
  - intros [H|H]; eauto.
  - induction 1 as [st|st m1 mid (t1 & ->)%IH1 _ (t2 & ->)].
    + by exists [].
    + exists (t1 ++ t2). by rewrite <- app_assoc.
  - intros (m1 & (t & ->)%IH1 & ->). by exists t.
  - intros [-> _]. by exists [].
  - intros [-> _]. by exists [].
  - intros [-> _]. by exists [].
Qed.

(** The groups of a pattern. *)
Fixpoint groupsOf (r : regex) : list nat :=
  match r with
  | Seq r1 r2 | Alt r1 r2 => groupsOf r1 ++ groupsOf r2
  | Star _ r1 => groupsOf r1
  | Grp i r1 => i :: groupsOf r1
  | _ => []
  end.

(** A match leaves the captures of other groups as they were. *)
Lemma matched_caps (r : regex) (i : nat) :
  i ∉ groupsOf r →
  ∀ st mid, matched r st mid → Re.ms_caps mid !! i = Re.ms_caps st !! i.
Proof.
  induction r as [|c|f|r1 IH1 r2 IH2|r1 IH1 r2 IH2|greedy r1 IH1|j r1 IH1
                 | |multiline|multiline]; intros Hi st mid;
    cbn [matched groupsOf] in *.
  - by intros ->.
  - by intros (_ & _ & ->).
  - by intros (x & _ & _ & _ & ->).
  - apply not_elem_of_app in Hi as [Hi1 Hi2].
    intros (m1 & H1 & H2). rewrite (IH2 Hi2 _ _ H2). by apply IH1.
  - apply not_elem_of_app in Hi as [Hi1 Hi2].
    intros [H|H]; [by apply IH1|by apply IH2].
  - induction 1 as [st|st m1 mid H1 _ IH]; [done|].
    rewrite IH. by apply IH1.
  - apply not_elem_of_cons in Hi as [Hne Hi]. intros (m1 & H1 & ->). cbn.
    rewrite lookup_insert_ne by done. by apply IH1.
  - by intros [-> _].
  - by intros [-> _].
  - by intros [-> _].
Qed.

(** A name as [\w+] captures it: word characters, at least one. *)
Definition identifier (name : jsstring) : Prop :=
  name ≠ [] ∧ Pat.wordName name = true.

Lemma matched_class_run (greedy : bool) (f : N → bool) (st mid : Re.mstate) :
  matched (Star greedy (Cls f)) st mid →
  ∃ text, forallb f text = true
          ∧ Re.ms_rest st = text ++ Re.ms_rest mid
          ∧ Re.ms_caps mid = Re.ms_caps st.
Proof.
  cbn [matched].
  induction 1 as [st|st m1 mid (x & Hx & Hrest & _ & Hcaps) _
                    (text & Hall & Hrest' & Hcaps')].
  - by exists [].
  - exists (x :: text). cbn. rewrite Hx, Hall, Hrest, Hrest'.
    split; [done|]. split; [done|]. congruence.
Qed.

Lemma matched_word1 (st mid : Re.mstate) :
  matched Pat.word1 st mid →
  ∃ name, identifier name
          ∧ Re.ms_rest st = name ++ Re.ms_rest mid
          ∧ Re.ms_caps mid = Re.ms_caps st.
Proof.
  unfold Pat.word1, Re.plus.
  intros (m1 & (x & Hx & Hrest & _ & Hcaps) & H).
  apply matched_class_run in H as (text & Hall & Hrest' & Hcaps').
  exists (x :: text). unfold identifier, Pat.wordName. cbn.
  rewrite Hx, Hall, Hrest, Hrest'. split; [done|]. split; [done|]. congruence.
Qed.

(** The capture of a group over [\w+], once matched, is an identifier. *)
Lemma matched_word_group (i : nat) (st mid : Re.mstate) :
  matched (Grp i Pat.word1) st mid →
  ∃ name, identifier name ∧ Re.ms_caps mid !! i = Some name.
Proof.
  intros (m1 & (name & Hname & Hrest & _)%matched_word1 & ->).
  exists name. split; [done|]. cbn. rewrite lookup_insert_eq, Hrest.
  f_equal. rewrite length_app.
  replace (length name + length (Re.ms_rest m1) - length (Re.ms_rest m1))
    with (length name) by lia.
  by rewrite take_app_length.
Qed.

Lemma matched_lit (s : jsstring) (st mid : Re.mstate) :
  matched (Re.lit s) st mid →
  Re.ms_rest st = s ++ Re.ms_rest mid ∧ Re.ms_caps mid = Re.ms_caps st.
Proof.
  revert st. induction s as [|c s IH]; intros st; cbn [Re.lit matched].
  - by intros ->.
  - intros (m1 & (Hrest & _ & Hcaps) & (Hrest' & Hcaps')%IH).
    rewrite Hrest, Hrest'. split; [done|]. congruence.
Qed.

(** A match found by the scan, as a run of the matcher. *)
Lemma matchHere_matched (r : regex) (prev : option N) (idx : nat)
    (s : jsstring) (m : Re.jsmatch) :
  Re.matchHere r prev idx s = Some m →
  ∃ mid after,
    matched r (Re.MState prev s ∅) mid
    ∧ Re.m_groups m = Re.ms_caps mid
    ∧ Re.ms_rest mid = after
    ∧ s = Re.m_text m ++ after.
Proof.
  unfold Re.matchHere.
  destruct (Re.run r Some _) as [st'|] eqn:E; [|done]. intros [= <-].
  apply run_matched in E as (mid & Hmid & [= ->]).
  exists st', (Re.ms_rest st'). split; [done|]. split; [done|].
  split; [done|]. cbn.
  destruct (matched_rest _ _ _ Hmid) as (text & Htext). cbn in Htext.
  rewrite Htext at 2 3. rewrite length_app.
  replace (length text + length (Re.ms_rest st') - length (Re.ms_rest st'))
    with (length text) by lia.
  by rewrite take_app_length.
Qed.

(** ** The names of environment variables *)

Lemma matched_getter (call : jsstring) (st mid : Re.mstate) :
  matched (Pat.getter call) st mid →
  ∃ name, identifier name ∧ Re.ms_caps mid !! 1 = Some name.
Proof.
  unfold Pat.getter. cbn [Re.seqs].
  intros (m1 & _ & m2 & _ & m3 & _ & m4 & Hgroup & Hrest).
  apply matched_word_group in Hgroup as (name & Hname & Hcap).
  exists name. split; [done|]. rewrite <- Hcap.
  apply (matched_caps (Seq Pat.quote (Chr (ch ")")))); [|done].
  cbn. apply not_elem_of_nil.
Qed.

Lemma envPatterns_capture (pattern : regex) (st mid : Re.mstate) :
  pattern ∈ Pat.envPatterns → matched pattern st mid →
  ∃ name, identifier name ∧ Re.ms_caps mid !! 1 = Some name.
Proof.
  unfold Pat.envPatterns. intros Hin Hm.
  repeat (apply elem_of_cons in Hin as [->|Hin]);
    [|by eapply matched_getter..|by apply elem_of_nil in Hin].
  destruct Hm as (m1 & _ & Hgroup). by apply matched_word_group in Hgroup.
Qed.

Lemma capturesIn_identifier (content x : jsstring) :
  x ∈ capturesIn content → identifier x.
Proof.
  unfold capturesIn. intros (l & Hl & Hx)%list_elem_of_In%in_concat.
  apply list_elem_of_In in Hl, Hx.
  apply list_elem_of_fmap in Hl as (pattern & -> & Hpattern).
  apply list_elem_of_filter in Hx as [_ Hx].
  apply list_elem_of_fmap in Hx as (m & -> & Hm).
  apply matchAll_elem in Hm as (pre & suf & _ & Hm).
  apply matchHere_matched in Hm as (mid & after & Hmid & Hgroups & _).
  destruct (envPatterns_capture _ _ _ Hpattern Hmid) as (name & Hname & Hcap).
  unfold cap, JS.capture. by rewrite Hgroups, Hcap.
Qed.

Lemma discovered_identifier (files : list node) (x : jsstring) :
  x ∈ discovered files → identifier x.
Proof.
  assert (∀ n, x ∈ discoveredEntry n → identifier x) as Hentry.
  { induction n as [name content|name entries IH] using node_nested_ind.
    - cbn. destruct (isSourceFile name); [|by intros ?%elem_of_nil].
      apply capturesIn_identifier.
    - rewrite discoveredEntry_Dir.
      destruct (negb (isSkippedDirectory name)); [|by intros ?%elem_of_nil].
      induction IH as [|e entries He _ IHe]; cbn [discovered].
      + by intros ?%elem_of_nil.
      + intros [?|?]%elem_of_app; auto. }
  induction files as [|f files IH]; cbn [discovered].
  - by intros ?%elem_of_nil.
  - intros [?|?]%elem_of_app; eauto.
Qed.

(** Every environment variable that [extractPluginInfo] reports is an
    identifier: it is not empty and made of letters, digits and
    underscores only. *)
Theorem env_names_are_identifiers (parse : parser) (d : Fs.disk)
    (repoPath : jsstring) (pluginInfo : PluginInfo.t) :
  extractPluginInfo parse d repoPath = Some pluginInfo →
  Forall identifier (PluginInfo.envVars pluginInfo).
Proof.
  intros (files & found & _ & Hscan & ->)%extractPluginInfo_envVars.
  apply Forall_forall. intros x Hx.
  apply (discovered_identifier files). by apply (scan_result _ _ Hscan).
Qed.

Lemma env_names_are_identifiers_witness :
  Forall identifier [str "BAR"; str "FOO"].
Proof.
  destruct (extractPluginInfo Sample.parseManifest Sample.disk Sample.repoPath)
    as [pluginInfo|] eqn:E; [|by vm_compute in E].
  assert (PluginInfo.envVars pluginInfo = [str "BAR"; str "FOO"]) as <-.
  { vm_compute in E. by injection E as <-. }
  exact (env_names_are_identifiers Sample.parseManifest Sample.disk
           Sample.repoPath pluginInfo E).
Defined.

(** ** The components found in a directory *)

Lemma searchFrom_elem (r : regex) (s : jsstring) :
  ∀ (pre : jsstring) (m : Re.jsmatch),
    Re.searchFrom r (last pre) (length pre) s = Some m →
    ∃ pre' suf,
      pre ++ s = pre' ++ suf
      ∧ Re.matchHere r (last pre') (length pre') suf = Some m.
Proof.
  induction s as [|c s IH]; intros pre m; cbn [Re.searchFrom].
  - destruct (Re.matchHere r (last pre) (length pre) []) eqn:E; [|done].
    intros [= ->]. by exists pre, [].
  - destruct (Re.matchHere r (last pre) (length pre) (c :: s)) eqn:E.
    + intros [= ->]. by exists pre, (c :: s).
    + intros H. destruct (IH (pre ++ [c]) m) as (pre' & suf & Heq & Hm).
      { by rewrite last_snoc, length_app, Nat.add_1_r. }
      exists pre', suf. by rewrite <- Heq, <- app_assoc.
Qed.

Lemma search_matched (r : regex) (s : jsstring) (m : Re.jsmatch) :
  Re.search r s = Some m →
  ∃ st mid, matched r st mid ∧ Re.m_groups m = Re.ms_caps mid.
Proof.
  intros H. apply (searchFrom_elem r s []) in H as (pre & suf & _ & H).
  apply matchHere_matched in H as (mid & after & Hmid & Hgroups & _).
  by eexists _, mid.
Qed.

Lemma exportName_identifier (text : jsstring) (m : Re.jsmatch) :
  Re.search Pat.exportNameRegex text = Some m → identifier (cap m 1).
Proof.
  intros (st & mid & Hmid & Hgroups)%search_matched.
  unfold Pat.exportNameRegex, Pat.exportHead in Hmid. cbn [Re.seqs] in Hmid.
  destruct Hmid as (m1 & _ & m2 & _ & m3 & _ & m4 & _ & Hgroup).
  apply matched_word_group in Hgroup as (name & Hname & Hcap).
  unfold cap, JS.capture. by rewrite Hgroups, Hcap.
Qed.

Lemma defaultExport_identifier (content : jsstring) (m : Re.jsmatch) :
  Re.search Pat.defaultExportRegex content = Some m → identifier (cap m 1).
Proof.
  intros (st & mid & Hmid & Hgroups)%search_matched.
  unfold Pat.defaultExportRegex in Hmid. cbn [Re.seqs] in Hmid.
  destruct Hmid as (m1 & _ & m2 & _ & m3 & _ & m4 & _ & m5 & _ & m6 & _
                    & m7 & _ & m8 & _ & m9 & _ & m10 & Hgroup & Hrest).
  apply matched_word_group in Hgroup as (name & Hname & Hcap).
  unfold cap, JS.capture. rewrite Hgroups.
  rewrite (matched_caps Pat.quote 1 (not_elem_of_nil _) _ _ Hrest).
  by rewrite Hcap.
Qed.

(** A component read from the file [file] of a component directory. *)
Definition fromFile (type : ComponentType) (file content : jsstring)
    (c : ComponentInfo.t) : Prop :=
  identifier (ComponentInfo.name c)
  ∧ ComponentInfo.sourceCode c = Some content
  ∧ ComponentInfo.filePath c
    = Some (str "src/" ++ typeName type ++ str "/" ++ file).

Lemma exportsOfFile_fromFile (type : ComponentType)
    (suffix file content : jsstring) (c : ComponentInfo.t) :
  c ∈ exportsOfFile type suffix file content → fromFile type file content c.
Proof.
  unfold exportsOfFile. intros [Hc|Hc]%elem_of_app.
  - apply list_elem_of_omap in Hc as (exportMatch & _ & Hc).
    destruct (Re.search Pat.exportNameRegex _) as [nameMatch|] eqn:Hname;
      [|done].
    destruct (JS.truthy (cap nameMatch 1)); [|done]. injection Hc as <-.
    split; [|done]. by eapply exportName_identifier.
  - destruct type; try by apply elem_of_nil in Hc.
    destruct (Re.search Pat.defaultExportRegex content) as [m|] eqn:Hm;
      [|by apply elem_of_nil in Hc].
    destruct (JS.truthy (cap m 1)); [|by apply elem_of_nil in Hc].
    apply list_elem_of_singleton in Hc as ->.
    split; [|done]. by eapply defaultExport_identifier.
Qed.

Lemma scanDirectory_fromFile (d : Fs.disk) (dirPath : jsstring)
    (type : ComponentType) (suffix : jsstring)
    (components : list ComponentInfo.t) (c : ComponentInfo.t) :
  scanDirectory d dirPath type suffix = Some components →
  c ∈ components →
  ∃ files entry content,
    Fs.readdir d dirPath = Some files
    ∧ entry ∈ files
    ∧ isSourceFile (Fs.nodeName entry) = true
    ∧ Fs.readFile d (Path.join [dirPath; Fs.nodeName entry]) = Some content
    ∧ fromFile type (Fs.nodeName entry) content c.
Proof.
  unfold scanDirectory.
  destruct (Fs.readdir d dirPath) as [files|]; [|done].
  cbn [mbind option_bind]. intros Hscan Hc.
  enough (∃ entry content,
            entry ∈ files
            ∧ isSourceFile (Fs.nodeName entry) = true
            ∧ Fs.readFile d (Path.join [dirPath; Fs.nodeName entry])
              = Some content
            ∧ fromFile type (Fs.nodeName entry) content c)
    as (entry & content & ?); [by exists files, entry, content|].
  revert components Hscan Hc.
  induction files as [|entry files IH] using rev_ind;
    intros components Hscan Hc.
  - injection Hscan as <-. by apply elem_of_nil in Hc.
  - rewrite foldl_app in Hscan. cbn [foldl] in Hscan.
    destruct (foldl _ (Some []) files) as [before|] eqn:Hbefore; [|done].
    cbn [mbind option_bind] in Hscan.
    assert (c ∈ before → ∃ entry0 content,
              entry0 ∈ files ++ [entry]
              ∧ isSourceFile (Fs.nodeName entry0) = true
              ∧ Fs.readFile d (Path.join [dirPath; Fs.nodeName entry0])
                = Some content
              ∧ fromFile type (Fs.nodeName entry0) content c) as Hold.
    { intros Hin. destruct (IH before eq_refl Hin) as (e & content & ? & ?).
      exists e, content. split; [|done]. apply elem_of_app. by left. }
    destruct (isSourceFile (Fs.nodeName entry)) eqn:Hsource.
    + destruct (Fs.readFile d _) as [content|] eqn:Hread; [|done].
      cbn [mbind option_bind] in Hscan. injection Hscan as <-.
      apply elem_of_app in Hc as [Hc|Hc]; [by apply Hold|].
      exists entry, content. split; [apply elem_of_app; right; left|].
      do 2 (split; [done|]). by eapply exportsOfFile_fromFile.
    + injection Hscan as <-. by apply Hold.
Qed.

Lemma fromDirectory_elem (d : Fs.disk) (srcPath : jsstring)
    (type : ComponentType) (suffix : jsstring)
    (current : list ComponentInfo.t) (c : ComponentInfo.t) :
  c ∈ fromDirectory d srcPath type suffix current →
  c ∈ current
  ∨ ∃ files entry content,
      Fs.readdir d (Path.join [srcPath; typeName type]) = Some files
      ∧ entry ∈ files
      ∧ isSourceFile (Fs.nodeName entry) = true
      ∧ Fs.readFile d (Path.join [Path.join [srcPath; typeName type];
                                  Fs.nodeName entry]) = Some content
      ∧ fromFile type (Fs.nodeName entry) content c.
Proof.
  unfold fromDirectory.
  destruct (Fs.pathExists d _ && bool_decide (length current = 0));
    [|by left].
  destruct (scanDirectory d _ type suffix) as [[|c0 components]|] eqn:Hscan;
    try by left.
  intros Hc. right. by eapply scanDirectory_fromFile.
Qed.

(** The scan of a component directory is a fallback: components found
    in the entry file are kept as they are, and the directory is read
    only when there are none.  A component taken from the directory is
    an export of one of its [.ts] or [.js] files: its name is an
    identifier, its source is the text of that file and its path is
    that of the file under [src]. *)
Theorem directory_scan_is_fallback (d : Fs.disk) (srcPath : jsstring)
    (type : ComponentType) (suffix : jsstring)
    (current : list ComponentInfo.t) :
  (current ≠ [] → fromDirectory d srcPath type suffix current = current)
  ∧ (Fs.pathExists d (Path.join [srcPath; typeName type]) = false →
     fromDirectory d srcPath type suffix current = current)
  ∧ ∀ c, c ∈ fromDirectory d srcPath type suffix current →
         c ∈ current
         ∨ ∃ files entry content,
             Fs.readdir d (Path.join [srcPath; typeName type]) = Some files
             ∧ entry ∈ files
             ∧ isSourceFile (Fs.nodeName entry) = true
             ∧ Fs.readFile d (Path.join [Path.join [srcPath; typeName type];
                                         Fs.nodeName entry]) = Some content
             ∧ fromFile type (Fs.nodeName entry) content c.
Proof.
  split; [|split].
  - intros Hcurrent. unfold fromDirectory.
    destruct current as [|c current]; [done|].
    rewrite bool_decide_eq_false_2 by done. by rewrite andb_false_r.
  - intros Hmissing. unfold fromDirectory. by rewrite Hmissing.
  - apply fromDirectory_elem.
Qed.

(** ** The services of a plugin *)

Lemma serviceName_shape (clean : jsstring) (m : Re.jsmatch) :
  m ∈ Re.matchAll Pat.serviceNameRegex clean →
  ∃ w, identifier w ∧ Re.m_text m = w ++ str "Service".
Proof.
  intros (pre & suf & _ & Hm)%matchAll_elem.
  apply matchHere_matched in Hm as (mid & after & Hmid & _ & Hafter & Hsuf).
  unfold Pat.serviceNameRegex in Hmid. cbn [Re.seqs] in Hmid.
  destruct Hmid as (m1 & (w & Hw & Hrest1 & _)%matched_word1
                    & m2 & [Hrest2 _]%matched_lit & Hend).
  cbn [matched] in Hend. destruct Hend as [-> _].
  exists w. split; [done|]. cbn [Re.ms_rest] in Hrest1.
  rewrite Hrest1, Hrest2, Hafter in Hsuf.
  rewrite !app_assoc in Hsuf. by apply app_inv_tail in Hsuf.
Qed.

(** The components of a category come from the first pattern of the
    list that finds something in the entry file and yields a
    component: the patterns before it yield nothing. *)
Lemma firstSite_elem (read : jsstring → list ComponentInfo.t)
    (patterns : list regex) (indexContent : jsstring)
    (components : list ComponentInfo.t) :
  firstSite read patterns indexContent = Some components →
  components ≠ []
  ∧ ∃ before pattern after site,
      patterns = before ++ pattern :: after
      ∧ Forall (λ earlier, firstSite read [earlier] indexContent = None)
               before
      ∧ Re.search pattern indexContent = Some site
      ∧ components = read (cap site 1).
Proof.
  induction patterns as [|pattern patterns IH]; cbn [firstSite]; [done|].
  assert (firstSite read patterns indexContent = Some components →
          firstSite read [pattern] indexContent = None →
          components ≠ []
          ∧ ∃ before pattern' after site,
              pattern :: patterns = before ++ pattern' :: after
              ∧ Forall (λ earlier,
                          firstSite read [earlier] indexContent = None)
                       before
              ∧ Re.search pattern' indexContent = Some site
              ∧ components = read (cap site 1)) as Hnext.
  { intros (Hne & before & pattern' & after & site & -> & Hbefore & Hsite
            & Hread)%IH Hnone.
    split; [done|]. exists (pattern :: before), pattern', after, site.
    split; [done|]. split; [by constructor|]. by split. }
  cbn [firstSite] in Hnext.
  destruct (Re.search pattern indexContent) as [m|] eqn:Hsearch; [|by auto].
  destruct (JS.truthy (cap m 1)); [|by auto].
  destruct (read (cap m 1)) as [|c cs] eqn:Hread; [by auto|].
  intros [= <-]. split; [done|]. exists [], pattern, patterns, m.
  split; [done|]. split; [constructor|]. split; [done|]. by rewrite Hread.
Qed.

(** Where the services of a plugin come from.  Each is one of those
    given at the start, kept when the entry file names none; or it is
    the description of a word ending in [Service] that stands, outside
    the comments, in the array of services that one of the three
    patterns for services finds in the entry file, the first pattern
    that yields a service; or it is an export of a file of the
    directory [src/services]. *)
Theorem services_provenance (d : Fs.disk) (repoPath indexContent : jsstring)
    (pluginInfo : PluginInfo.t) (c : ComponentInfo.t) :
  c ∈ PluginInfo.services
        (extractPluginComponents d repoPath indexContent pluginInfo) →
  c ∈ PluginInfo.services pluginInfo
  ∨ (∃ before pattern after site occurrence w,
       Pat.servicePatterns = before ++ pattern :: after
       ∧ Forall (λ earlier,
                   firstSite (servicesOfArray d repoPath) [earlier]
                             indexContent = None) before
       ∧ Re.search pattern indexContent = Some site
       ∧ occurrence ∈ Re.matchAll Pat.serviceNameRegex
                        (cleanContent (cap site 1))
       ∧ Re.m_text occurrence = w ++ str "Service"
       ∧ identifier w
       ∧ c = describeComponent d repoPath (Re.m_text occurrence) services)
  ∨ ∃ files entry content,
      Fs.readdir d (Path.join [Path.join [repoPath; str "src"];
                               str "services"]) = Some files
      ∧ entry ∈ files
      ∧ isSourceFile (Fs.nodeName entry) = true
      ∧ Fs.readFile d (Path.join [Path.join [Path.join [repoPath; str "src"];
                                             str "services"];
                                  Fs.nodeName entry]) = Some content
      ∧ fromFile services (Fs.nodeName entry) content c.
Proof.
  unfold extractPluginComponents. cbn [PluginInfo.services]. intros Hc.
  apply fromDirectory_elem in Hc as [Hc|Hc]; [|by right; right].
  destruct (JS.truthy indexContent); [|by left].
  destruct (firstSite _ Pat.servicePatterns indexContent)
    as [components|] eqn:Hsite; cbn [default from_option id] in Hc;
    [|by left].
  right. left.
  apply firstSite_elem in Hsite
    as (_ & before & pattern & after & site & Hpatterns & Hbefore & Hsearch
        & ->).
  unfold servicesOfArray in Hc.
  apply list_elem_of_In, in_map_iff in Hc as (name & <- & Hname).
  apply list_elem_of_In, list_elem_of_fmap in Hname as (occurrence & -> & Hm).
  destruct (serviceName_shape _ _ Hm) as (w & Hw & Htext).
  by exists before, pattern, after, site, occurrence, w.
Qed.

Lemma services_provenance_witness :
  ∃ c, c ∈ PluginInfo.services
             (extractPluginComponents Sample.disk Sample.repoPath
                Sample.servicesIndex Sample.blankInfo)
       ∧ ∃ site occurrence,
           Re.search (Pat.propertySite (str "services")) Sample.servicesIndex
           = Some site
           ∧ occurrence ∈ Re.matchAll Pat.serviceNameRegex
                            (cleanContent (cap site 1))
           ∧ Re.m_text occurrence = str "WalletService"
           ∧ c = describeComponent Sample.disk Sample.repoPath
                   (str "WalletService") services.
Proof.
  destruct (PluginInfo.services
              (extractPluginComponents Sample.disk Sample.repoPath
                 Sample.servicesIndex Sample.blankInfo))
    as [|c l] eqn:Hl; [by vm_compute in Hl|].
  assert (c ∈ PluginInfo.services
                (extractPluginComponents Sample.disk Sample.repoPath
                   Sample.servicesIndex Sample.blankInfo)) as Hc
    by (rewrite Hl; left).
  exists c. split; [left|].
  destruct (services_provenance _ _ _ _ _ Hc) as [Hin|[Hsite|Hdir]].
  - by apply elem_of_nil in Hin.
  - destruct Hsite as (before & pattern & after & site & occurrence & w
                       & Hpatterns & Hbefore & Hsearch & Hocc & Htext & Hw
                       & Hdesc).
    assert (before = []) as ->.
    { destruct before as [|earlier before]; [done|].
      apply Forall_cons in Hbefore as [Hnone _].
      injection Hpatterns as <- _. by vm_compute in Hnone. }
    injection Hpatterns as <- _.
    assert (Re.m_text occurrence = str "WalletService") as Hname.
    { assert (Re.search (Pat.propertySite (str "services"))
                        Sample.servicesIndex
              = Some site) as Hsearch' by exact Hsearch.
      vm_compute in Hsearch'. injection Hsearch' as <-.
      vm_compute in Hocc. apply list_elem_of_singleton in Hocc as ->.
      by vm_compute. }
    exists site, occurrence. rewrite <- Hname. by repeat split.
  - destruct Hdir as (files & _ & _ & Hdir & _). by vm_compute in Hdir.
Defined.

(** ** The environment variables in the filled template *)

Lemma elem_of_join (sep : jsstring) (parts : list jsstring) (c : N) :
  c ∈ JS.join sep parts → c ∈ sep ∨ ∃ p, p ∈ parts ∧ c ∈ p.
Proof.
  induction parts as [|p parts IH]; cbn [JS.join].
  - by intros ?%elem_of_nil.
  - destruct parts as [|q parts].
    + intros Hc. right. exists p. split; [left|done].
    + intros [Hc|[Hc|Hc]%elem_of_app]%elem_of_app.
      * right. exists p. split; [left|done].
      * by left.
      * destruct (IH Hc) as [?|(p' & Hp' & ?)]; [by left|].
        right. exists p'. split; [by right|done].
Qed.

Lemma join_holds (sep : jsstring) (parts : list jsstring) (p : jsstring) :
  p ∈ parts → ∃ A B, JS.join sep parts = A ++ p ++ B.
Proof.
  induction parts as [|q parts IH]; [by intros ?%elem_of_nil|].
  intros [->|Hp]%elem_of_cons; cbn [JS.join].
  - destruct parts as [|q' parts].
    + exists [], []. by rewrite app_nil_r.
    + by exists [], (sep ++ JS.join sep (q' :: parts)).
  - destruct parts as [|q' parts]; [by apply elem_of_nil in Hp|].
    destruct (IH Hp) as (A & B & ->).
    exists (q ++ sep ++ A), B. by rewrite <- !app_assoc.
Qed.

Lemma includes_trans (a b s : jsstring) :
  JS.includes a b = true → JS.includes b s = true → JS.includes a s = true.
Proof.
  intros (A & B & ->)%includes_inv (A' & B' & ->)%includes_inv.
  apply includes_iff. exists (A' ++ A), (B ++ B').
  by rewrite <- !app_assoc.
Qed.

Lemma wordName_elem (name : jsstring) (c : N) :
  Pat.wordName name = true → c ∈ name → Re.isWord c = true.
Proof.
  unfold Pat.wordName. rewrite forallb_forall. intros Hall Hc.
  by apply Hall, list_elem_of_In.
Qed.

(** Every environment variable that [extractPluginInfo] reports has its
    line in the README that [generateReadmeFromTemplate] makes from the
    template of the repository: the name, [=your_], the name in lower
    case and [_here].  Lower case is taken to turn word characters into
    word characters. *)
Theorem env_vars_documented (w : World) (repoPath templatePath : jsstring)
    (pluginInfo : PluginInfo.t) (s : state) :
  extractPluginInfo (parse w) (disk s) repoPath = Some pluginInfo →
  Fs.readFile (disk s) templatePath = Some readmeTemplate →
  (∀ name, Pat.wordName name = true →
           Pat.wordName (toLowerCase w name) = true) →
  ∃ readme,
    generateReadmeFromTemplate w pluginInfo templatePath s
    = (Returned readme, s)
    ∧ ∀ env, env ∈ PluginInfo.envVars pluginInfo →
        JS.includes (env ++ str "=your_" ++ toLowerCase w env ++ str "_here")
                    readme = true.
Proof.
  intros Hinfo Hread Hlower.
  exists (fillTemplate (toLowerCase w) readmeTemplate pluginInfo).
  split; [by apply run_generateReadmeFromTemplate|].
  intros env Henv.
  assert (∀ x, x ∈ PluginInfo.envVars pluginInfo → Pat.wordName x = true)
    as Hwords.
  { apply extractPluginInfo_envVars in Hinfo
      as (files & found & _ & Hscan & ->).
    intros x Hx. apply (scan_result _ _ Hscan) in Hx.
    by destruct (discovered_identifier files x Hx). }
  set (line := λ env : jsstring,
         env ++ str "=your_" ++ toLowerCase w env ++ str "_here").
  set (value := envVarsSection (toLowerCase w) pluginInfo).
  assert (value = JS.join nl (map line (PluginInfo.envVars pluginInfo)))
    as Hvalue.
  { unfold value, envVarsSection.
    destruct (PluginInfo.envVars pluginInfo); [by apply elem_of_nil in Henv|].
    reflexivity. }
  assert (∀ c, c ∈ value → c ≠ 36%N ∧ c ≠ 123%N) as Hchars.
  { intros c Hc. rewrite Hvalue in Hc.
    apply elem_of_join in Hc as [Hc|(p & Hp & Hc)].
    - apply list_elem_of_singleton in Hc as ->. by split.
    - apply list_elem_of_In, in_map_iff in Hp as (x & <- & Hx).
      apply list_elem_of_In in Hx. unfold line in Hc.
      assert (Re.isWord c = true → c ≠ 36%N ∧ c ≠ 123%N) as Hword
        by (split; by intros ->).
      assert (∀ text : jsstring, 36%N ∉ text → 123%N ∉ text → c ∈ text →
                c ≠ 36%N ∧ c ≠ 123%N) as Htext
        by (intros text ? ? ?; split; by intros ->).
      apply elem_of_app in Hc as [Hc|Hc];
        [eauto using wordName_elem|].
      apply elem_of_app in Hc as [Hc|Hc];
        [apply (Htext (str "=your_")); [by_compute|by_compute|done]|].
      apply elem_of_app in Hc as [Hc|Hc];
        [eauto using wordName_elem|].
      apply (Htext (str "_here")); [by_compute|by_compute|done]. }
  apply (includes_trans _ value).
  - apply includes_iff. rewrite Hvalue. apply (join_holds nl _ (line env)).
    apply list_elem_of_In, (in_map line). by apply list_elem_of_In.
  - apply (fillTemplate_contains _ _ (str "ENV_VARS")).
    + do 4 apply list_elem_of_further. apply list_elem_of_here.
    + by vm_compute.
    + intros Hc. by destruct (Hchars _ Hc).
    + apply includes_head_absent. intros Hc. by destruct (Hchars _ Hc).
Qed.

Lemma lowerAscii_word (name : jsstring) :
  Pat.wordName name = true → Pat.wordName (Sample.lowerAscii name) = true.
Proof.
  unfold Pat.wordName, Sample.lowerAscii.
  induction name as [|c name IH]; [done|].
  cbn [forallb map]. intros [Hc Hname]%andb_true_iff.
  rewrite (IH Hname), andb_true_r. clear IH Hname.
  destruct ((65 <=? c)%N && (c <=? 90)%N) eqn:Hupper; [|exact Hc].
  apply andb_true_iff in Hupper as [Hlow Hhigh].
  apply N.leb_le in Hlow, Hhigh. unfold Re.isWord.
  apply orb_true_iff. right. apply andb_true_iff.
  split; apply N.leb_le; lia.
Qed.

Lemma env_vars_documented_witness :
  ∃ pluginInfo readme,
    extractPluginInfo Sample.parseManifest Sample.disk Sample.repoPath
    = Some pluginInfo
    ∧ generateReadmeFromTemplate Sample.localWorld pluginInfo
        (README_TEMPLATE_PATH Sample.localWorld) Sample.start
      = (Returned readme, Sample.start)
    ∧ JS.includes (str "FOO=your_foo_here") readme = true.
Proof.
  destruct (extractPluginInfo Sample.parseManifest Sample.disk Sample.repoPath)
    as [pluginInfo|] eqn:E; [|by vm_compute in E].
  destruct (env_vars_documented Sample.localWorld Sample.repoPath
              (README_TEMPLATE_PATH Sample.localWorld) pluginInfo Sample.start)
    as (readme & Hrun & Hlines).
  - exact E.
  - by vm_compute.
  - exact lowerAscii_word.
  - exists pluginInfo, readme. split; [done|]. split; [exact Hrun|].
    apply (Hlines (str "FOO")).
    assert (PluginInfo.envVars pluginInfo = [str "BAR"; str "FOO"]) as ->.
    { vm_compute in E. by injection E as <-. }
    by_compute.
Defined.

(** ** The download report *)

Section DownloadReport.
Import NpmReport NpmReport.PackageDownloads.

(** *** The counts of a package *)

(** The record of a package depends on its name only. *)
Lemma packageRecord_name (api : Npm.registry) (pkg pkg' : Package) :
  name pkg = name pkg' → packageRecord api pkg = packageRecord api pkg'.
Proof. unfold packageRecord. by intros ->. Qed.

Lemma packageRecord_packageName (api : Npm.registry) (pkg : Package) :
  packageName (packageRecord api pkg) = name pkg.
Proof.
  unfold packageRecord.
  by destruct (Npm.getDownloadStats api (name pkg) (str "last-week")),
     (Npm.getDownloadStats api (name pkg) (str "last-month")),
     (Npm.getDownloadStats api (name pkg) (str "last-year")).
Qed.

(** [fetchPackageDownloads] gives one record per package, in the order
    of the packages and under their names, for the period [last-year]
    and with the yearly count as the total.  The three counts of a
    record are those of the registry when all three requests were
    answered (a 404 and a missing field counting as zero); when one of
    the three requests failed, all three counts are zero, whatever the
    other two requests answered. *)
Theorem package_counts_all_or_nothing (api : Npm.registry)
    (packages : list Package) :
  Forall2
    (λ pkg d,
       let stats period := Npm.getDownloadStats api (name pkg) period in
       packageName d = name pkg
       ∧ downloadsPeriod d = str "last-year"
       ∧ totalDownloads d = yearlyDownloads d
       ∧ (is_Some (stats (str "last-week")) → is_Some (stats (str "last-month")) →
          is_Some (stats (str "last-year")) →
          stats (str "last-week") = Some (weeklyDownloads d)
          ∧ stats (str "last-month") = Some (monthlyDownloads d)
          ∧ stats (str "last-year") = Some (yearlyDownloads d))
       ∧ (stats (str "last-week") = None ∨ stats (str "last-month") = None
          ∨ stats (str "last-year") = None →
          weeklyDownloads d = 0%Z ∧ monthlyDownloads d = 0%Z
          ∧ yearlyDownloads d = 0%Z))
    packages (fetchPackageDownloads api packages).
Proof.
  unfold fetchPackageDownloads.
  induction packages as [|pkg packages IH]; constructor; [|exact IH].
  cbv zeta. unfold packageRecord.
  destruct (Npm.getDownloadStats api (name pkg) (str "last-week")) as [w|],
    (Npm.getDownloadStats api (name pkg) (str "last-month")) as [m|],
    (Npm.getDownloadStats api (name pkg) (str "last-year")) as [y|];
    cbn [packageName downloadsPeriod totalDownloads weeklyDownloads
         monthlyDownloads yearlyDownloads];
    split_and!; try done; intros;
    repeat match goal with
      | H : is_Some None |- _ => by destruct H
      | H : _ ∨ _ |- _ => destruct H
      | H : Some _ = None |- _ => discriminate H
      end.
Qed.

(** *** The estimates of the versions *)





(** *** The summary *)



(** *** The sheets *)

(** The cell of a row under a column, and the sheet of a workbook under
    a name. *)
Definition cellOf (column : jsstring) (r : row) : option cell :=
  snd <$> find (λ entry, entry.1 = column) r.

Definition sheetOf (sheetName : jsstring) (report : workbook)
    : option sheet :=
  snd <$> find (λ entry, entry.1 = sheetName) report.

Lemma find_packageRecord (api : Npm.registry) (packages : list Package)
    (pkg : Package) :
  pkg ∈ packages →
  find (λ d, packageName d = name pkg) (fetchPackageDownloads api packages)
  = Some (packageRecord api pkg).
Proof.
  unfold find, fetchPackageDownloads.
  induction packages as [|p packages IH]; intros Hin;
    [by apply elem_of_nil in Hin|].
  cbn [map list_find]. rewrite packageRecord_packageName.
  destruct (decide (name p = name pkg)) as [Heq|Hne].
  - cbn. f_equal. by apply packageRecord_name.
  - apply elem_of_cons in Hin as [->|Hin]; [done|].
    specialize (IH Hin).
    destruct (list_find _ (map (packageRecord api) packages)) as [[i d]|];
      [|done].
    cbn in IH |- *. exact IH.
Qed.

Lemma fetchPackageDownloads_lookup (api : Npm.registry)
    (packages : list Package) (i : nat) :
  fetchPackageDownloads api packages !! i
  = packageRecord api <$> packages !! i.
Proof. apply list_lookup_fmap. Qed.

(** In the workbook built from the counts that [fetchPackageDownloads]
    gives for the packages, the sheets [Package Overview] and
    [Package Downloads] have one row per package and agree row by row
    on the name and on the weekly, monthly and yearly counts, also when
    the list holds a name twice. *)
Theorem overview_agrees_with_downloads (api : Npm.registry)
    (now : jsstring) (packages : list Package)
    (versionDownloads : list Npm.VersionDownloads) :
  let report :=
    buildWorkbook now packages (fetchPackageDownloads api packages)
                  versionDownloads in
  ∃ overview downloads,
    sheetOf (str "Package Overview") report = Some overview
    ∧ sheetOf (str "Package Downloads") report = Some downloads
    ∧ length overview = length packages
    ∧ length downloads = length packages
    ∧ ∀ i column,
        column ∈ [str "Package Name"; str "Weekly Downloads";
                  str "Monthly Downloads"; str "Yearly Downloads"] →
        overview !! i ≫= cellOf column = downloads !! i ≫= cellOf column.
Proof.
  cbv zeta. unfold buildWorkbook.
  exists (overviewRow (fetchPackageDownloads api packages) <$> packages),
    (downloadsRow <$> fetchPackageDownloads api packages).
  split; [reflexivity|]. split; [reflexivity|].
  split; [by rewrite length_fmap|].
  split; [unfold fetchPackageDownloads; by rewrite length_fmap, length_map|].
  intros i column Hcolumn.
  unfold sheet. rewrite !list_lookup_fmap, fetchPackageDownloads_lookup.
  destruct (packages !! i) as [pkg|] eqn:Hi; [|done].
  cbn [fmap option_fmap option_map mbind option_bind].
  unfold overviewRow.
  rewrite (find_packageRecord api packages pkg)
    by eauto using list_elem_of_lookup_2.
  cbn [fmap option_fmap option_map orZero default].
  unfold downloadsRow. rewrite packageRecord_packageName.
  repeat (apply elem_of_cons in Hcolumn as [->|Hcolumn]; [reflexivity|]).
  by apply elem_of_nil in Hcolumn.
Qed.

(** *** Sorting *)

Lemma insertBy_Permutation {A} (compare : A → A → Z) (x : A) (l : list A) :
  insertBy compare x l ≡ₚ x :: l.
Proof.
  induction l as [|y l IH]; cbn [insertBy]; [done|].
  destruct (compare x y <=? 0)%Z; [done|].
  rewrite IH. apply Permutation_swap.
Qed.

Lemma sortBy_Permutation {A} (compare : A → A → Z) (l : list A) :
  sortBy compare l ≡ₚ l.
Proof.
  induction l as [|x l IH]; [done|].
  unfold sortBy in *. cbn [foldr]. by rewrite insertBy_Permutation, IH.
Qed.

(** A comparison is consistent with an order when it is not positive
    exactly on the pairs of the order. *)
Lemma insertBy_sorted {A} (compare : A → A → Z) (R : relation A)
    (x : A) (l : list A) :
  Transitive R →
  (∀ a b, (compare a b ≤ 0)%Z → R a b) →
  (∀ a b, (0 < compare a b)%Z → R b a) →
  StronglySorted R l → StronglySorted R (insertBy compare x l).
Proof.
  intros Htrans Hle Hgt. induction 1 as [|y l Hl IH Hy]; cbn [insertBy].
  - by repeat constructor.
  - destruct (Z.leb_spec (compare x y) 0) as [Hxy|Hxy].
    + apply Hle in Hxy. constructor; [by constructor|].
      constructor; [done|].
      eapply Forall_impl; [exact Hy|]. intros z Hz. by etrans.
    + apply Hgt in Hxy. constructor; [done|].
      rewrite insertBy_Permutation. by constructor.
Qed.

Lemma sortBy_sorted {A} (compare : A → A → Z) (R : relation A)
    (l : list A) :
  Transitive R →
  (∀ a b, (compare a b ≤ 0)%Z → R a b) →
  (∀ a b, (0 < compare a b)%Z → R b a) →
  StronglySorted R (sortBy compare l).
Proof.
  intros Htrans Hle Hgt. induction l as [|x l IH]; [constructor|].
  unfold sortBy in *. cbn [foldr]. by eapply insertBy_sorted.
Qed.

(** The packages that [printSummary] lists are the five records with
    the largest yearly counts, or all records when there are fewer: they
    stand in the order of decreasing counts, and no record that is left
    out has a larger count than a listed one. *)
Theorem top_five_are_largest (packages : list Package)
    (packageDownloads : list PackageDownloads.t) :
  let top := topPackages (printSummary packages packageDownloads) in
  let more a b := (yearlyDownloads b ≤ yearlyDownloads a)%Z in
  length top = min 5 (length packageDownloads)
  ∧ StronglySorted more top
  ∧ ∃ others, top ++ others ≡ₚ packageDownloads
              ∧ ∀ t d, t ∈ top → d ∈ others → more t d.
Proof.
  cbv zeta. cbn [printSummary topPackages].
  set (compare := λ a b : PackageDownloads.t,
                    (yearlyDownloads b - yearlyDownloads a)%Z).
  set (more := λ a b : PackageDownloads.t,
                 (yearlyDownloads b ≤ yearlyDownloads a)%Z).
  assert (StronglySorted more (sortBy compare packageDownloads)) as Hsorted.
  { apply sortBy_sorted.
    - intros a b c. unfold more. lia.
    - intros a b. unfold compare, more. lia.
    - intros a b. unfold compare, more. lia. }
  rewrite <- (take_drop 5 (sortBy compare packageDownloads)) in Hsorted.
  split; [|split].
  - rewrite length_take. by rewrite (Permutation_length (sortBy_Permutation _ _)).
  - by eapply StronglySorted_app_1_l.
  - exists (drop 5 (sortBy compare packageDownloads)). split.
    + rewrite take_drop. apply sortBy_Permutation.
    + intros top d Ht Hd.
      exact (StronglySorted_app_1_elem_of _ _ _ _ _ Hsorted Ht Hd).
Qed.

(** *** The packages of the organization *)

Lemma foldl_bind_None {A B} (step : A → B → option A) (xs : list B) :
  foldl (λ acc x, a ← acc; step a x) None xs = None.
Proof. induction xs as [|x xs IH]; [done|]. exact IH. Qed.

(** A loop whose turns only append to the list that it builds. *)
Lemma foldl_bind_extend {B C} (step : list C → B → option (list C))
    (R : B → list C → Prop) (xs : list B) (init res : list C) :
  (∀ a x a', step a x = Some a' → ∃ new, a' = a ++ new ∧ R x new) →
  foldl (λ acc x, a ← acc; step a x) (Some init) xs = Some res →
  ∃ news, res = init ++ concat news ∧ Forall2 R xs news.
Proof.
  intros Hstep. revert init.
  induction xs as [|x xs IH]; intros init Hres.
  - exists []. cbn in *. split; [|constructor].
    rewrite app_nil_r. congruence.
  - cbn [foldl mbind option_bind] in Hres.
    destruct (step init x) as [a'|] eqn:Hx;
      [|by rewrite foldl_bind_None in Hres].
    apply Hstep in Hx as (new & -> & Hnew).
    apply IH in Hres as (news & -> & Hnews).
    exists (new :: news). split; [|by constructor].
    cbn [concat]. by rewrite app_assoc.
Qed.

Lemma Forall2_elem_l {A B} (R : A → B → Prop) (l : list A) (k : list B)
    (x : A) :
  Forall2 R l k → x ∈ l → ∃ y, y ∈ k ∧ R x y.
Proof.
  induction 1 as [|a b l k Hab _ IH]; intros Hx;
    [by apply elem_of_nil in Hx|].
  apply elem_of_cons in Hx as [->|Hx].
  - exists b. split; [left|done].
  - destruct (IH Hx) as (y & Hy & HR). exists y. split; [by right|done].
Qed.

Lemma Forall2_elem_r {A B} (R : A → B → Prop) (l : list A) (k : list B)
    (y : B) :
  Forall2 R l k → y ∈ k → ∃ x, x ∈ l ∧ R x y.
Proof.
  induction 1 as [|a b l k Hab _ IH]; intros Hy;
    [by apply elem_of_nil in Hy|].
  apply elem_of_cons in Hy as [->|Hy].
  - exists a. split; [left|done].
  - destruct (IH Hy) as (x & Hx & HR). exists x. split; [by right|done].
Qed.

Lemma elem_of_concat {A} (x : A) (ls : list (list A)) :
  x ∈ concat ls ↔ ∃ l, l ∈ ls ∧ x ∈ l.
Proof.
  rewrite list_elem_of_In, in_concat. split.
  - intros (l & Hl & Hx). exists l. by rewrite !list_elem_of_In.
  - intros (l & Hl & Hx). exists l. by rewrite <- !list_elem_of_In.
Qed.

(** A hit counts for a search term under the name [hname] when that is
    its name and starts with the term and a slash. *)
Definition counts (searchTerm : jsstring) (h : Hit) (hname : jsstring)
    : Prop :=
  hitName h = Some hname
  ∧ JS.startsWith (searchTerm ++ str "/") hname = true.

(** What an object of a search result adds to the packages: nothing, or
    the package of its name with the versions of its document. *)
Definition addedBy (env : Env) (searchTerm : jsstring)
    (object : option Hit) (new : list Package) : Prop :=
  ∃ h, object = Some h
       ∧ ((new = [] ∧ ∀ hname, ¬ counts searchTerm h hname)
          ∨ ∃ pkg versionKeys created modified,
              new = [pkg]
              ∧ counts searchTerm h (name pkg)
              ∧ detail env (name pkg)
                = DetailBody versionKeys created modified
              ∧ versions pkg = default [] versionKeys).

Lemma startsWith_slash_truthy (searchTerm hname : jsstring) :
  JS.startsWith (searchTerm ++ str "/") hname = true →
  JS.truthy hname = true.
Proof.
  destruct hname as [|c hname]; [|done].
  by destruct searchTerm.
Qed.

Lemma addHit_added (env : Env) (searchTerm : jsstring)
    (packages packages' : list Package) (object : option Hit) :
  addHit env searchTerm packages object = Some packages' →
  ∃ new, packages' = packages ++ new ∧ addedBy env searchTerm object new.
Proof.
  unfold addHit. destruct object as [h|]; [|done].
  cbn [mbind option_bind]. intros Hadd.
  destruct (hitName h) as [hname|] eqn:Hname.
  - destruct (JS.startsWith (searchTerm ++ str "/") hname) eqn:Hstarts.
    + rewrite (startsWith_slash_truthy _ _ Hstarts) in Hadd.
      cbn [andb] in Hadd.
      destruct (detail env hname) as [|versionKeys created modified]
        eqn:Hdetail; [done|].
      injection Hadd as <-. eexists. split; [done|].
      exists h. split; [done|]. right.
      eexists _, versionKeys, created, modified. split; [done|].
      by repeat split.
    + rewrite andb_false_r in Hadd. injection Hadd as <-.
      exists []. split; [by rewrite app_nil_r|].
      exists h. split; [done|]. left. split; [done|].
      intros n [Hn Hs]. congruence.
  - injection Hadd as <-. exists []. split; [by rewrite app_nil_r|].
    exists h. split; [done|]. left. split; [done|].
    intros n [Hn Hs]. congruence.
Qed.

(** What a search adds: its request is answered, and each of its
    objects adds its part. *)
Definition addedBySearch (env : Env) (searchTerm : jsstring)
    (new : list Package) : Prop :=
  ∃ objects news,
    search env searchTerm = SearchBody objects
    ∧ new = concat news
    ∧ Forall2 (addedBy env searchTerm) (default [] objects) news.

Lemma addSearch_added (env : Env) (searchTerm : jsstring)
    (packages packages' : list Package) :
  addSearch env packages searchTerm = Some packages' →
  ∃ new, packages' = packages ++ new ∧ addedBySearch env searchTerm new.
Proof.
  unfold addSearch.
  destruct (search env searchTerm) as [|objects] eqn:Hsearch; [done|].
  intros Hfold.
  apply (foldl_bind_extend (addHit env searchTerm)
           (addedBy env searchTerm)) in Hfold as (news & -> & Hnews);
    [|intros ????; by apply addHit_added].
  exists (concat news). split; [done|]. by exists objects, news.
Qed.

Lemma uniquePackages_snoc (l : list Package) (x : Package) :
  uniquePackages (l ++ [x])
  = uniquePackages l
    ++ (if decide (name x ∈ name <$> l) then [] else [x]).
Proof.
  unfold uniquePackages. rewrite imap_app, omap_app. f_equal.
  - apply list_omap_ext, Forall_Forall2_diag, Forall_forall.
    intros [i y] Hy. apply elem_of_lookup_imap in Hy as (j & z & Heq & Hz).
    injection Heq as -> ->. unfold findIndex.
    destruct (list_find_elem_of (λ p, name p = name z) l z) as [[k u] Hk];
      [by eapply list_elem_of_lookup_2|done|].
    by rewrite (list_find_app_l _ _ _ _ _ Hk), Hk.
  - cbn [imap omap list_omap]. rewrite Nat.add_0_r. unfold findIndex.
    destruct (decide (name x ∈ name <$> l)) as [Hin|Hnotin].
    + apply list_elem_of_fmap in Hin as (y & Hname & Hy).
      destruct (list_find_elem_of (λ p, name p = name x) l y) as [[k u] Hk];
        [done..|].
      rewrite (list_find_app_l _ _ _ _ _ Hk). cbn.
      apply list_find_Some in Hk as [Hk _].
      apply lookup_lt_Some in Hk.
      rewrite bool_decide_eq_false_2; [done|]. intros [= ->]. lia.
    + assert (list_find (λ p, name p = name x) l = None) as Hnone.
      { apply list_find_None, Forall_forall. intros y Hy Hname.
        apply Hnotin, list_elem_of_fmap. by exists y. }
      rewrite (list_find_app_r _ _ _ Hnone). cbn.
      rewrite decide_True by done. cbn.
      by rewrite bool_decide_eq_true_2.
Qed.

(** The filter keeps one package of each name, the first. *)
Lemma uniquePackages_spec (l : list Package) :
  NoDup (name <$> uniquePackages l)
  ∧ (∀ p, p ∈ uniquePackages l → p ∈ l)
  ∧ ∀ n, n ∈ name <$> l → n ∈ name <$> uniquePackages l.
Proof.
  induction l as [|x l (Hnodup & Hsub & Hall)] using rev_ind.
  - split; [constructor|]. split; [done|]. done.
  - rewrite uniquePackages_snoc.
    destruct (decide (name x ∈ name <$> l)) as [Hin|Hnotin].
    + rewrite app_nil_r. split; [done|]. split.
      * intros p Hp. apply elem_of_app. left. by apply Hsub.
      * intros n Hn. rewrite fmap_app in Hn.
        apply elem_of_app in Hn as [Hn|Hn]; [by apply Hall|].
        apply list_elem_of_singleton in Hn as ->. by apply Hall.
    + rewrite fmap_app. split; [|split].
      * apply NoDup_app. split; [done|]. split; [|apply NoDup_singleton].
        intros n Hn Hx. apply list_elem_of_singleton in Hx as ->.
        apply Hnotin. apply list_elem_of_fmap in Hn as (p & -> & Hp).
        apply list_elem_of_fmap. exists p. split; [done|]. by apply Hsub.
      * intros p Hp. apply elem_of_app in Hp as [Hp|Hp].
        -- apply elem_of_app. left. by apply Hsub.
        -- apply elem_of_app. by right.
      * intros n Hn. rewrite fmap_app in Hn.
        apply elem_of_app in Hn as [Hn|Hn].
        -- apply elem_of_app. left. by apply Hall.
        -- apply elem_of_app. by right.
Qed.

(** The packages before the filter and the sort: what the searches
    added, one after the other. *)
Lemma fetchOrganizationPackages_parts (env : Env) (packages : list Package) :
  fetchOrganizationPackages env = Some packages →
  ∃ parts,
    Forall2 (addedBySearch env) searchTerms parts
    ∧ packages
      = sortBy (λ a b, localeCompare env (name a) (name b))
               (uniquePackages (concat parts)).
Proof.
  unfold fetchOrganizationPackages. intros Hfetch.
  destruct (foldl _ (Some []) searchTerms) as [found|] eqn:Hfold; [|done].
  cbn [mbind option_bind] in Hfetch. injection Hfetch as <-.
  apply (foldl_bind_extend (addSearch env) (addedBySearch env))
    in Hfold as (parts & -> & Hparts);
    [|intros ????; by apply addSearch_added].
  by exists parts.
Qed.

(** When [fetchOrganizationPackages] returns, its packages are those of
    the hits that count for one of the two search terms, each once: no
    name occurs twice; every package has the name of a hit of one of
    the searches that starts with the search term and a slash, and the
    versions of its document; and every such hit has its package in the
    list. *)
Theorem organization_packages (env : Env) (packages : list Package) :
  fetchOrganizationPackages env = Some packages →
  NoDup (name <$> packages)
  ∧ (∀ pkg, pkg ∈ packages →
       ∃ searchTerm objects h versionKeys created modified,
         searchTerm ∈ searchTerms
         ∧ search env searchTerm = SearchBody (Some objects)
         ∧ Some h ∈ objects
         ∧ counts searchTerm h (name pkg)
         ∧ detail env (name pkg) = DetailBody versionKeys created modified
         ∧ versions pkg = default [] versionKeys)
  ∧ (∀ searchTerm objects h hname,
       searchTerm ∈ searchTerms →
       search env searchTerm = SearchBody (Some objects) →
       Some h ∈ objects →
       counts searchTerm h hname →
       hname ∈ name <$> packages).
Proof.
  intros Hfetch.
  apply fetchOrganizationPackages_parts in Hfetch as (parts & Hparts & ->).
  set (compare := λ a b, localeCompare env (name a) (name b)).
  destruct (uniquePackages_spec (concat parts)) as (Hnodup & Hsub & Hall).
  pose proof (sortBy_Permutation compare (uniquePackages (concat parts)))
    as Hperm.
  split; [by rewrite Hperm|]. split.
  - intros pkg Hpkg. rewrite Hperm in Hpkg.
    apply Hsub, elem_of_concat in Hpkg as (part & Hpart & Hpkg).
    destruct (Forall2_elem_r _ _ _ _ Hparts Hpart)
      as (searchTerm & Hterm & objects & news & Hsearch & -> & Hnews).
    apply elem_of_concat in Hpkg as (new & Hnew & Hpkg).
    destruct (Forall2_elem_r _ _ _ _ Hnews Hnew)
      as (object & Hobject & h & -> & Hadded).
    destruct Hadded as [[-> _]|(pkg' & versionKeys & created & modified
                                & -> & Hcounts & Hdetail & Hversions)];
      [by apply elem_of_nil in Hpkg|].
    apply list_elem_of_singleton in Hpkg as ->.
    destruct objects as [objects|]; [|by apply elem_of_nil in Hobject].
    by exists searchTerm, objects, h, versionKeys, created, modified.
  - intros searchTerm objects h hname Hterm Hsearch Hh Hcounts.
    rewrite Hperm. apply Hall.
    destruct (Forall2_elem_l _ _ _ _ Hparts Hterm)
      as (part & Hpart & objects' & news & Hsearch' & -> & Hnews).
    rewrite Hsearch in Hsearch'. injection Hsearch' as <-.
    destruct (Forall2_elem_l _ _ _ _ Hnews Hh)
      as (new & Hnew & h' & [= <-] & Hadded).
    destruct Hadded as [[_ Hnone]|(pkg & versionKeys & created & modified
                                   & -> & Hcounts' & _)];
      [by destruct (Hnone hname)|].
    assert (name pkg = hname) as <-.
    { destruct Hcounts as [Hn _], Hcounts' as [Hn' _]. congruence. }
    apply list_elem_of_fmap. exists pkg. split; [done|].
    apply elem_of_concat. exists (concat news). split; [done|].
    apply elem_of_concat. exists [pkg]. split; [done|]. left.
Qed.

Lemma organization_packages_witness :
  ∃ packages,
    fetchOrganizationPackages Sample.npmEnv = Some packages
    ∧ name <$> packages = [str "@elizaos/core"; str "@elizaos/plugin-x"]
    ∧ NoDup (name <$> packages).
Proof.
  destruct (fetchOrganizationPackages Sample.npmEnv) as [packages|] eqn:Hfetch;
    [|by vm_compute in Hfetch].
  exists packages. split; [done|].
  split; [|by destruct (organization_packages _ _ Hfetch)].
  vm_compute in Hfetch. injection Hfetch as <-. by vm_compute.
Defined.

(** *** The run *)






(** A failure of the registry while the packages are listed ends the
    run with exit code 1 and without a report: when one of the two
    searches is refused, returns an object without a package, or
    returns a hit that counts and whose document cannot be fetched,
    [fetchOrganizationPackages] throws, also when other packages were
    found before. *)
Theorem registry_failure_aborts (env : Env) (searchTerm : jsstring) :
  searchTerm ∈ searchTerms →
  (search env searchTerm = SearchFailed
   ∨ ∃ objects,
       search env searchTerm = SearchBody (Some objects)
       ∧ (None ∈ objects
          ∨ ∃ h hname, Some h ∈ objects
                       ∧ counts searchTerm h hname
                       ∧ detail env hname = DetailFailed)) →
  fetchOrganizationPackages env = None ∧ main env = Exit1.
Proof.
  intros Hterm Hfailure.
  assert (fetchOrganizationPackages env = None) as Hnone.
  { destruct (fetchOrganizationPackages env) as [packages|] eqn:Hfetch;
      [exfalso|done].
    apply fetchOrganizationPackages_parts in Hfetch as (parts & Hparts & _).
    destruct (Forall2_elem_l _ _ _ _ Hparts Hterm)
      as (part & _ & objects' & news & Hsearch & _ & Hnews).
    destruct Hfailure as [Hfailed|(objects & Hbody & Hobject)];
      [congruence|].
    rewrite Hbody in Hsearch. injection Hsearch as <-.
    cbn [default from_option id] in Hnews.
    destruct Hobject as [Hmissing|(h & hname & Hh & Hcounts & Hdetail)].
    - destruct (Forall2_elem_l _ _ _ _ Hnews Hmissing)
        as (new & _ & h & [=] & _).
    - destruct (Forall2_elem_l _ _ _ _ Hnews Hh)
        as (new & _ & h' & [= <-] & Hadded).
      destruct Hadded as [[_ Hno]|(pkg & versionKeys & created & modified
                                   & _ & Hcounts' & Hdetail' & _)];
        [by destruct (Hno hname)|].
      assert (name pkg = hname) as Hname.
      { destruct Hcounts as [Hn _], Hcounts' as [Hn' _]. congruence. }
      congruence. }
  split; [exact Hnone|].
  unfold main. rewrite Hnone. by destruct (ensureDir env OUTPUT_DIR).
Qed.

Lemma registry_failure_aborts_witness :
  fetchOrganizationPackages Sample.refusedEnv = None
  ∧ main Sample.refusedEnv = Exit1.
Proof.
  apply (registry_failure_aborts Sample.refusedEnv (str "@elizaos-plugins")).
  - right. left.
  - by left.
Defined.

End DownloadReport.
